(** * Music sentiment and genre analyzer: a model of the front-end logic

    The development follows the TypeScript sources:
    - [Random]      : [Math.random()] as draws from a stream;
    - [React]       : when a function passed to a state setter is run;
    - [Simulation]  : the client-side random-walk page (segments of
                      valence / arousal / dominance, the animation loop and
                      [startProcessing]);
    - [Helpers]     : [utils/sentimentHelpers.ts] ([generateSmoothPath]);
    - [Actions]     : the server action [analyzeAudio];
    - [Page]        : [app/page.tsx], the page component talking to the
                      analysis endpoint, as an event-driven state machine;
    - [SimulatedPage] : stage, timers and frames of the random-walk page;
    - [Recorder]    : microphone acquisition and release in [RecordModal]
                      and in the inline recorder of the page;
    - [MusicPlayer], [ModalControls], [TimelineChart], [SpeakerWithWaves],
      [SimulationView], [PageView], [Colours] : the other
                      components and what the pages show.

    JavaScript numbers are idealised as rationals ([Q]); [===] on numbers
    is [Qeq_bool].  Handlers run one after the other, each followed by its
    render; state setters are applied in call order, and a function passed
    to a setter is run at the call or in that render ([React.UpdaterRun]). *)

From Stdlib Require Import QArith Lqa ZArith List String Ascii Bool Arith Lia.
From Stdlib Require Import Qround Qabs Strings.Byte DecimalString Permutation.
Import ListNotations.

(* ------------------------------------------------------------------ *)
(** ** Random draws *)

Module Random.

(** The stream behind [Math.random()]. *)
Definition Source := nat -> Q.

(** A computation that may draw: it receives the stream and the number of
    draws made so far, and returns its result with the new count. *)
Definition Rand (A : Type) : Type := Source -> nat -> A * nat.

Definition ret {A} (a : A) : Rand A := fun _ n => (a, n).

Definition bind {A B} (c : Rand A) (k : A -> Rand B) : Rand B :=
  fun src n => let (a, n') := c src n in k a src n'.

Definition Math_random : Rand Q := fun src n => (src n, S n).

Fixpoint mapM {A B} (f : A -> Rand B) (l : list A) : Rand (list B) :=
  match l with
  | [] => ret []
  | a :: l' => bind (f a) (fun b => bind (mapM f l') (fun bs => ret (b :: bs)))
  end.

(** Every draw of [Math.random()] lies in [0, 1). *)
Definition unit_source (src : Source) : Prop :=
  forall n, (0 <= src n /\ src n < 1)%Q.

(** A concrete stream, used to run the model: 0, 1/7, ..., 6/7, 0, ... *)
Definition sample_source : Source :=
  fun n => (Z.of_nat (n mod 7) # 7)%Q.

End Random.

Declare Scope rand_scope.
Delimit Scope rand_scope with rand.
Notation "x <- c ;; k" := (Random.bind c (fun x => k))
(at level 61, c at next level, right associativity) : rand_scope.

(* ------------------------------------------------------------------ *)
(** ** Functions passed to state setters *)

Module React.

(** [setState(prev => ...)] hands the function to React.  React runs it
    while the setter is being called when the component has no update
    pending (the next state is computed eagerly), and otherwise in the
    render that follows the handler.  A variable the function closes over
    is read at the moment the function is run. *)
Inductive UpdaterRun : Type :=
| AtCall
| AtRender.

(** The interval callbacks of [animateSegments] and [startProcessing] call
    the setter with a function that reads the [let] variable [currentIdx],
    and increment [currentIdx] in the next statement.  This is the index
    the function reads, [currentIdx] being the value at the call. *)
Definition seenIndex (u : UpdaterRun) (currentIdx : nat) : nat :=
  match u with
  | AtCall => currentIdx
  | AtRender => S currentIdx
  end.

(** How the functions of the successive ticks of an interval are run:
    tick [i], counted from 0, as [runs i].  Two uniform cases. *)
Definition allAtCall : nat -> UpdaterRun := fun _ => AtCall.
Definition allAtRender : nat -> UpdaterRun := fun _ => AtRender.

End React.

(* ------------------------------------------------------------------ *)
(** ** The random-walk simulation page *)

Module Simulation.
Import Random React.
Local Open Scope Q_scope.
Local Open Scope rand_scope.

Record Sentiment : Type := mkSentiment
  { value : Q; target : Q; speed : Q }.

Record SegmentSentiment : Type := mkSegment
  { timeSec : Q;
    valence : Sentiment;
    arousal : Sentiment;
    dominance : Sentiment;
    locked : bool }.

Definition totalSegments : nat := 12.

Definition Qltb (a b : Q) : bool := negb (Qle_bool b a).
Definition Qleb (a b : Q) : bool := Qle_bool a b.

(** [{ value: Math.random(), target: Math.random(),
       speed: Math.random() * 0.005 + 0.002 }] *)
Definition initSentiment : Rand Sentiment :=
  v <- Math_random ;;
  t <- Math_random ;;
  r <- Math_random ;;
  ret (mkSentiment v t (r * 0.005 + 0.002)).

Definition initSegment (i : nat) : Rand SegmentSentiment :=
  v <- initSentiment ;;
  a <- initSentiment ;;
  d <- initSentiment ;;
  ret (mkSegment (inject_Z (Z.of_nat i) * 5) v a d false).

(** [Array.from({ length: totalSegments }, (_, i) => ...)] *)
Definition initSegments : Rand (list SegmentSentiment) :=
  mapM initSegment (seq 0 totalSegments).

(** The inner function of [animate], on one sentiment of a segment. *)
Definition updateSentiment (s : Sentiment) : Rand Sentiment :=
  let current := value s in
  let target := target s in
  let speed := speed s in
  let newValue :=
    if Qltb current target then
      let nv := current + speed in
      if Qleb target nv then target else nv
    else if Qltb target current then
      let nv := current - speed in
      if Qleb nv target then target else nv
    else current in
  if Qeq_bool newValue target then
    t <- Math_random ;;
    r <- Math_random ;;
    ret (mkSentiment newValue t (r * 0.005 + 0.002))
  else
    ret (mkSentiment newValue target speed).

(** The callback of [prevSegments.map] in [animate]. *)
Definition animateSegment (seg : SegmentSentiment) : Rand SegmentSentiment :=
  if locked seg then ret seg
  else
    v <- updateSentiment (valence seg) ;;
    a <- updateSentiment (arousal seg) ;;
    d <- updateSentiment (dominance seg) ;;
    ret (mkSegment (timeSec seg) v a d (locked seg)).

(** One animation frame. *)
Definition animate (prevSegments : list SegmentSentiment)
  : Rand (list SegmentSentiment) :=
  mapM animateSegment prevSegments.

(** [{ ...seg.valence, target: seg.valence.value, speed: 0 }] *)
Definition lockSentiment (s : Sentiment) : Sentiment :=
  mkSentiment (value s) (value s) 0.

Definition lockSegment (seg : SegmentSentiment) : SegmentSentiment :=
  mkSegment (timeSec seg)
            (lockSentiment (valence seg))
            (lockSentiment (arousal seg))
            (lockSentiment (dominance seg))
            true.

Fixpoint mapi_from {A B} (i : nat) (f : A -> nat -> B) (l : list A) : list B :=
  match l with
  | [] => []
  | a :: l' => f a i :: mapi_from (S i) f l'
  end.

(** The state update of one interval tick of [startProcessing]:
    [prev.map((seg, i) => i === currentIdx ? {...} : seg)]. *)
Definition lockAt (currentIdx : nat) (prev : list SegmentSentiment)
  : list SegmentSentiment :=
  mapi_from 0 (fun seg i => if Nat.eqb i currentIdx then lockSegment seg else seg) prev.

(** The part of the page state the animation touches. *)
Record Sim : Type := mkSim
  { segments : list SegmentSentiment; draws : nat }.

(** What can happen to the segments: the function of an animation frame
    is run, or the function of a tick of the locking interval is run and
    reads [currentIdx].  Any interleaving is allowed, which covers the
    schedules the browser produces. *)
Inductive SimEvent : Type :=
| Frame
| LockTick (currentIdx : nat).

(** The tick of [startProcessing] made while the counter holds
    [currentIdx]: its function locks the index it reads when it is run. *)
Definition lockTick (u : UpdaterRun) (currentIdx : nat) : SimEvent :=
  LockTick (seenIndex u currentIdx).

Definition simInit (src : Source) : Sim :=
  let (segs, n) := initSegments src 0%nat in mkSim segs n.

Definition simStep (src : Source) (ev : SimEvent) (st : Sim) : Sim :=
  match ev with
  | Frame => let (segs, n) := animate (segments st) src (draws st) in mkSim segs n
  | LockTick idx => mkSim (lockAt idx (segments st)) (draws st)
  end.

Fixpoint simRun (src : Source) (evs : list SimEvent) (st : Sim) : Sim :=
  match evs with
  | [] => st
  | ev :: evs' => simRun src evs' (simStep src ev st)
  end.

(** Ranges. *)
Definition in_unit (q : Q) : Prop := 0 <= q /\ q <= 1.

Definition sentiment_ok (s : Sentiment) : Prop :=
  in_unit (value s) /\ in_unit (target s) /\ 0 <= speed s.

Definition segment_ok (seg : SegmentSentiment) : Prop :=
  sentiment_ok (valence seg) /\ sentiment_ok (arousal seg)
  /\ sentiment_ok (dominance seg).

Definition values_in_unit (seg : SegmentSentiment) : Prop :=
  in_unit (value (valence seg)) /\ in_unit (value (arousal seg))
  /\ in_unit (value (dominance seg)).

(** [v] lies between [a] and [b], whichever is the larger. *)
Definition between (a b v : Q) : Prop :=
  (a <= v /\ v <= b) \/ (b <= v /\ v <= a).

(** One animation step on [s], at any point of the stream, yields a value
    between the old value and the target. *)
Definition stepsBetween (src : Source) (s : Sentiment) : Prop :=
  forall n, between (value s) (target s)
                    (value (fst (updateSentiment s src n))).

Definition segmentStepsBetween (src : Source) (seg : SegmentSentiment) : Prop :=
  stepsBetween src (valence seg) /\ stepsBetween src (arousal seg)
  /\ stepsBetween src (dominance seg).

(** The pair drawn when a target is reached, at draw [n] of the stream:
    [target: Math.random(), speed: Math.random() * 0.005 + 0.002]. *)
Definition redrawn (src : Source) (n : nat) (v : Q) : Sentiment :=
  mkSentiment v (src n) (src (S n) * 0.005 + 0.002).

(** The four outcomes of one step, by the position of the value. *)
Inductive UpdateCase (src : Source) (n : nat) (s : Sentiment)
  : Sentiment * nat -> Prop :=
| UpRising :
    value s < target s -> value s + speed s < target s ->
    ~ value s + speed s == target s ->
    UpdateCase src n s
      (mkSentiment (value s + speed s) (target s) (speed s), n)
| UpFalling :
    target s < value s -> target s < value s - speed s ->
    ~ value s - speed s == target s ->
    UpdateCase src n s
      (mkSentiment (value s - speed s) (target s) (speed s), n)
| UpArrived :
    (value s < target s /\ target s <= value s + speed s)
    \/ (target s < value s /\ value s - speed s <= target s) ->
    UpdateCase src n s (redrawn src n (target s), S (S n))
| UpResting :
    value s == target s ->
    UpdateCase src n s (redrawn src n (value s), S (S n)).

Definition sample_sentiment : Sentiment := mkSentiment 0.5 0.75 0.004.

Definition sample_segment : SegmentSentiment :=
  mkSegment 0 sample_sentiment (mkSentiment 0.25 0 0.002)
            (mkSentiment 1 1 0.007) false.

End Simulation.

(* ------------------------------------------------------------------ *)
(** ** utils/sentimentHelpers.ts *)

Module Helpers.
Local Open Scope string_scope.

Record Point : Type := mkPoint { x : Q; y : Q }.

(** [points[i]]; every index the loop uses is below [points.length]. *)
Definition pointAt (points : list Point) (i : nat) : Point :=
  nth i points (mkPoint 0 0).

Section WithNumberFormat.

(** The conversion of a number inside a template literal. *)
Variable num : Q -> string.

(** The text added by iteration [i] of the loop. *)
Definition curveText (points : list Point) (i : nat) : string :=
  let n := List.length points in
  let p0 := pointAt points (if Nat.eqb i 0 then n - 1 else i - 1) in
  let p1 := pointAt points i in
  let p2 := pointAt points ((i + 1) mod n) in
  let p3 := pointAt points ((i + 2) mod n) in
  let cp1x := (x p1 + (x p2 - x p0) * 0.2)%Q in
  let cp1y := (y p1 + (y p2 - y p0) * 0.2)%Q in
  let cp2x := (x p2 - (x p3 - x p1) * 0.2)%Q in
  let cp2y := (y p2 - (y p3 - y p1) * 0.2)%Q in
  " C " ++ num cp1x ++ " " ++ num cp1y ++ ", "
        ++ num cp2x ++ " " ++ num cp2y ++ ", "
        ++ num (x p2) ++ " " ++ num (y p2).

Definition generateSmoothPath (points : list Point) : string :=
  if Nat.ltb (List.length points) 2 then ""
  else
    let path := "M " ++ num (x (pointAt points 0)) ++ " "
                     ++ num (y (pointAt points 0)) in
    let path :=
      fold_left (fun path i => path ++ curveText points i)
                (seq 0 (List.length points)) path in
    path ++ " Z".

(** *** The path as a list of SVG commands

    This is the reading of the path the description of
    [generateSmoothPath] gives; it is compared with the string the
    function builds. *)

Inductive PathCommand : Type :=
| MoveTo (p : Point)
| CurveTo (cp1 cp2 p : Point)
| ClosePath.

Definition renderCommand (c : PathCommand) : string :=
  match c with
  | MoveTo p => "M " ++ num (x p) ++ " " ++ num (y p)
  | CurveTo cp1 cp2 p =>
      "C " ++ num (x cp1) ++ " " ++ num (y cp1) ++ ", "
           ++ num (x cp2) ++ " " ++ num (y cp2) ++ ", "
           ++ num (x p) ++ " " ++ num (y p)
  | ClosePath => "Z"
  end.

(** Commands separated by one space. *)
Fixpoint renderPath (cs : list PathCommand) : string :=
  match cs with
  | [] => ""
  | [c] => renderCommand c
  | c :: cs' => renderCommand c ++ " " ++ renderPath cs'
  end.

End WithNumberFormat.

(** The point at index [i] modulo the number of points. *)
Definition cyclic (points : list Point) (i : nat) : Point :=
  pointAt points (i mod List.length points).

(** [cp1 = p1 + (p2 - p0) * 0.2] *)
Definition controlPoint1 (p0 p1 p2 : Point) : Point :=
  mkPoint (x p1 + (x p2 - x p0) * 0.2)%Q (y p1 + (y p2 - y p0) * 0.2)%Q.

(** [cp2 = p2 - (p3 - p1) * 0.2] *)
Definition controlPoint2 (p1 p2 p3 : Point) : Point :=
  mkPoint (x p2 - (x p3 - x p1) * 0.2)%Q (y p2 - (y p3 - y p1) * 0.2)%Q.

(** The curve leaving point [i]: previous, current, next and next-but-one
    point are taken cyclically. *)
Definition smoothCurve (points : list Point) (i : nat) : PathCommand :=
  let n := List.length points in
  let p0 := cyclic points (i + n - 1) in
  let p1 := cyclic points i in
  let p2 := cyclic points (i + 1) in
  let p3 := cyclic points (i + 2) in
  CurveTo (controlPoint1 p0 p1 p2) (controlPoint2 p1 p2 p3) p2.

Definition closedSmoothPath (points : list Point) : list PathCommand :=
  MoveTo (pointAt points 0)
    :: map (smoothCurve points) (seq 0 (List.length points)) ++ [ClosePath].

Definition isCurve (c : PathCommand) : bool :=
  match c with CurveTo _ _ _ => true | _ => false end.

(** The strings of a list one after the other. *)
Fixpoint flat (l : list string) : string :=
  match l with
  | [] => ""
  | s :: l' => s ++ flat l'
  end.

(** Occurrences of a character in a string. *)
Fixpoint occurrences (c : ascii) (s : string) : nat :=
  match s with
  | EmptyString => 0
  | String a s' => (if Ascii.eqb a c then 1 else 0) + occurrences c s'
  end.

(** A plain number format for running the model: numerator, a slash,
    denominator, in unary strokes of the digit 1 (sign as a minus). *)
Fixpoint strokes (n : nat) : string :=
  match n with
  | O => "0"
  | S n' => String "1" (strokes n')
  end.

Definition sample_num (q : Q) : string :=
  (if Z.ltb (Qnum q) 0 then "-" else "")
    ++ strokes (Z.abs_nat (Qnum q)) ++ "/" ++ strokes (Pos.to_nat (Qden q)).

Definition sample_points : list Point :=
  [mkPoint 0 0; mkPoint 1 0; mkPoint 1 1].

End Helpers.

(* ------------------------------------------------------------------ *)
(** ** The server action: sentimentActions *)

Module Actions.

Record ServerSegment : Type := mkServerSegment
  { timeSec : Q; valence : Q; arousal : Q; dominance : Q }.

(** The body the endpoint answers with. *)
Record Analysis : Type := mkAnalysis
  { segments : list ServerSegment; genre : string }.

Record Response : Type := mkResponse
  { status : Z; data : Analysis }.

(** How the POST ends on the wire. *)
Inductive Transport : Type :=
| NoResponse
| Responded (response : Response).

Inductive Failure : Type :=
| AxiosError
| ApiRequestFailed (status : Z).

Section Axios.

(** The [validateStatus] setting of the HTTP client: a response whose
    status it refuses makes [axios.post] reject. *)
Variable validateStatus : Z -> bool.

Definition axios_post (t : Transport) : Response + Failure :=
  match t with
  | NoResponse => inr AxiosError
  | Responded response =>
      if validateStatus (status response) then inl response
      else inr AxiosError
  end.

Definition analyzeAudio (t : Transport) : Analysis + Failure :=
  match axios_post t with
  | inr e => inr e
  | inl response =>
      if negb (Z.eqb (status response) 200)
      then inr (ApiRequestFailed (status response))
      else inl (data response)
  end.

End Axios.

(** The setting in force when none is passed, as in [analyzeAudio]:
    [status >= 200 && status < 300]. *)
Definition defaultValidateStatus (status : Z) : bool :=
  Z.leb 200 status && Z.ltb status 300.

Definition sample_analysis : Analysis :=
  mkAnalysis [mkServerSegment 0 0.5 0.25 0.75; mkServerSegment 5 0.25 0.5 1]
             "Jazz".

End Actions.

(* ------------------------------------------------------------------ *)
(** ** app/page.tsx: the page component *)

Module Page.
Import React Actions.
Local Open Scope string_scope.

Inductive Stage : Type := idle | uploading | processing | finished.

(** Position in the order idle, uploading, processing, finished. *)
Definition stageIndex (s : Stage) : nat :=
  match s with idle => 0 | uploading => 1 | processing => 2 | finished => 3 end.

Definition stage_eqb (a b : Stage) : bool :=
  Nat.eqb (stageIndex a) (stageIndex b).

Record Blob : Type := mkBlob { blobType : string }.

Record File : Type := mkFile { name : string; type : string }.

(** A [File] is passed where a [Blob] is expected. *)
Definition blobOf (file : File) : Blob := mkBlob (type file).

(** Work that has been started and has not come back yet. *)
Inductive Task : Type :=
| Analyzing (audioBlob : Blob)
    (* [await analyzeAudio(formData)] in [processAudio] *)
| StageTimer (segments : list ServerSegment)
    (* [setTimeout(..., 2000)] in [processAudio] *)
| SegmentInterval (segments : list ServerSegment) (currentIdx : nat)
    (* [setInterval(..., 2000)] in [animateSegments] *)
| Fetching (url : string).
    (* [fetch(url).then((res) => res.blob())] in [onRecordingComplete] *)

Record State : Type := mkState
  { stage : Stage;
    recordedAudioUrl : option string;
    uploadedAudioUrl : option string;
    showRecordModal : bool;
    songName : string;
    artistName : string;
    serverSegments : list ServerSegment;
    animatedSegments : list (option ServerSegment);
        (* [None] is [undefined] *)
    predictedGenre : option string;
    error : option string;
    tasks : list Task }.

(** The values given to [useState]. *)
Definition initialState : State :=
  mkState idle None None false "Unknown" "Unknown" [] [] None None [].

Definition setStage (v : Stage) (s : State) : State :=
  mkState v (recordedAudioUrl s) (uploadedAudioUrl s) (showRecordModal s)
          (songName s) (artistName s) (serverSegments s) (animatedSegments s)
          (predictedGenre s) (error s) (tasks s).

Definition setRecordedAudioUrl (v : option string) (s : State) : State :=
  mkState (stage s) v (uploadedAudioUrl s) (showRecordModal s)
          (songName s) (artistName s) (serverSegments s) (animatedSegments s)
          (predictedGenre s) (error s) (tasks s).

Definition setUploadedAudioUrl (v : option string) (s : State) : State :=
  mkState (stage s) (recordedAudioUrl s) v (showRecordModal s)
          (songName s) (artistName s) (serverSegments s) (animatedSegments s)
          (predictedGenre s) (error s) (tasks s).

Definition setShowRecordModal (v : bool) (s : State) : State :=
  mkState (stage s) (recordedAudioUrl s) (uploadedAudioUrl s) v
          (songName s) (artistName s) (serverSegments s) (animatedSegments s)
          (predictedGenre s) (error s) (tasks s).

Definition setSongName (v : string) (s : State) : State :=
  mkState (stage s) (recordedAudioUrl s) (uploadedAudioUrl s) (showRecordModal s)
          v (artistName s) (serverSegments s) (animatedSegments s)
          (predictedGenre s) (error s) (tasks s).

Definition setArtistName (v : string) (s : State) : State :=
  mkState (stage s) (recordedAudioUrl s) (uploadedAudioUrl s) (showRecordModal s)
          (songName s) v (serverSegments s) (animatedSegments s)
          (predictedGenre s) (error s) (tasks s).

Definition setServerSegments (v : list ServerSegment) (s : State) : State :=
  mkState (stage s) (recordedAudioUrl s) (uploadedAudioUrl s) (showRecordModal s)
          (songName s) (artistName s) v (animatedSegments s)
          (predictedGenre s) (error s) (tasks s).

Definition setAnimatedSegments (v : list (option ServerSegment)) (s : State)
  : State :=
  mkState (stage s) (recordedAudioUrl s) (uploadedAudioUrl s) (showRecordModal s)
          (songName s) (artistName s) (serverSegments s) v
          (predictedGenre s) (error s) (tasks s).

Definition setPredictedGenre (v : option string) (s : State) : State :=
  mkState (stage s) (recordedAudioUrl s) (uploadedAudioUrl s) (showRecordModal s)
          (songName s) (artistName s) (serverSegments s) (animatedSegments s)
          v (error s) (tasks s).

Definition setError (v : option string) (s : State) : State :=
  mkState (stage s) (recordedAudioUrl s) (uploadedAudioUrl s) (showRecordModal s)
          (songName s) (artistName s) (serverSegments s) (animatedSegments s)
          (predictedGenre s) v (tasks s).

Definition setTasks (v : list Task) (s : State) : State :=
  mkState (stage s) (recordedAudioUrl s) (uploadedAudioUrl s) (showRecordModal s)
          (songName s) (artistName s) (serverSegments s) (animatedSegments s)
          (predictedGenre s) (error s) v.

Definition addTask (t : Task) (s : State) : State :=
  setTasks (tasks s ++ [t]) s.

Fixpoint removeAt {A} (k : nat) (l : list A) : list A :=
  match l, k with
  | [], _ => []
  | _ :: l', O => l'
  | a :: l', S k' => a :: removeAt k' l'
  end.

Fixpoint replaceAt {A} (k : nat) (a : A) (l : list A) : list A :=
  match l, k with
  | [], _ => []
  | _ :: l', O => a :: l'
  | b :: l', S k' => b :: replaceAt k' a l'
  end.

Definition uploadErrorMessage : string := "Please upload a valid audio file.".

Definition processingErrorMessage : string :=
  "There was an error processing your audio. Please try again.".

(** *** animateSegments *)

(** The call itself only arms the interval, with [currentIdx = 0]. *)
Definition animateSegments (segments : list ServerSegment) (s : State) : State :=
  addTask (SegmentInterval segments 0) s.

(** The interval callback and the render that follows it.  The callback
    passes [(prev) => [...prev, segments[currentIdx]]] to the setter and
    then increments [currentIdx]; the function appends the element at the
    index it reads when it is run ([u]), undefined outside the list.  The
    second component is the new [currentIdx] while the interval keeps
    running, and [None] once [clearInterval] has been called. *)
Definition intervalTick (u : UpdaterRun) (segments : list ServerSegment)
           (currentIdx : nat) (s : State) : State * option nat :=
  let s := setAnimatedSegments
             (animatedSegments s ++ [nth_error segments (seenIndex u currentIdx)])
             s in
  let currentIdx := S currentIdx in
  if Nat.leb (List.length segments) currentIdx
  then (setStage finished s, None)
  else (s, Some currentIdx).

(** The interval left to itself for the ticks listed, each with the way
    its function is run. *)
Fixpoint runInterval (us : list UpdaterRun) (segments : list ServerSegment)
         (currentIdx : nat) (s : State) : State * option nat :=
  match us with
  | [] => (s, Some currentIdx)
  | u :: us' =>
      match intervalTick u segments currentIdx s with
      | (s', Some currentIdx') => runInterval us' segments currentIdx' s'
      | (s', None) => (s', None)
      end
  end.

(** The ways the functions of ticks [from], ..., [from + count - 1] are
    run, and what these ticks append. *)
Definition runsOf (runs : nat -> UpdaterRun) (from count : nat)
  : list UpdaterRun :=
  map runs (seq from count).

Definition appendedBy (runs : nat -> UpdaterRun) (segments : list ServerSegment)
           (from count : nat) : list (option ServerSegment) :=
  map (fun i => nth_error segments (seenIndex (runs i) i)) (seq from count).

(** *** processAudio *)

(** Up to the [await]: the request is on its way. *)
Definition processAudio (audioBlob : Blob) (s : State) : State :=
  addTask (Analyzing audioBlob) s.

(** After the [await]: the rest of the [try] block, or the [catch]. *)
Definition processAudio_settled (result : Analysis + Failure) (s : State)
  : State :=
  match result with
  | inl body =>
      let s := setServerSegments (segments body) s in
      let s := setPredictedGenre (Some (genre body)) s in
      let s := setStage uploading s in
      addTask (StageTimer (segments body)) s
  | inr _ => setError (Some processingErrorMessage) s
  end.

(** The callback given to [setTimeout] in [processAudio]. *)
Definition stageTimer_fired (segments : list ServerSegment) (s : State) : State :=
  animateSegments segments (setStage processing s).

(** *** Handlers *)

(** [files] is [e.target.files]. *)
Definition handleFileUpload (files : option (list File)) (s : State) : State :=
  match files with
  | None | Some [] => s
  | Some (file :: _) =>
      if negb (String.prefix "audio/" (type file))
      then setError (Some uploadErrorMessage) s
      else
        let s := setError None s in
        let s := setSongName (name file) s in
        let s := setArtistName "Unknown" s in
        processAudio (blobOf file) s
  end.

Definition resetApp (s : State) : State :=
  let s := setStage idle s in
  let s := setRecordedAudioUrl None s in
  let s := setUploadedAudioUrl None s in
  let s := setPredictedGenre None s in
  let s := setServerSegments [] s in
  setAnimatedSegments [] s.

(** The [onRecordingComplete] prop given to [RecordModal]. *)
Definition onRecordingComplete (url : string) (s : State) : State :=
  let s := setRecordedAudioUrl (Some url) s in
  let s := setShowRecordModal false s in
  let s := setStage uploading s in
  addTask (Fetching url) s.

(** [recorder.onstop] of the inline recorder. *)
Definition inlineRecorder_onstop (url : string) (blob : Blob) (s : State)
  : State :=
  let s := setRecordedAudioUrl (Some url) s in
  let s := setStage uploading s in
  processAudio blob s.

(** *** The page as a machine driven by events *)

Inductive Event : Type :=
| FileChosen (files : option (list File))
| RecordClicked
| ModalClosed
| RecordingComplete (url : string)
| FetchSettled (k : nat) (blob : option Blob)
| InlineRecorderStopped (url : string) (blob : Blob)
| AnalysisSettled (k : nat) (t : Transport)
| TimerFired (k : nat)
| IntervalTicked (k : nat) (u : UpdaterRun)
| ResetClicked.

Definition isReset (ev : Event) : bool :=
  match ev with ResetClicked => true | _ => false end.

Section WithClient.

Variable validateStatus : Z -> bool.

(** An event that is not possible in the state (controls that are not
    rendered, a task that is not pending at position [k]) leaves the
    state as it is.  The upload and record controls are rendered in
    stage idle only; the top menu with the reset button always. *)
Definition step (ev : Event) (s : State) : State :=
  match ev with
  | FileChosen files =>
      if stage_eqb (stage s) idle then handleFileUpload files s else s
  | RecordClicked =>
      if stage_eqb (stage s) idle then setShowRecordModal true s else s
  | ModalClosed =>
      if showRecordModal s then setShowRecordModal false s else s
  | RecordingComplete url =>
      if showRecordModal s then onRecordingComplete url s else s
  | FetchSettled k blob =>
      match nth_error (tasks s) k with
      | Some (Fetching _) =>
          let s := setTasks (removeAt k (tasks s)) s in
          match blob with
          | Some b => processAudio b s
          | None => s
          end
      | _ => s
      end
  | InlineRecorderStopped url blob => inlineRecorder_onstop url blob s
  | AnalysisSettled k t =>
      match nth_error (tasks s) k with
      | Some (Analyzing _) =>
          processAudio_settled (analyzeAudio validateStatus t)
                               (setTasks (removeAt k (tasks s)) s)
      | _ => s
      end
  | TimerFired k =>
      match nth_error (tasks s) k with
      | Some (StageTimer segs) =>
          stageTimer_fired segs (setTasks (removeAt k (tasks s)) s)
      | _ => s
      end
  | IntervalTicked k u =>
      match nth_error (tasks s) k with
      | Some (SegmentInterval segs idx) =>
          match intervalTick u segs idx s with
          | (s', Some idx') =>
              setTasks (replaceAt k (SegmentInterval segs idx') (tasks s')) s'
          | (s', None) => setTasks (removeAt k (tasks s')) s'
          end
      | _ => s
      end
  | ResetClicked => resetApp s
  end.

Fixpoint run (evs : list Event) (s : State) : State :=
  match evs with
  | [] => s
  | ev :: evs' => run evs' (step ev s)
  end.

(** The stage after each event of a run. *)
Fixpoint stages (evs : list Event) (s : State) : list Stage :=
  match evs with
  | [] => []
  | ev :: evs' => stage (step ev s) :: stages evs' (step ev s)
  end.

End WithClient.

(** The stage an event writes, for the events whose handler writes one. *)
Definition writtenStage (ev : Event) : option Stage :=
  match ev with
  | ResetClicked => Some idle
  | RecordingComplete _ | InlineRecorderStopped _ _ | AnalysisSettled _ _ =>
      Some uploading
  | TimerFired _ => Some processing
  | IntervalTicked _ _ => Some finished
  | FileChosen _ | RecordClicked | ModalClosed | FetchSettled _ _ => None
  end.

(** The ticks [from], ..., [from + count - 1] of the interval found at
    position 0 of the pending work. *)
Definition intervalTicks (runs : nat -> UpdaterRun) (from count : nat)
  : list Event :=
  map (IntervalTicked 0) (runsOf runs from count).

(** The number of ticks an interval armed on [segments] makes: one per
    segment, and one on the empty list. *)
Definition ticksOf (segments : list ServerSegment) : nat :=
  Nat.max 1 (List.length segments).

(** One audio file submitted and carried to the end, nothing else
    happening in between: the choice of the file, the answer of the
    endpoint, the 2 s timer, then the ticks of the interval. *)
Definition singleSubmission (file : File) (body : Analysis)
           (runs : nat -> UpdaterRun) : list Event :=
  [ FileChosen (Some [file]);
    AnalysisSettled 0 (Responded (mkResponse 200 body));
    TimerFired 0 ]
  ++ intervalTicks runs 0 (ticksOf (segments body)).

(** One recording made in the modal and carried to the end: the modal is
    opened, the recording completes, its blob is fetched, then as above. *)
Definition recordedSubmission (url : string) (blob : Blob) (body : Analysis)
           (runs : nat -> UpdaterRun) : list Event :=
  [ RecordClicked;
    RecordingComplete url;
    FetchSettled 0 (Some blob);
    AnalysisSettled 0 (Responded (mkResponse 200 body));
    TimerFired 0 ]
  ++ intervalTicks runs 0 (ticksOf (segments body)).

Definition sample_audio : File := mkFile "a.mp3" "audio/mpeg".
Definition sample_audio2 : File := mkFile "b.wav" "audio/wav".
Definition sample_text : File := mkFile "notes.txt" "text/plain".

(** Two files chosen one after the other while the stage is still idle;
    the first answer arrives and its timer fires. *)
Definition overlappingUploads : list Event :=
  [ FileChosen (Some [sample_audio]);
    FileChosen (Some [sample_audio2]);
    AnalysisSettled 0 (Responded (mkResponse 200 sample_analysis));
    TimerFired 1 ].

(** A rejected upload followed by a reset. *)
Definition rejectedThenReset : list Event :=
  [ FileChosen (Some [sample_text]); ResetClicked ].

End Page.

(* ------------------------------------------------------------------ *)
(** ** The stage in the random-walk simulation page *)

Module SimulatedPage.
Import Random React Page.
Local Open Scope string_scope.

(** Timers of the simulated processing. *)
Inductive SimTask : Type :=
| UploadTimer
    (* [setTimeout(..., 2000)] after an upload or a recording *)
| LockInterval (currentIdx : nat)
    (* [setInterval(..., 5000)] in [startProcessing] *)
| GenreTimer.
    (* [setTimeout(..., 1000)] after the last lock *)

(** Stage, audio URLs, error, the segments with the draws of
    [Math.random()] made so far, and the timers; the genres drawn at the
    end are left out. *)
Record SimState : Type := mkSimState
  { simStage : Stage;
    simRecordedAudioUrl : option string;
    simUploadedAudioUrl : option string;
    simError : option string;
    simWalk : Simulation.Sim;
    simTasks : list SimTask }.

Definition simSegments (s : SimState) : list Simulation.SegmentSentiment :=
  Simulation.segments (simWalk s).

Definition setSimStage (v : Stage) (s : SimState) : SimState :=
  mkSimState v (simRecordedAudioUrl s) (simUploadedAudioUrl s) (simError s)
             (simWalk s) (simTasks s).

Definition setSimWalk (v : Simulation.Sim) (s : SimState) : SimState :=
  mkSimState (simStage s) (simRecordedAudioUrl s) (simUploadedAudioUrl s)
             (simError s) v (simTasks s).

Definition setSimTasks (v : list SimTask) (s : SimState) : SimState :=
  mkSimState (simStage s) (simRecordedAudioUrl s) (simUploadedAudioUrl s)
             (simError s) (simWalk s) v.

(** [fileUrl] is the result of [URL.createObjectURL(file)]. *)
Definition simHandleFileUpload (files : option (list File)) (fileUrl : string)
           (s : SimState) : SimState :=
  match files with
  | None | Some [] => s
  | Some (file :: _) =>
      if negb (String.prefix "audio/" (type file))
      then mkSimState (simStage s) (simRecordedAudioUrl s)
                      (simUploadedAudioUrl s) (Some uploadErrorMessage)
                      (simWalk s) (simTasks s)
      else mkSimState uploading (simRecordedAudioUrl s) (Some fileUrl) None
                      (simWalk s) (simTasks s ++ [UploadTimer])
  end.

(** [recorder.onstop] of the inline recorder and [onRecordingComplete]
    of the modal, as far as the stage and the timers go. *)
Definition simRecordingDone (url : string) (s : SimState) : SimState :=
  mkSimState uploading (Some url) (simUploadedAudioUrl s) (simError s)
             (simWalk s) (simTasks s ++ [UploadTimer]).

(** The callback of the 2 s timer: [setStage("processing")] and
    [startProcessing()], which arms the interval at index 0. *)
Definition uploadTimer_fired (s : SimState) : SimState :=
  let s := setSimStage processing s in
  setSimTasks (simTasks s ++ [LockInterval 0]) s.

Inductive SimPageEvent : Type :=
| SimFileChosen (files : option (list File)) (fileUrl : string)
| SimRecordingDone (url : string)
| SimTimerFired (k : nat)
| SimIntervalTicked (k : nat) (u : UpdaterRun)
| SimFrame.

Section WithSource.

Variable src : Source.

(** One tick of the interval of [startProcessing], found at position [k]
    of the timers, and the render that follows it: the function given to
    [setSegments] locks the index it reads when it is run ([u]);
    [currentIdx] is incremented and compared with [totalSegments]. *)
Definition lockInterval_ticked (u : UpdaterRun) (k currentIdx : nat)
           (s : SimState) : SimState :=
  let s := setSimWalk
             (Simulation.simStep src (Simulation.lockTick u currentIdx)
                                 (simWalk s)) s in
  let currentIdx := S currentIdx in
  if Nat.eqb currentIdx Simulation.totalSegments
  then setSimTasks (removeAt k (simTasks s) ++ [GenreTimer]) s
  else setSimTasks (replaceAt k (LockInterval currentIdx) (simTasks s)) s.

(** The callback of [requestAnimationFrame]: the effect that requests the
    frames returns at once unless the stage is processing, and its cleanup
    cancels the pending frame when the stage changes. *)
Definition animationFrame (s : SimState) : SimState :=
  if stage_eqb (simStage s) processing
  then setSimWalk (Simulation.simStep src Simulation.Frame (simWalk s)) s
  else s.

(** A timer event names the position of a pending timer; what it does
    depends on the timer found there. *)
Definition simPageStep (ev : SimPageEvent) (s : SimState) : SimState :=
  match ev with
  | SimFileChosen files fileUrl =>
      if stage_eqb (simStage s) idle then simHandleFileUpload files fileUrl s
      else s
  | SimRecordingDone url => simRecordingDone url s
  | SimTimerFired k =>
      match nth_error (simTasks s) k with
      | Some UploadTimer =>
          uploadTimer_fired (setSimTasks (removeAt k (simTasks s)) s)
      | Some GenreTimer =>
          setSimStage finished (setSimTasks (removeAt k (simTasks s)) s)
      | _ => s
      end
  | SimIntervalTicked k u =>
      match nth_error (simTasks s) k with
      | Some (LockInterval idx) => lockInterval_ticked u k idx s
      | _ => s
      end
  | SimFrame => animationFrame s
  end.

Fixpoint simPageRun (evs : list SimPageEvent) (s : SimState) : SimState :=
  match evs with
  | [] => s
  | ev :: evs' => simPageRun evs' (simPageStep ev s)
  end.

End WithSource.

(** The events of the processing as the timers produce them: before tick
    [i] of the interval, counted from 0, [framesBefore i] animation
    frames; the function of tick [i] is run as [runs i] says. *)
Fixpoint processingEvents (framesBefore : nat -> nat)
         (runs : nat -> UpdaterRun) (ticks : nat) : list SimPageEvent :=
  match ticks with
  | O => []
  | S i => processingEvents framesBefore runs i
             ++ repeat SimFrame (framesBefore i)
             ++ [SimIntervalTicked 0 (runs i)]
  end.

(** One upload carried to the end: the file, the 2 s timer, the twelve
    ticks of the interval with the frames between them, the frames of the
    last second, the 1 s timer. *)
Definition simulatedSubmission (file : File) (fileUrl : string)
           (framesBefore : nat -> nat) (runs : nat -> UpdaterRun)
  : list SimPageEvent :=
  [SimFileChosen (Some [file]) fileUrl; SimTimerFired 0]
    ++ processingEvents framesBefore runs Simulation.totalSegments
    ++ repeat SimFrame (framesBefore Simulation.totalSegments)
    ++ [SimTimerFired 0].

(** The page as it is created, [walk] being the segments drawn by the
    initialiser of [useState]. *)
Definition simInitialState (walk : Simulation.Sim) : SimState :=
  mkSimState idle None None None walk [].

End SimulatedPage.

(* ------------------------------------------------------------------ *)
(** ** Microphone streams: RecordModal and the inline recorder *)

Module Recorder.

(** A capture stream is the list of its tracks; a track is [true] while
    its [readyState] is live and [false] once [stop()] was called on it. *)
Definition MediaStream : Type := list bool.

(** The streams handed out so far; a stream is named by its position. *)
Definition Streams : Type := list MediaStream.

(** [navigator.mediaDevices.getUserMedia] granting a stream of [n] live
    tracks. *)
Definition getUserMedia (n : nat) (w : Streams) : nat * Streams :=
  (List.length w, w ++ [repeat true n]).

Fixpoint updateAt {A} (k : nat) (f : A -> A) (l : list A) : list A :=
  match l, k with
  | [], _ => []
  | a :: l', O => f a :: l'
  | a :: l', S k' => a :: updateAt k' f l'
  end.

(** [stream.getTracks().forEach((track) => track.stop())] *)
Definition stopTracks (id : nat) (w : Streams) : Streams :=
  updateAt id (map (fun _ => false)) w.

Definition hasLiveTrack (id : nat) (w : Streams) : bool :=
  existsb (fun live => live) (nth id w []).

(** *** RecordModal *)

Record Modal : Type := mkModal
  { isRecording : bool;
    mediaRecorderRef : option nat;   (* the stream the recorder records *)
    mediaStreamRef : option nat;
    requesting : nat;                (* [getUserMedia] calls not yet settled *)
    mounted : bool }.

Definition modalMounted : Modal := mkModal false None None 0 true.

(** [startRecording] up to [await getUserMedia(constraints)]. *)
Definition startRecording (m : Modal) : Modal :=
  mkModal (isRecording m) (mediaRecorderRef m) (mediaStreamRef m)
          (S (requesting m)) (mounted m).

(** The rest of [startRecording] once a stream of [n] tracks is granted. *)
Definition startRecording_granted (n : nat) (mw : Modal * Streams)
  : Modal * Streams :=
  let (m, w) := mw in
  let (stream, w) := getUserMedia n w in
  (mkModal true (Some stream) (Some stream) (pred (requesting m)) (mounted m), w).

(** The [catch] of [startRecording]: the error is logged. *)
Definition startRecording_denied (mw : Modal * Streams) : Modal * Streams :=
  let (m, w) := mw in
  (mkModal (isRecording m) (mediaRecorderRef m) (mediaStreamRef m)
           (pred (requesting m)) (mounted m), w).

(** [mediaRecorderRef.current.stop()] acts on the recorder only; the
    tracks are stopped by the second [if]. *)
Definition stopRecording (mw : Modal * Streams) : Modal * Streams :=
  let (m, w) := mw in
  let w := match mediaStreamRef m with
           | Some stream => stopTracks stream w
           | None => w
           end in
  (mkModal false (mediaRecorderRef m) (mediaStreamRef m) (requesting m)
           (mounted m), w).

(** The cleanup returned by the effect of [RecordModal]. *)
Definition modalUnmount (mw : Modal * Streams) : Modal * Streams :=
  let (m, w) := mw in
  let w := match mediaStreamRef m with
           | Some stream => stopTracks stream w
           | None => w
           end in
  (mkModal (isRecording m) (mediaRecorderRef m) (mediaStreamRef m)
           (requesting m) false, w).

(** *** The inline recorder of the page *)

Record Inline : Type := mkInline
  { recording : bool;
    mediaRecorderRefInline : option nat;
    inlineMediaStreamRef : option nat;
    pageMounted : bool }.

Definition inlineInitial : Inline := mkInline false None None true.

(** [startRecordingInline] once a stream of [n] tracks is granted. *)
Definition startRecordingInline_granted (n : nat) (pw : Inline * Streams)
  : Inline * Streams :=
  let (p, w) := pw in
  let (stream, w) := getUserMedia n w in
  (mkInline true (Some stream) (Some stream) (pageMounted p), w).

Definition stopRecordingInline (pw : Inline * Streams) : Inline * Streams :=
  let (p, w) := pw in
  match mediaRecorderRefInline p, recording p with
  | Some _, true =>
      let w := match inlineMediaStreamRef p with
               | Some stream => stopTracks stream w
               | None => w
               end in
      (mkInline false (mediaRecorderRefInline p) (inlineMediaStreamRef p)
                (pageMounted p), w)
  | _, _ => (p, w)
  end.

(** Teardown of the page runs the cleanups its effects returned.  The only
    one is [window.removeEventListener("scroll", handleScroll)]; none
    reads [inlineMediaStreamRef]. *)
Definition pageTeardown (pw : Inline * Streams) : Inline * Streams :=
  let (p, w) := pw in
  (mkInline (recording p) (mediaRecorderRefInline p) (inlineMediaStreamRef p)
            false, w).

End Recorder.

(* ------------------------------------------------------------------ *)
(** ** components/musicPlayer.tsx *)

Module MusicPlayer.
Import Random.
Local Open Scope Q_scope.
Local Open Scope rand_scope.

(** [Math.floor(Math.random() * n)], used as an index. *)
Definition randomIndex (n : nat) : Rand nat :=
  r <- Math_random ;;
  ret (Z.to_nat (Qfloor (r * inject_Z (Z.of_nat n)))).

Definition designVariants : list (list string) :=
  [ [ "M0 128 Q32 64 64 128 T128 128";
      "M0 128 Q32 48 64 128 T128 128";
      "M0 128 Q32 32 64 128 T128 128";
      "M0 128 Q16 64 32 128 T64 128";
      "M64 128 Q80 64 96 128 T128 128" ];
    [ "M0 128 C32 0, 96 0, 128 128";
      "M0 128 C32 96, 96 96, 128 128";
      "M0 128 C32 112, 96 112, 128 128";
      "M0 128 C32 80, 96 80, 128 128";
      "M0 128 C32 64, 96 64, 128 128" ];
    [ "M64 128 A64 64 0 0 1 0 64";
      "M64 128 A64 64 0 0 0 128 64";
      "M64 0 A64 64 0 0 1 128 64";
      "M64 0 A64 64 0 0 0 0 64";
      "M0 64 L128 64" ] ]%string.

(** [designVariants[index]]; [None] is [undefined]. *)
Definition selectedVariant : Rand (option (list string)) :=
  index <- randomIndex (List.length designVariants) ;;
  ret (nth_error designVariants index).

Definition palette : list string :=
  [ "#FFD700"; "#800080"; "#000000"; "#FF0000"; "#0000FF";
    "#008000"; "#FF8C00"; "#FF69B4"; "#00BFFF"; "#4B0082" ]%string.

(** [[a[i], a[j]] = [a[j], a[i]]]: both elements are read, then [a[i]] and
    [a[j]] are written in this order.  In the loop both indices are below
    the length; otherwise the list is left as it is here. *)
Definition swap {A} (i j : nat) (a : list A) : list A :=
  match nth_error a j, nth_error a i with
  | Some aj, Some ai => Page.replaceAt j ai (Page.replaceAt i aj a)
  | _, _ => a
  end.

(** [for (let i = ...; i > 0; i--) { j = floor(random() * (i + 1)); swap }],
    entered with the current [i]. *)
Fixpoint shuffleLoop {A} (i : nat) (available : list A) : Rand (list A) :=
  match i with
  | O => ret available
  | S i' =>
      j <- randomIndex (i + 1) ;;
      shuffleLoop i' (swap i j available)
  end.

(** The copy of the list shuffled in place. *)
Definition shuffled {A} (l : list A) : Rand (list A) :=
  shuffleLoop (List.length l - 1) l.

(** [available.slice(0, 5)] *)
Definition randomPathColors : Rand (list string) :=
  available <- shuffled palette ;;
  ret (firstn 5 available).











Definition Math_max (a b : Q) : Q := if Qle_bool a b then b else a.
Definition Math_min (a b : Q) : Q := if Qle_bool a b then a else b.

(** The state of the component and of the [audio] element it drives, for
    a clip whose duration is a finite number. *)
Record Player : Type := mkPlayer
  { isPlaying : bool;
    currentTime : Q;
    duration : Q;
    audio_currentTime : Q;     (* [audioRef.current.currentTime] *)
    audio_paused : bool }.

Definition togglePlayPause (p : Player) : Player :=
  if isPlaying p
  then mkPlayer false (currentTime p) (duration p) (audio_currentTime p) true
  else mkPlayer true (currentTime p) (duration p) (audio_currentTime p) false.

(** The skip-back button. *)
Definition skipBack (p : Player) : Player :=
  let t := Math_max (audio_currentTime p - 10) 0 in
  mkPlayer (isPlaying p) t (duration p) t (audio_paused p).

(** The skip-forward button. *)
Definition skipForward (p : Player) : Player :=
  let t := Math_min (audio_currentTime p + 10) (duration p) in
  mkPlayer (isPlaying p) t (duration p) t (audio_paused p).

(** [onChange] of the range input, [value] being [parseFloat(e.target.value)]. *)
Definition seek (value : Q) (p : Player) : Player :=
  let newTime := (value / 100) * duration p in
  mkPlayer (isPlaying p) newTime (duration p) newTime (audio_paused p).

(** The [timeupdate] listener: [setCurrentTime(audio.currentTime)]. *)
Definition handleTimeUpdate (p : Player) : Player :=
  mkPlayer (isPlaying p) (audio_currentTime p) (duration p)
           (audio_currentTime p) (audio_paused p).

(** The element itself: while it is not paused, playback moves its
    position; the component is told by [timeupdate] events only. *)
Definition playback (position : Q) (p : Player) : Player :=
  if audio_paused p then p
  else mkPlayer (isPlaying p) (currentTime p) (duration p) position
                (audio_paused p).

Inductive Control : Type :=
| PlayPauseClicked
| SkipBackClicked
| SkipForwardClicked
| SliderMoved (value : Q)
| TimeUpdated
| Played (position : Q).

Definition control (c : Control) (p : Player) : Player :=
  match c with
  | PlayPauseClicked => togglePlayPause p
  | SkipBackClicked => skipBack p
  | SkipForwardClicked => skipForward p
  | SliderMoved value => seek value p
  | TimeUpdated => handleTimeUpdate p
  | Played position => playback position p
  end.

Fixpoint controls (cs : list Control) (p : Player) : Player :=
  match cs with
  | [] => p
  | c :: cs' => controls cs' (control c p)
  end.

(** What the environment is taken to respect: the range input has
    [min={0}] and [max={100}], and playback keeps the position of the
    element inside the clip of duration [d]. *)
Definition admissible (d : Q) (c : Control) : Prop :=
  match c with
  | SliderMoved value => 0 <= value /\ value <= 100
  | Played position => 0 <= position /\ position <= d
  | _ => True
  end.

(** The handlers that set the displayed time from the element. *)
Definition showsPosition (c : Control) : bool :=
  match c with
  | SkipBackClicked | SkipForwardClicked | SliderMoved _ | TimeUpdated => true
  | PlayPauseClicked | Played _ => false
  end.

(** The position of the element and the displayed time lie inside the
    clip. *)
Definition positionInClip (p : Player) : Prop :=
  (0 <= audio_currentTime p /\ audio_currentTime p <= duration p)
  /\ (0 <= currentTime p /\ currentTime p <= duration p).

Definition sample_player : Player := mkPlayer false 0 95 0 true.

End MusicPlayer.

(* ------------------------------------------------------------------ *)
(** ** RecordModal: level meter and mute button *)

Module ModalControls.
Local Open Scope Q_scope.

(** An element of the [Uint8Array]. *)
Definition byteValue (d : byte) : Q := inject_Z (Z.of_N (Byte.to_N d)).

(** The value [monitorAudioLevel] passes to [setAudioLevel], [dataArray]
    being what [getByteTimeDomainData] wrote. *)
Definition audioLevel (dataArray : list byte) : Q :=
  let sum :=
    fold_left (fun sum d =>
                 let normalized := (byteValue d - 128) / 128 in
                 sum + Qabs normalized)
              dataArray 0 in
  let avg := sum / inject_Z (Z.of_nat (List.length dataArray)) in
  avg.

(** The width of the level bar, in percent:
    [Math.min(audioLevel * 150, 100)]. *)
Definition levelBarWidth (audioLevel : Q) : Q :=
  MusicPlayer.Math_min (audioLevel * 150) 100.

Inductive TrackKind : Type := audioTrack | videoTrack.

Record Track : Type := mkTrack { kind : TrackKind; enabled : bool }.

Definition isAudio (t : Track) : bool :=
  match kind t with audioTrack => true | videoTrack => false end.

(** [isMuted] and [mediaStreamRef.current] (its tracks). *)
Record Mute : Type := mkMute
  { isMuted : bool; mediaStream : option (list Track) }.

(** [toggleMute] of the modal; [toggleMicMute] of the page is the same
    function on [isMicMuted] and [inlineMediaStreamRef]. *)
Definition toggleMute (m : Mute) : Mute :=
  match mediaStream m with
  | Some tracks =>
      let newMuted := negb (isMuted m) in
      mkMute newMuted
             (Some (map (fun t => if isAudio t
                                  then mkTrack (kind t) (negb newMuted)
                                  else t)
                        tracks))
  | None => m
  end.

Definition sample_data : list byte := [x80; x00; xff; x90]%byte.

End ModalControls.

(* ------------------------------------------------------------------ *)
(** ** TimelineChart *)

Module TimelineChart.
Import Actions.
Local Open Scope Q_scope.

(** [parseFloat(x.toFixed(2))]: the nearest multiple of 0.01, the larger
    one of two equally near, on the absolute value. *)
Definition toFixed2 (x : Q) : Q :=
  if Qle_bool 0 x
  then inject_Z (Qfloor (x * 100 + (1 # 2))) / 100
  else - (inject_Z (Qfloor (- x * 100 + (1 # 2))) / 100).

Record Row : Type := mkRow
  { time : string; Valence : Q; Arousal : Q; Dominance : Q }.

Record Averages : Type := mkAverages
  { avgValence : Q; avgArousal : Q; avgDominance : Q }.

Section WithNumberFormat.

(** The conversion of a number inside a template literal. *)
Variable num : Q -> string.

Definition row (seg : ServerSegment) : Row :=
  mkRow (num (timeSec seg) ++ "s")
        (toFixed2 (valence seg)) (toFixed2 (arousal seg))
        (toFixed2 (dominance seg)).

(** [animatedSegments.map(...)]; reading a field of [undefined] throws,
    which is [None] here. *)
Fixpoint data (animatedSegments : list (option ServerSegment))
  : option (list Row) :=
  match animatedSegments with
  | [] => Some []
  | Some seg :: rest => option_map (cons (row seg)) (data rest)
  | None :: _ => None
  end.

(** [animatedSegments.reduce(...)] from the accumulator [acc]. *)
Fixpoint sumFrom (acc : Averages) (animatedSegments : list (option ServerSegment))
  : option Averages :=
  match animatedSegments with
  | [] => Some acc
  | Some seg :: rest =>
      sumFrom (mkAverages (avgValence acc + valence seg)
                          (avgArousal acc + arousal seg)
                          (avgDominance acc + dominance seg))
              rest
  | None :: _ => None
  end.

Definition averagesOf (total : nat) (sum : Averages) : Averages :=
  if Nat.ltb 0 total
  then mkAverages
         (toFixed2 (avgValence sum / inject_Z (Z.of_nat total)))
         (toFixed2 (avgArousal sum / inject_Z (Z.of_nat total)))
         (toFixed2 (avgDominance sum / inject_Z (Z.of_nat total)))
  else mkAverages 0 0 0.

(** What the component computes before it renders: the rows of the chart
    and the averages, or the exception. *)
Definition chart (animatedSegments : list (option ServerSegment))
  : option (list Row * Averages) :=
  match data animatedSegments with
  | None => None
  | Some rows =>
      match sumFrom (mkAverages 0 0 0) animatedSegments with
      | None => None
      | Some sum => Some (rows, averagesOf (List.length animatedSegments) sum)
      end
  end.

End WithNumberFormat.

(** The values of a segment lie in [0, 1]. *)
Definition unitSegment (seg : ServerSegment) : Prop :=
  (0 <= valence seg /\ valence seg <= 1)
  /\ (0 <= arousal seg /\ arousal seg <= 1)
  /\ (0 <= dominance seg /\ dominance seg <= 1).

Definition unitAverages (a : Averages) : Prop :=
  (0 <= avgValence a /\ avgValence a <= 1)
  /\ (0 <= avgArousal a /\ avgArousal a <= 1)
  /\ (0 <= avgDominance a /\ avgDominance a <= 1).

(** The mean of a list of numbers. *)
Definition mean (l : list Q) : Q :=
  fold_right Qplus 0 l / inject_Z (Z.of_nat (List.length l)).

(** [a] and [b] differ by at most half a hundredth. *)
Definition roundedFrom (a b : Q) : Prop :=
  b - (1 # 200) <= a /\ a <= b + (1 # 200).

End TimelineChart.

(* ------------------------------------------------------------------ *)
(** ** SpeakerWithWaves: the floating notes *)

Module SpeakerWithWaves.

Inductive IconType : Type := FaMusic | MdMusicNote.

Record MusicNoteData : Type := mkNote
  { id : string; angle : Q; color : string; type : IconType }.

(** [setMusicNotes((prev) => [...prev, newNote])] *)
Definition addNote (newNote : MusicNoteData) (prev : list MusicNoteData)
  : list MusicNoteData :=
  prev ++ [newNote].

(** [setMusicNotes((prev) => prev.filter((note) => note.id !== id))], the
    update made by the 3 s timer and by [onAnimationEnd]. *)
Definition removeNote (noteId : string) (prev : list MusicNoteData)
  : list MusicNoteData :=
  filter (fun note => negb (String.eqb (id note) noteId)) prev.

Definition sample_note : MusicNoteData :=
  mkNote "n1" 90 "text-red-500" FaMusic.

Definition sample_note2 : MusicNoteData :=
  mkNote "n2" 45 "text-blue-500" MdMusicNote.

End SpeakerWithWaves.

(* ------------------------------------------------------------------ *)
(** ** The random-walk page: genre and averages *)

Module SimulationView.
Import React Simulation.
Local Open Scope Q_scope.

Record GenrePrediction : Type := mkGenre { name : string; score : Q }.

(** [genres.reduce((max, g) => (g.score > max.score ? g : max), genres[0])],
    [null] on the empty list. *)
Definition topGenre (genres : list GenrePrediction) : option GenrePrediction :=
  match genres with
  | [] => None
  | g0 :: _ =>
      Some (fold_left (fun max g => if Qltb (score max) (score g) then g else max)
                      genres g0)
  end.

(** [calculateAverages]: no guard on the number of segments here. *)
Definition calculateAverages (segments : list SegmentSentiment)
  : TimelineChart.Averages :=
  let total := inject_Z (Z.of_nat (List.length segments)) in
  let sum :=
    fold_left (fun acc seg =>
                 TimelineChart.mkAverages
                   (TimelineChart.avgValence acc + value (valence seg))
                   (TimelineChart.avgArousal acc + value (arousal seg))
                   (TimelineChart.avgDominance acc + value (dominance seg)))
              segments (TimelineChart.mkAverages 0 0 0) in
  TimelineChart.mkAverages
    (TimelineChart.toFixed2 (TimelineChart.avgValence sum / total))
    (TimelineChart.toFixed2 (TimelineChart.avgArousal sum / total))
    (TimelineChart.toFixed2 (TimelineChart.avgDominance sum / total)).

(** The number of locked segments. *)
Definition lockedCount (segments : list SegmentSentiment) : nat :=
  List.length (filter locked segments).

(** [updateSentiment] applied on [k] successive frames. *)
Fixpoint updateSentiment_frames (k : nat) (s : Sentiment) : Random.Rand Sentiment :=
  match k with
  | O => Random.ret s
  | S k' => Random.bind (updateSentiment s) (updateSentiment_frames k')
  end.

(** Frames and locking ticks as the timers produce them.  The ticks are
    numbered from 0; the counter of [startProcessing] holds [i] when tick
    [i] is made.  Before tick [i] come [framesBefore i] animation frames,
    and the function of tick [i] is run as [runs i] says. *)
Fixpoint processingTrace (framesBefore : nat -> nat) (runs : nat -> UpdaterRun)
         (ticks : nat) : list SimEvent :=
  match ticks with
  | O => []
  | S i => processingTrace framesBefore runs i
             ++ repeat Frame (framesBefore i) ++ [lockTick (runs i) i]
  end.


(** The number of ticks of the locking interval among some events. *)
Definition isLockTick (ev : SimEvent) : bool :=
  match ev with LockTick _ => true | Frame => false end.

Fixpoint ticksIn (evs : list SimEvent) : nat :=
  match evs with
  | [] => 0%nat
  | ev :: evs' => ((if isLockTick ev then 1 else 0) + ticksIn evs')%nat
  end.

Definition sample_genres : list GenrePrediction :=
  [mkGenre "Pop" 0.25; mkGenre "Rock" 0.75; mkGenre "Jazz" 0.75]%string.

End SimulationView.

(* ------------------------------------------------------------------ *)
(** ** app/page.tsx: what the page shows *)

Module PageView.
Import Page.

(** A value used as a condition: [null] and the empty string are falsy. *)
Definition truthy (v : option string) : bool :=
  match v with
  | Some (String _ _) => true
  | _ => false
  end.

Record MusicPlayerProps : Type := mkProps
  { audioUrl : option string;
    propSongName : string;
    propArtistName : string;
    autoPlay : bool }.

(** [renderMusicPlayer]; [None] is the [null] it returns without a URL. *)
Definition renderMusicPlayer (s : State) : option MusicPlayerProps :=
  let audioUrl :=
    if truthy (recordedAudioUrl s) then recordedAudioUrl s
    else uploadedAudioUrl s in
  if negb (truthy audioUrl) then None
  else Some (mkProps audioUrl (songName s) (artistName s)
                     (stage_eqb (stage s) processing)).

(** The error as the page shows it: [AudioUploadControls], the only
    component given [error], is rendered in stage idle only. *)
Definition errorShown (s : State) : option string :=
  if stage_eqb (stage s) idle then error s else None.

(** Events of a session in which nothing is recorded. *)
Definition noRecording (ev : Event) : bool :=
  match ev with
  | RecordingComplete _ | InlineRecorderStopped _ _ => false
  | _ => true
  end.

(** A recording made in the modal whose analysis does not succeed. *)
Definition failedRecording (url : string) (blob : Blob) (t : Actions.Transport)
  : list Event :=
  [ RecordClicked; RecordingComplete url; FetchSettled 0 (Some blob);
    AnalysisSettled 0 t ].

(** The events that can still act on a page that waits for nothing: the
    reset button, and the inline recorder, which no control starts. *)
Definition wakes (ev : Event) : bool :=
  match ev with
  | ResetClicked | InlineRecorderStopped _ _ => true
  | _ => false
  end.

End PageView.

(* ------------------------------------------------------------------ *)
(** ** utils/sentimentHelpers.ts: colours *)

Module Colours.
Local Open Scope string_scope.

(** The argument type of [getRGB] and [getStrokeColor]; their [default]
    branch is for no value of this type. *)
Inductive SentimentName : Type := valence | arousal | dominance.

Definition getRGB (sentiment : SentimentName) : string :=
  match sentiment with
  | valence => "136, 132, 216"
  | arousal => "130, 202, 157"
  | dominance => "255, 198, 88"
  end.

Definition getStrokeColor (sentiment : SentimentName) : string :=
  match sentiment with
  | valence => "#8884d8"
  | arousal => "#82ca9d"
  | dominance => "#ffc658"
  end.

(** The [stroke] of the line of each sentiment in [TimelineChart]. *)
Definition lineStroke (sentiment : SentimentName) : string :=
  match sentiment with
  | valence => "#8884d8"
  | arousal => "#82ca9d"
  | dominance => "#ffc658"
  end.

(** *** Notations of a colour, to compare the two functions *)

Definition hexDigit (n : nat) : ascii :=
  nth n ["0"; "1"; "2"; "3"; "4"; "5"; "6"; "7"; "8"; "9";
         "a"; "b"; "c"; "d"; "e"; "f"]%char "0"%char.

(** A channel as two hexadecimal digits. *)
Definition hexChannel (n : nat) : string :=
  String (hexDigit (n / 16)) (String (hexDigit (n mod 16)) "").

(** [#rrggbb] *)
Definition hexColour (r g b : nat) : string :=
  "#" ++ hexChannel r ++ hexChannel g ++ hexChannel b.

Definition decimal (n : nat) : string := NilZero.string_of_uint (Nat.to_uint n).

(** The channels as they stand inside [rgba(...)]. *)
Definition rgbChannels (r g b : nat) : string :=
  decimal r ++ ", " ++ decimal g ++ ", " ++ decimal b.

End Colours.

(* ================================================================== *)
(** * Properties *)

(* ------------------------------------------------------------------ *)
(** ** The update rule of the animation *)

Section UpdateRule.
Import Random Simulation.
Local Open Scope Q_scope.

Lemma Qltb_lt (a b : Q) : Qltb a b = true <-> a < b.
Proof.
  unfold Qltb. rewrite negb_true_iff.
  split; intro H.
  - apply Qnot_le_lt. intro Hle. apply Qle_bool_iff in Hle. congruence.
  - apply not_true_iff_false. intro Hle. apply Qle_bool_iff in Hle. lra.
Qed.

Lemma Qltb_ge (a b : Q) : Qltb a b = false <-> b <= a.
Proof.
  unfold Qltb. rewrite negb_false_iff. apply Qle_bool_iff.
Qed.

Lemma Qleb_le (a b : Q) : Qleb a b = true <-> a <= b.
Proof. apply Qle_bool_iff. Qed.

Lemma Qleb_gt (a b : Q) : Qleb a b = false <-> b < a.
Proof.
  unfold Qleb. split; intro H.
  - apply Qnot_le_lt. intro Hle. apply Qle_bool_iff in Hle. congruence.
  - apply not_true_iff_false. intro Hle. apply Qle_bool_iff in Hle. lra.
Qed.

Lemma Qeqb_neq (a b : Q) : Qeq_bool a b = false <-> ~ a == b.
Proof.
  split; intro H.
  - now apply Qeq_bool_neq.
  - apply not_true_iff_false. intro E. apply Qeq_bool_iff in E. contradiction.
Qed.

Lemma updateSentiment_cases (src : Source) (n : nat) (s : Sentiment) :
  UpdateCase src n s (updateSentiment s src n).
Proof.
  unfold updateSentiment.
  destruct (Qltb (value s) (target s)) eqn:Hlt.
  - apply Qltb_lt in Hlt.
    destruct (Qleb (target s) (value s + speed s)) eqn:Hge.
    + apply Qleb_le in Hge. rewrite Qeq_bool_refl.
      apply UpArrived. left. split; assumption.
    + apply Qleb_gt in Hge.
      assert (Hne : ~ value s + speed s == target s) by lra.
      apply Qeqb_neq in Hne. rewrite Hne.
      apply UpRising; trivial. lra.
  - apply Qltb_ge in Hlt.
    destruct (Qltb (target s) (value s)) eqn:Hgt.
    + apply Qltb_lt in Hgt.
      destruct (Qleb (value s - speed s) (target s)) eqn:Hle.
      * apply Qleb_le in Hle. rewrite Qeq_bool_refl.
        apply UpArrived. right. split; assumption.
      * apply Qleb_gt in Hle.
        assert (Hne : ~ value s - speed s == target s) by lra.
        apply Qeqb_neq in Hne. rewrite Hne.
        apply UpFalling; trivial. lra.
    + apply Qltb_ge in Hgt.
      assert (Heq : value s == target s) by lra.
      apply Qeq_bool_iff in Heq. rewrite Heq.
      apply UpResting. now apply Qeq_bool_iff.
Qed.

End UpdateRule.

Section UpdateRuleClaim.
Import Random Simulation.
Local Open Scope Q_scope.



End UpdateRuleClaim.

(* ------------------------------------------------------------------ *)
(** ** The unit interval is kept by the simulation *)

Section UnitInterval.
Import Random Simulation.
Local Open Scope Q_scope.

Variable src : Source.
Hypothesis Hsrc : unit_source src.

Lemma drawn_in_unit (n : nat) : in_unit (src n).
Proof. destruct (Hsrc n). split; lra. Qed.

Lemma drawn_speed_nonneg (n : nat) : 0 <= src n * 0.005 + 0.002.
Proof. destruct (Hsrc n). lra. Qed.

Lemma redrawn_ok (n : nat) (v : Q) : in_unit v -> sentiment_ok (redrawn src n v).
Proof.
  intro Hv. unfold sentiment_ok, redrawn; cbn [value target speed].
  repeat split; try apply Hv; try apply drawn_in_unit.
  apply drawn_speed_nonneg.
Qed.

Lemma initSentiment_ok (n : nat) : sentiment_ok (fst (initSentiment src n)).
Proof.
  cbn. unfold sentiment_ok; cbn [value target speed].
  repeat split; try apply drawn_in_unit. apply drawn_speed_nonneg.
Qed.

Lemma initSegment_ok (i n : nat) : segment_ok (fst (initSegment i src n)).
Proof.
  cbn. unfold segment_ok; cbn [valence arousal dominance].
  pose proof (initSentiment_ok n) as H1.
  pose proof (initSentiment_ok (S (S (S n)))) as H2.
  pose proof (initSentiment_ok (S (S (S (S (S (S n))))))) as H3.
  cbn in H1, H2, H3. auto.
Qed.

Lemma updateSentiment_ok (s : Sentiment) (n : nat) :
  sentiment_ok s -> sentiment_ok (fst (updateSentiment s src n)).
Proof.
  intros (Hv & Ht & Hs).
  destruct (updateSentiment_cases src n s); cbn [fst].
  - unfold sentiment_ok, in_unit in *; cbn [value target speed]. lra.
  - unfold sentiment_ok, in_unit in *; cbn [value target speed]. lra.
  - now apply redrawn_ok.
  - now apply redrawn_ok.
Qed.

Lemma updateSentiment_between (s : Sentiment) :
  0 <= speed s -> stepsBetween src s.
Proof.
  intros Hs n. unfold between.
  destruct (updateSentiment_cases src n s) as [? ? ?|? ? ?|[[? ?]|[? ?]]|?];
    cbn [fst value redrawn]; lra.
Qed.

Lemma animateSegment_ok (seg : SegmentSentiment) (n : nat) :
  segment_ok seg -> segment_ok (fst (animateSegment seg src n)).
Proof.
  intros (Hv & Ha & Hd). unfold animateSegment.
  destruct (locked seg).
  - cbn. repeat split; first [apply Hv | apply Ha | apply Hd].
  - unfold bind, ret.
    destruct (updateSentiment (valence seg) src n) as [v n1] eqn:E1.
    destruct (updateSentiment (arousal seg) src n1) as [a n2] eqn:E2.
    destruct (updateSentiment (dominance seg) src n2) as [d n3] eqn:E3.
    cbn [fst]. unfold segment_ok; cbn [valence arousal dominance].
    pose proof (updateSentiment_ok (valence seg) n Hv) as H1.
    pose proof (updateSentiment_ok (arousal seg) n1 Ha) as H2.
    pose proof (updateSentiment_ok (dominance seg) n2 Hd) as H3.
    rewrite E1 in H1. rewrite E2 in H2. rewrite E3 in H3. auto.
Qed.

(** [mapM] carries a property of the elements to the results. *)
Lemma mapM_Forall {A B} (f : A -> Rand B) (P : A -> Prop) (R : B -> Prop) :
  (forall a n, P a -> R (fst (f a src n))) ->
  forall l n, Forall P l -> Forall R (fst (mapM f l src n)).
Proof.
  intros Hf l. induction l as [|a l IH]; intros n Hl.
  - constructor.
  - inversion Hl as [|? ? Ha Hl']; subst.
    cbn [mapM]. unfold bind, ret.
    destruct (f a src n) as [b n1] eqn:E1.
    destruct (mapM f l src n1) as [bs n2] eqn:E2.
    cbn [fst]. constructor.
    + specialize (Hf a n Ha). now rewrite E1 in Hf.
    + specialize (IH n1 Hl'). now rewrite E2 in IH.
Qed.

Lemma initSegments_ok : Forall segment_ok (segments (simInit src)).
Proof.
  unfold simInit.
  pose proof (mapM_Forall initSegment (fun _ => True) segment_ok
                (fun i n _ => initSegment_ok i n)
                (seq 0 totalSegments) 0%nat) as H.
  unfold initSegments.
  destruct (mapM initSegment (seq 0 totalSegments) src 0%nat) as [segs n].
  cbn [segments]. apply H. apply Forall_forall. trivial.
Qed.

Lemma lockSegment_ok (seg : SegmentSentiment) :
  segment_ok seg -> segment_ok (lockSegment seg).
Proof.
  unfold segment_ok, sentiment_ok, in_unit, lockSegment, lockSentiment.
  cbn [valence arousal dominance value target speed]. intros. lra.
Qed.

Lemma mapi_from_Forall {A} (P : A -> Prop) (f : A -> nat -> A) :
  (forall a i, P a -> P (f a i)) ->
  forall l i, Forall P l -> Forall P (mapi_from i f l).
Proof.
  intros Hf l. induction l as [|a l IH]; intros i Hl; cbn [mapi_from].
  - constructor.
  - inversion Hl; subst. constructor; auto.
Qed.

Lemma lockAt_ok (idx : nat) (segs : list SegmentSentiment) :
  Forall segment_ok segs -> Forall segment_ok (lockAt idx segs).
Proof.
  apply mapi_from_Forall. intros seg i Hseg.
  destruct (Nat.eqb i idx); auto using lockSegment_ok.
Qed.

Lemma simStep_ok (ev : SimEvent) (st : Sim) :
  Forall segment_ok (segments st) ->
  Forall segment_ok (segments (simStep src ev st)).
Proof.
  intro H. destruct ev as [|idx]; cbn [simStep].
  - pose proof (mapM_Forall animateSegment segment_ok segment_ok
                  animateSegment_ok (segments st) (draws st) H) as Hm.
    unfold animate.
    destruct (mapM animateSegment (segments st) src (draws st)) as [segs n].
    exact Hm.
  - cbn [segments]. now apply lockAt_ok.
Qed.

Lemma simRun_ok (evs : list SimEvent) :
  forall st, Forall segment_ok (segments st) ->
             Forall segment_ok (segments (simRun src evs st)).
Proof.
  induction evs as [|ev evs IH]; intros st H; cbn [simRun].
  - exact H.
  - apply IH. now apply simStep_ok.
Qed.

Lemma segment_ok_values (seg : SegmentSentiment) :
  segment_ok seg -> values_in_unit seg.
Proof.
  intros ((Hv & _) & (Ha & _) & (Hd & _)). unfold values_in_unit. auto.
Qed.

Lemma segment_ok_between (seg : SegmentSentiment) :
  segment_ok seg -> segmentStepsBetween src seg.
Proof.
  intros ((_ & _ & Hv) & (_ & _ & Ha) & (_ & _ & Hd)).
  repeat split; now apply updateSentiment_between.
Qed.

End UnitInterval.

Section UnitIntervalClaim.
Import Random Simulation.
Local Open Scope Q_scope.

(** C6.  With every draw of [Math.random()] in [0, 1): in every state the
    simulation reaches from its initial segments, by animation frames and
    locking ticks in any order, the valence, arousal and dominance values
    of every segment lie in [0, 1], and the next animation step on any of
    them gives a value between the old value and the target. *)
Theorem random_walk_values_stay_in_unit_interval
        (src : Source) (Hsrc : unit_source src) (evs : list SimEvent) :
  Forall values_in_unit (segments (simRun src evs (simInit src)))
  /\ Forall (segmentStepsBetween src)
            (segments (simRun src evs (simInit src))).
Proof.
  pose proof (simRun_ok src Hsrc evs (simInit src) (initSegments_ok src Hsrc))
    as Hok.
  split.
  - eapply Forall_impl; [|exact Hok]. apply segment_ok_values.
  - eapply Forall_impl; [|exact Hok]. apply segment_ok_between; assumption.
Qed.

Lemma sample_source_unit : unit_source sample_source.
Proof.
  intro n. unfold sample_source.
  assert (Hm : (n mod 7 < 7)%nat) by (apply Nat.mod_upper_bound; lia).
  unfold Qle, Qlt; cbn [Qnum Qden]. lia.
Defined.

Lemma random_walk_values_stay_in_unit_interval_witness :
  Forall values_in_unit
         (segments (simRun sample_source [Frame; LockTick 0; Frame]
                           (simInit sample_source))).
Proof.
  exact (proj1 (random_walk_values_stay_in_unit_interval
                  sample_source sample_source_unit
                  [Frame; LockTick 0%nat; Frame])).
Defined.

End UnitIntervalClaim.

(* ------------------------------------------------------------------ *)
(** ** Locked segments *)

Section LockedSegments.
Import Random Simulation.
Local Open Scope Q_scope.

Lemma nth_error_mapi_from {A B} (f : A -> nat -> B) (l : list A) :
  forall i k, nth_error (mapi_from k f l) i
              = option_map (fun a => f a (k + i)%nat) (nth_error l i).
Proof.
  induction l as [|a l IH]; intros i k.
  - destruct i; reflexivity.
  - destruct i as [|i]; cbn [mapi_from nth_error option_map].
    + now rewrite Nat.add_0_r.
    + rewrite IH. now rewrite Nat.add_succ_r.
Qed.

(** A tick with index [idx] locks the segment at [idx] and keeps the
    others. *)
Lemma nth_error_lockAt (idx i : nat) (segs : list SegmentSentiment) :
  nth_error (lockAt idx segs) i
  = if Nat.eqb i idx then option_map lockSegment (nth_error segs i)
    else nth_error segs i.
Proof.
  unfold lockAt. rewrite nth_error_mapi_from. cbn [Nat.add].
  destruct (Nat.eqb i idx); destruct (nth_error segs i); reflexivity.
Qed.

Lemma lockSegment_idempotent (seg : SegmentSentiment) :
  lockSegment (lockSegment seg) = lockSegment seg.
Proof. reflexivity. Qed.

Lemma animateSegment_locked (src : Source) (seg : SegmentSentiment) (n : nat) :
  locked seg = true -> animateSegment seg src n = (seg, n).
Proof. intro H. unfold animateSegment. now rewrite H. Qed.

Lemma nth_error_mapM {A B} (src : Source) (f : A -> Rand B) (l : list A) :
  forall i n a,
    nth_error l i = Some a ->
    exists m, nth_error (fst (mapM f l src n)) i = Some (fst (f a src m)).
Proof.
  induction l as [|x l IH]; intros i n a Hi.
  - destruct i; discriminate.
  - cbn [mapM]. unfold bind, ret.
    destruct (f x src n) as [b n1] eqn:E1.
    destruct (mapM f l src n1) as [bs n2] eqn:E2.
    destruct i as [|i]; cbn [nth_error fst] in *.
    + injection Hi as <-. exists n. now rewrite E1.
    + destruct (IH i n1 a Hi) as [m Hm]. exists m.
      now rewrite E2 in Hm.
Qed.

(** A frame returns a locked segment as it was. *)
Lemma animate_locked (src : Source) (segs : list SegmentSentiment)
      (n i : nat) (seg : SegmentSentiment) :
  nth_error segs i = Some seg -> locked seg = true ->
  nth_error (fst (animate segs src n)) i = Some seg.
Proof.
  intros Hi Hl. unfold animate.
  destruct (nth_error_mapM src animateSegment segs i n seg Hi) as [m Hm].
  rewrite Hm. now rewrite animateSegment_locked.
Qed.

Lemma simStep_frozen (src : Source) (ev : SimEvent) (st : Sim)
      (i : nat) (seg : SegmentSentiment) :
  nth_error (segments st) i = Some (lockSegment seg) ->
  nth_error (segments (simStep src ev st)) i = Some (lockSegment seg).
Proof.
  intro Hi. destruct ev as [|idx]; cbn [simStep].
  - pose proof (animate_locked src (segments st) (draws st) i
                  (lockSegment seg) Hi eq_refl) as H.
    destruct (animate (segments st) src (draws st)) as [segs n].
    exact H.
  - cbn [segments]. rewrite nth_error_lockAt, Hi.
    destruct (Nat.eqb i idx); reflexivity.
Qed.

Lemma simRun_frozen (src : Source) (evs : list SimEvent) :
  forall (st : Sim) (i : nat) (seg : SegmentSentiment),
    nth_error (segments st) i = Some (lockSegment seg) ->
    nth_error (segments (simRun src evs st)) i = Some (lockSegment seg).
Proof.
  induction evs as [|ev evs IH]; intros st i seg Hi; cbn [simRun].
  - exact Hi.
  - apply IH. now apply simStep_frozen.
Qed.

End LockedSegments.

Section SimulationShape.
Import Random React Simulation SimulationView.
Local Open Scope nat_scope.

Lemma length_mapM {A B} (src : Source) (f : A -> Rand B) (l : list A) :
  forall n, List.length (fst (mapM f l src n)) = List.length l.
Proof.
  induction l as [|a l IH]; intro n; cbn [mapM]; [reflexivity|].
  unfold bind, ret.
  destruct (f a src n) as [b n1].
  specialize (IH n1). destruct (mapM f l src n1) as [bs n2].
  cbn [fst List.length] in *. now rewrite IH.
Qed.

Lemma length_mapi_from {A B} (f : A -> nat -> B) (l : list A) :
  forall i, List.length (mapi_from i f l) = List.length l.
Proof.
  induction l as [|a l IH]; intro i; cbn [mapi_from List.length];
    [reflexivity | now rewrite IH].
Qed.

Lemma animateSegment_shape (src : Source) (seg : SegmentSentiment) (n : nat) :
  timeSec (fst (animateSegment seg src n)) = timeSec seg
  /\ locked (fst (animateSegment seg src n)) = locked seg.
Proof.
  unfold animateSegment. destruct (locked seg) eqn:E.
  - cbn. now rewrite E.
  - unfold bind, ret.
    destruct (updateSentiment (valence seg) src n) as [v n1].
    destruct (updateSentiment (arousal seg) src n1) as [a n2].
    destruct (updateSentiment (dominance seg) src n2) as [d n3].
    cbn. auto.
Qed.

(** One event keeps the number of segments and the time of each, and locks
    segment [i] exactly when it is the tick with index [i]. *)
Lemma simStep_shape (src : Source) (ev : SimEvent) (st : Sim) :
  List.length (segments (simStep src ev st)) = List.length (segments st)
  /\ forall i seg,
      nth_error (segments st) i = Some seg ->
      exists seg',
        nth_error (segments (simStep src ev st)) i = Some seg'
        /\ timeSec seg' = timeSec seg
        /\ (locked seg' = true <-> locked seg = true \/ ev = LockTick i).
Proof.
  destruct ev as [|idx]; cbn [simStep].
  - pose proof (length_mapM src animateSegment (segments st) (draws st)) as Hl.
    pose proof (fun i seg => nth_error_mapM src animateSegment (segments st)
                               i (draws st) seg) as Hn.
    unfold animate.
    destruct (mapM animateSegment (segments st) src (draws st)) as [segs n].
    cbn [fst segments] in *. split; [exact Hl|].
    intros i seg Hi. destruct (Hn i seg Hi) as [m Hm].
    eexists. split; [exact Hm|].
    destruct (animateSegment_shape src seg m) as [Ht Hk].
    split; [exact Ht|]. rewrite Hk. split; [now left|].
    intros [H|H]; [exact H | discriminate].
  - cbn [segments]. split; [apply length_mapi_from|].
    intros i seg Hi. rewrite nth_error_lockAt, Hi.
    destruct (Nat.eqb_spec i idx) as [->|Hne]; cbn [option_map].
    + eexists. split; [reflexivity|]. split; [reflexivity|].
      split; [now right | reflexivity].
    + eexists. split; [reflexivity|]. split; [reflexivity|].
      split; [now left|]. intros [H|H]; [exact H|].
      injection H as H. congruence.
Qed.

Lemma simRun_shape (src : Source) (evs : list SimEvent) :
  forall st,
    List.length (segments (simRun src evs st)) = List.length (segments st)
    /\ forall i seg,
        nth_error (segments st) i = Some seg ->
        exists seg',
          nth_error (segments (simRun src evs st)) i = Some seg'
          /\ timeSec seg' = timeSec seg
          /\ (locked seg' = true <-> locked seg = true \/ In (LockTick i) evs).
Proof.
  induction evs as [|ev evs IH]; intro st; cbn [simRun].
  - split; [reflexivity|]. intros i seg Hi. exists seg.
    split; [exact Hi|]. split; [reflexivity|].
    split; [now left|]. intros [H|[]]. exact H.
  - destruct (simStep_shape src ev st) as [Hl Hs].
    destruct (IH (simStep src ev st)) as [Hl' Hs'].
    split; [congruence|].
    intros i seg Hi.
    destruct (Hs i seg Hi) as (seg1 & H1 & Ht1 & Hk1).
    destruct (Hs' i seg1 H1) as (seg2 & H2 & Ht2 & Hk2).
    exists seg2. split; [exact H2|]. split; [congruence|].
    rewrite Hk2, Hk1. cbn [In]. split.
    + intros [[H|H]|H]; auto.
    + intros [H|[H|H]]; auto.
Qed.

(** The segments the page starts with: twelve, five seconds apart, none
    locked. *)
Lemma simInit_shape (src : Source) :
  List.length (segments (simInit src)) = totalSegments
  /\ forall i seg,
      nth_error (segments (simInit src)) i = Some seg ->
      timeSec seg = (inject_Z (Z.of_nat i) * 5)%Q /\ locked seg = false.
Proof.
  unfold simInit, initSegments.
  pose proof (length_mapM src initSegment (seq 0 totalSegments) 0) as Hl.
  pose proof (fun i a => nth_error_mapM src initSegment (seq 0 totalSegments)
                           i 0 a) as Hn.
  destruct (mapM initSegment (seq 0 totalSegments) src 0) as [segs n].
  cbn [fst segments] in *. rewrite length_seq in Hl. split; [exact Hl|].
  intros i seg Hi.
  assert (Hlt : i < totalSegments).
  { rewrite <- Hl. apply nth_error_Some. congruence. }
  destruct (Hn i i) as [m Hm].
  { rewrite nth_error_seq.
    replace (Nat.ltb i totalSegments) with true
      by (symmetry; now apply Nat.ltb_lt).
    reflexivity. }
  rewrite Hm in Hi. injection Hi as <-. cbn. auto.
Qed.

Lemma locked_prefix_count (l : list SegmentSentiment) :
  forall k,
    k <= List.length l ->
    (forall i seg, nth_error l i = Some seg -> (locked seg = true <-> i < k)) ->
    lockedCount l = k.
Proof.
  unfold lockedCount.
  induction l as [|a l IH]; intros k Hk Hall.
  - cbn in *. lia.
  - cbn [filter]. destruct k as [|k].
    + destruct (locked a) eqn:E.
      * apply (Hall 0 a eq_refl) in E. lia.
      * apply (IH 0); [lia|].
        intros i seg Hi. split; [|lia].
        intro H. apply (Hall (S i) seg Hi) in H. lia.
    + assert (E : locked a = true) by (apply (Hall 0 a eq_refl); lia).
      rewrite E. cbn [List.length]. f_equal.
      apply IH; [cbn in Hk; lia|].
      intros i seg Hi. rewrite (Hall (S i) seg Hi). lia.
Qed.

Lemma locked_from_1_count (l : list SegmentSentiment) (k : nat) :
  k < List.length l ->
  (forall i seg, nth_error l i = Some seg ->
                 (locked seg = true <-> 1 <= i <= k)) ->
  lockedCount l = k.
Proof.
  intros Hk Hall. destruct l as [|a rest]; [cbn in Hk; lia|].
  assert (H0 : locked a = false).
  { destruct (locked a) eqn:E0; [|reflexivity].
    apply (Hall 0 a eq_refl) in E0. lia. }
  unfold lockedCount. cbn [filter]. rewrite H0.
  apply locked_prefix_count; [cbn [List.length] in Hk; lia|].
  intros i seg Hi. rewrite (Hall (S i) seg Hi). lia.
Qed.

Lemma In_processingTrace (framesBefore : nat -> nat) (runs : nat -> UpdaterRun)
      (k i : nat) :
  In (LockTick i) (processingTrace framesBefore runs k)
  <-> exists j, j < k /\ seenIndex (runs j) j = i.
Proof.
  induction k as [|k IH]; cbn [processingTrace].
  - split; [intros [] | intros (j & Hj & _); lia].
  - rewrite !in_app_iff, IH. cbn [In]. unfold lockTick. split.
    + intros [(j & Hj & Hs)|[H|[H|[]]]].
      * exists j. split; [lia | exact Hs].
      * apply repeat_spec in H. discriminate.
      * injection H as H. exists k. split; [lia | exact H].
    + intros (j & Hj & Hs). destruct (Nat.eq_dec j k) as [->|Hne].
      * right. right. left. now rewrite Hs.
      * left. exists j. split; [lia | exact Hs].
Qed.

Lemma In_processingTrace_atCall (framesBefore : nat -> nat) (k i : nat) :
  In (LockTick i) (processingTrace framesBefore allAtCall k) <-> i < k.
Proof.
  rewrite In_processingTrace. unfold allAtCall. cbn [seenIndex]. split.
  - intros (j & Hj & <-). exact Hj.
  - intro H. exists i. auto.
Qed.

Lemma In_processingTrace_atRender (framesBefore : nat -> nat) (k i : nat) :
  In (LockTick i) (processingTrace framesBefore allAtRender k)
  <-> 1 <= i <= k.
Proof.
  rewrite In_processingTrace. unfold allAtRender. cbn [seenIndex]. split.
  - intros (j & Hj & <-). lia.
  - intros [H1 Hk]. exists (i - 1). split; lia.
Qed.

(** A tick whose function reads an index outside the list changes nothing. *)
Lemma lockAt_outside (idx : nat) (segs : list SegmentSentiment) :
  List.length segs <= idx -> lockAt idx segs = segs.
Proof.
  intro H. apply nth_error_ext. intro i. rewrite nth_error_lockAt.
  destruct (Nat.eqb_spec i idx) as [->|Hne]; [|reflexivity].
  assert (E : nth_error segs idx = None) by now apply nth_error_None.
  rewrite E. reflexivity.
Qed.

(** The locks after a run from the first state of the page. *)
Lemma locks_after_run (src : Source) (evs : list SimEvent) :
  List.length (segments (simRun src evs (simInit src))) = totalSegments
  /\ forall i seg,
      nth_error (segments (simRun src evs (simInit src))) i = Some seg ->
      (locked seg = true <-> In (LockTick i) evs).
Proof.
  destruct (simInit_shape src) as [Hl0 Hs0].
  destruct (simRun_shape src evs (simInit src)) as [Hl Hs].
  split; [congruence|].
  intros i seg Hi.
  assert (Hlt : i < List.length (segments (simInit src))).
  { rewrite <- Hl. apply nth_error_Some. congruence. }
  destruct (nth_error (segments (simInit src)) i) as [seg0|] eqn:E0.
  2:{ apply nth_error_None in E0. lia. }
  destruct (Hs0 i seg0 E0) as [_ Hk0].
  destruct (Hs i seg0 E0) as (seg' & H' & _ & Hk).
  rewrite H' in Hi. injection Hi as <-.
  rewrite Hk, Hk0. split.
  - intros [H|H]; [discriminate | exact H].
  - intro H. now right.
Qed.

End SimulationShape.

Section LockedSegmentsClaim.
Import Random React Simulation SimulationView.
Local Open Scope Q_scope.

(** C9.  What holds: the tick whose function reads index [i] marks segment
    [i] locked, with every target set to the current value and every speed
    to 0 and the values and [timeSec] as they were; an animation frame
    returns a locked segment unchanged; and from then on, whatever frames
    and ticks follow, segment [i] stays exactly that segment.
    What does not: the ticks do not lock the segments one per tick from
    the first on.  The function given to [setSegments] reads [currentIdx]
    when React runs it; run in the render after the tick it reads the
    counter already incremented, so tick i locks segment i + 1.  After the
    twelve ticks of [startProcessing], whatever frames come in between,
    segment 0 is still unlocked, segments 1 .. 11 are locked, and the
    twelfth tick has changed nothing.  Only with every function run at the
    call are all twelve locked. *)
Theorem startProcessing_leaves_segment_0_unlocked
        (src : Source) (framesBefore : nat -> nat) :
  (forall (st : Sim) (i : nat) (seg : SegmentSentiment),
      nth_error (segments st) i = Some seg ->
      let st' := simStep src (LockTick i) st in
      nth_error (segments st') i = Some (lockSegment seg)
      /\ locked (lockSegment seg) = true
      /\ timeSec (lockSegment seg) = timeSec seg
      /\ (forall dim, In dim [valence; arousal; dominance] ->
            value (dim (lockSegment seg)) = value (dim seg)
            /\ target (dim (lockSegment seg)) = value (dim seg)
            /\ speed (dim (lockSegment seg)) = 0)
      /\ (forall n, animateSegment (lockSegment seg) src n = (lockSegment seg, n))
      /\ (forall evs,
            nth_error (segments (simRun src evs st')) i = Some (lockSegment seg)))
  /\ (let final :=
        segments (simRun src (processingTrace framesBefore allAtRender
                                              totalSegments)
                         (simInit src)) in
      List.length final = totalSegments
      /\ (exists seg0, nth_error final 0 = Some seg0 /\ locked seg0 = false)
      /\ (forall i seg, nth_error final i = Some seg ->
                        (locked seg = true <-> (1 <= i)%nat)))
  /\ (forall st, List.length (segments st) = totalSegments ->
                 simStep src (lockTick AtRender 11) st = st)
  /\ (forall i seg,
        nth_error
          (segments (simRun src (processingTrace framesBefore allAtCall
                                                 totalSegments)
                            (simInit src))) i = Some seg ->
        locked seg = true).
Proof.
  split; [|split; [|split]].
  - intros st i seg Hseg st'.
    assert (Hst' : nth_error (segments st') i = Some (lockSegment seg)).
    { subst st'. cbn [simStep segments].
      rewrite nth_error_lockAt, Nat.eqb_refl, Hseg. reflexivity. }
    split; [exact Hst'|].
    split; [reflexivity|].
    split; [reflexivity|].
    split.
    + intros dim [<-|[<-|[<-|[]]]]; repeat split; reflexivity.
    + split.
      * intro n. now apply animateSegment_locked.
      * intro evs. now apply simRun_frozen.
  - intro final. subst final.
    destruct (locks_after_run src (processingTrace framesBefore allAtRender
                                                   totalSegments))
      as [Hl Hk].
    assert (Hall : forall i seg,
               nth_error
                 (segments (simRun src (processingTrace framesBefore allAtRender
                                                        totalSegments)
                                   (simInit src))) i = Some seg ->
               (locked seg = true <-> (1 <= i)%nat)).
    { intros i seg Hi. rewrite (Hk i seg Hi), In_processingTrace_atRender.
      assert (Hlt : (i < totalSegments)%nat).
      { rewrite <- Hl. apply nth_error_Some. congruence. }
      unfold totalSegments in *. lia. }
    split; [exact Hl|]. split; [|exact Hall].
    destruct (nth_error
                (segments (simRun src (processingTrace framesBefore allAtRender
                                                       totalSegments)
                                  (simInit src))) 0) as [seg0|] eqn:E0.
    + exists seg0. split; [reflexivity|].
      destruct (locked seg0) eqn:El; [|reflexivity].
      apply (Hall 0%nat seg0 E0) in El. lia.
    + apply nth_error_None in E0. rewrite Hl in E0.
      unfold totalSegments in E0. lia.
  - intros st Hlen. destruct st as [segs n]. cbn [segments] in Hlen.
    unfold lockTick. cbn [seenIndex simStep segments draws].
    rewrite lockAt_outside; [reflexivity|].
    rewrite Hlen. unfold totalSegments. lia.
  - intros i seg Hi.
    destruct (locks_after_run src (processingTrace framesBefore allAtCall
                                                   totalSegments))
      as [Hl Hk].
    apply (Hk i seg Hi). apply In_processingTrace_atCall.
    rewrite <- Hl. apply nth_error_Some. congruence.
Qed.

Lemma startProcessing_leaves_segment_0_unlocked_witness :
  exists seg0,
    nth_error
      (segments (simRun sample_source
                        (processingTrace (fun _ => 2%nat) allAtRender
                                         totalSegments)
                        (simInit sample_source))) 0 = Some seg0
    /\ locked seg0 = false.
Proof.
  exact (proj1 (proj2 (proj1 (proj2
           (startProcessing_leaves_segment_0_unlocked
              sample_source (fun _ => 2%nat)))))).
Defined.

End LockedSegmentsClaim.

(* ------------------------------------------------------------------ *)
(** ** generateSmoothPath *)

Section SmoothPath.
Import Helpers.
Local Open Scope string_scope.

Lemma append_assoc (a b c : string) : (a ++ b) ++ c = a ++ (b ++ c).
Proof. induction a as [|ch a IH]; cbn; [reflexivity | now rewrite IH]. Qed.

Lemma occurrences_app (c : ascii) (a b : string) :
  occurrences c (a ++ b) = (occurrences c a + occurrences c b)%nat.
Proof.
  induction a as [|ch a IH]; cbn; [reflexivity | rewrite IH; lia].
Qed.

Lemma prefix_app (a b : string) : String.prefix a (a ++ b) = true.
Proof.
  induction a as [|ch a IH]; cbn.
  - now destruct b.
  - destruct (ascii_dec ch ch); [exact IH | contradiction].
Qed.

(** The loop adds the texts of its iterations one after the other. *)
Lemma fold_left_append (f : nat -> string) (l : list nat) :
  forall init,
    fold_left (fun path i => path ++ f i) l init = init ++ flat (map f l).
Proof.
  induction l as [|i l IH]; intro init; cbn [fold_left map flat].
  - induction init as [|ch init IHi]; cbn; [reflexivity | now rewrite <- IHi].
  - rewrite IH. apply append_assoc.
Qed.

Lemma flat_ext (f g : nat -> string) (l : list nat) :
  (forall i, In i l -> f i = g i) -> flat (map f l) = flat (map g l).
Proof.
  induction l as [|i l IH]; intro H; cbn [map flat].
  - reflexivity.
  - rewrite (H i (or_introl eq_refl)). rewrite IH; [reflexivity|].
    intros j Hj. apply H. now right.
Qed.

(** For an index of the loop, the conditional index of [p0] and the
    indices taken modulo the length are the cyclic ones. *)
Lemma previous_index (n i : nat) :
  (i < n)%nat ->
  (if Nat.eqb i 0 then n - 1 else i - 1)%nat = ((i + n - 1) mod n)%nat.
Proof.
  intro Hi. destruct i as [|i]; cbn [Nat.eqb].
  - cbn [Nat.add]. symmetry. apply Nat.mod_small. lia.
  - replace (S i + n - 1)%nat with (i + 1 * n)%nat by lia.
    rewrite Nat.Div0.mod_add. rewrite Nat.mod_small by lia. lia.
Qed.

Variable num : Q -> string.

Lemma curveText_render (points : list Point) (i : nat) :
  (i < List.length points)%nat ->
  curveText num points i = " " ++ renderCommand num (smoothCurve points i).
Proof.
  intro Hi. unfold curveText, smoothCurve, cyclic.
  rewrite (previous_index _ _ Hi).
  rewrite (Nat.mod_small i) by exact Hi.
  reflexivity.
Qed.

Lemma renderPath_cons (c : PathCommand) (cs : list PathCommand) :
  cs <> [] -> renderPath num (c :: cs) = renderCommand num c ++ " " ++ renderPath num cs.
Proof. destruct cs; [contradiction | reflexivity]. Qed.

Lemma renderPath_curves (cs : list PathCommand) :
  " " ++ renderPath num (cs ++ [ClosePath])
  = flat (map (fun c => " " ++ renderCommand num c) cs) ++ " Z".
Proof.
  induction cs as [|c cs IH].
  - reflexivity.
  - cbn [List.app map flat].
    rewrite renderPath_cons by (destruct cs; discriminate).
    rewrite !append_assoc. rewrite <- IH. cbn. reflexivity.
Qed.

Lemma generateSmoothPath_unfold (points : list Point) :
  (2 <= List.length points)%nat ->
  generateSmoothPath num points
  = ("M " ++ num (x (pointAt points 0)) ++ " " ++ num (y (pointAt points 0)))
      ++ flat (map (curveText num points) (seq 0 (List.length points)))
      ++ " Z".
Proof.
  intro Hn. unfold generateSmoothPath.
  replace (Nat.ltb (List.length points) 2) with false
    by (symmetry; apply Nat.ltb_ge; exact Hn).
  rewrite fold_left_append. apply append_assoc.
Qed.

Lemma occurrences_curveText (points : list Point) (i : nat) :
  (forall q, occurrences "C" (num q) = 0%nat) ->
  occurrences "C" (curveText num points i) = 1%nat.
Proof.
  intro Hnum. unfold curveText.
  repeat (rewrite occurrences_app; try rewrite Hnum). reflexivity.
Qed.

Lemma occurrences_flat_curves (points : list Point) (l : list nat) :
  (forall q, occurrences "C" (num q) = 0%nat) ->
  occurrences "C" (flat (map (curveText num points) l)) = List.length l.
Proof.
  intro Hnum. induction l as [|i l IH]; cbn [map flat List.length].
  - reflexivity.
  - rewrite occurrences_app, occurrences_curveText, IH by exact Hnum.
    reflexivity.
Qed.

End SmoothPath.

Section SmoothPathClaim.
Import Helpers.
Local Open Scope string_scope.

(** C8.  [generateSmoothPath] gives the empty string on fewer than two
    points.  On n >= 2 points it gives the text of the closed path made of
    a move to the first point, then for i = 0 .. n-1 a cubic curve to
    point i+1 with control points p(i) + (p(i+1) - p(i-1)) * 0.2 and
    p(i+1) - (p(i+2) - p(i)) * 0.2, indices taken cyclically, then the
    closing command: n curves in all.  The text starts with "M x0 y0",
    ends with " Z", and, a number never being printed with the letter C,
    holds that letter exactly n times. *)
Theorem generateSmoothPath_is_closed_curve_path
        (num : Q -> string) (points : list Point) :
  ((List.length points < 2)%nat -> generateSmoothPath num points = "")
  /\ ((2 <= List.length points)%nat ->
      generateSmoothPath num points = renderPath num (closedSmoothPath points)
      /\ closedSmoothPath points
         = MoveTo (pointAt points 0)
             :: map (fun i =>
                       CurveTo
                         (controlPoint1 (cyclic points (i + List.length points - 1))
                                        (cyclic points i)
                                        (cyclic points (i + 1)))
                         (controlPoint2 (cyclic points i)
                                        (cyclic points (i + 1))
                                        (cyclic points (i + 2)))
                         (cyclic points (i + 1)))
                    (seq 0 (List.length points))
             ++ [ClosePath]
      /\ List.length (filter isCurve (closedSmoothPath points))
         = List.length points
      /\ String.prefix
           ("M " ++ num (x (pointAt points 0)) ++ " " ++ num (y (pointAt points 0)))
           (generateSmoothPath num points) = true
      /\ (exists body, generateSmoothPath num points = body ++ " Z")
      /\ ((forall q, occurrences "C" (num q) = 0%nat) ->
          occurrences "C" (generateSmoothPath num points)
          = List.length points)).
Proof.
  split.
  - intro Hlt. unfold generateSmoothPath.
    replace (Nat.ltb (List.length points) 2) with true
      by (symmetry; apply Nat.ltb_lt; exact Hlt).
    reflexivity.
  - intro Hn.
    pose proof (generateSmoothPath_unfold num points Hn) as Hu.
    split; [|split; [|split; [|split; [|split]]]].
    + rewrite Hu. unfold closedSmoothPath.
      rewrite renderPath_cons
        by (intro E; apply app_eq_nil in E; destruct E; discriminate).
      cbn [renderCommand].
      rewrite renderPath_curves. rewrite map_map.
      do 2 f_equal.
      apply flat_ext. intros i Hi. apply in_seq in Hi.
      apply curveText_render. lia.
    + reflexivity.
    + unfold closedSmoothPath. cbn [filter isCurve].
      rewrite filter_app. cbn [filter isCurve]. rewrite app_nil_r.
      rewrite forallb_filter_id.
      * now rewrite length_map, length_seq.
      * apply forallb_forall. intros c Hc.
        apply in_map_iff in Hc. destruct Hc as (i & <- & _). reflexivity.
    + rewrite Hu. apply prefix_app.
    + rewrite Hu. rewrite <- append_assoc. eexists. reflexivity.
    + intro Hnum. rewrite Hu.
      rewrite !occurrences_app, !Hnum.
      rewrite occurrences_flat_curves by exact Hnum.
      rewrite length_seq. cbn. lia.
Qed.

Lemma occurrences_strokes (n : nat) : occurrences "C" (strokes n) = 0%nat.
Proof. induction n as [|n IH]; [reflexivity | exact IH]. Defined.

Lemma occurrences_sample_num (q : Q) : occurrences "C" (sample_num q) = 0%nat.
Proof.
  unfold sample_num.
  rewrite !occurrences_app, !occurrences_strokes.
  destruct (Z.ltb (Qnum q) 0); reflexivity.
Defined.

Lemma generateSmoothPath_is_closed_curve_path_witness :
  generateSmoothPath sample_num [] = ""
  /\ occurrences "C" (generateSmoothPath sample_num sample_points) = 3%nat.
Proof.
  split.
  - apply (proj1 (generateSmoothPath_is_closed_curve_path sample_num [])).
    cbn. lia.
  - assert (Hn : (2 <= List.length sample_points)%nat) by (cbn; lia).
    exact (proj2 (proj2 (proj2 (proj2 (proj2
             (proj2 (generateSmoothPath_is_closed_curve_path
                       sample_num sample_points) Hn)))))
             occurrences_sample_num).
Defined.

End SmoothPathClaim.

(* ------------------------------------------------------------------ *)
(** ** The analysis endpoint and its failures *)

Section Analysis.
Import Actions Page.
Local Open Scope string_scope.

Variable validateStatus : Z -> bool.
Hypothesis H200 : validateStatus 200%Z = true.

Lemma analyzeAudio_ok_iff (t : Transport) (body : Analysis) :
  analyzeAudio validateStatus t = inl body
  <-> exists response,
      t = Responded response /\ status response = 200%Z
      /\ body = data response.
Proof.
  unfold analyzeAudio, axios_post. split.
  - destruct t as [|response]; [discriminate|].
    destruct (validateStatus (status response)); [|discriminate].
    destruct (Z.eqb_spec (status response) 200) as [E|E]; cbn [negb];
      [|discriminate].
    intro H. injection H as <-. exists response. auto.
  - intros (response & -> & E & ->).
    rewrite E, H200. rewrite E. reflexivity.
Qed.

Lemma analyzeAudio_fails (t : Transport) :
  (forall response, t = Responded response -> status response <> 200%Z) ->
  exists e, analyzeAudio validateStatus t = inr e.
Proof.
  intro Hne. destruct (analyzeAudio validateStatus t) as [body|e] eqn:E.
  - apply analyzeAudio_ok_iff in E. destruct E as (response & Ht & Hs & _).
    exfalso. exact (Hne response Ht Hs).
  - exists e. reflexivity.
Qed.

End Analysis.

Section AnalysisClaim.
Import Actions Page.
Local Open Scope string_scope.

(** C4.  With an HTTP client that lets status 200 through:
    [analyzeAudio] returns a body exactly when the endpoint answered with
    status 200, and the body is the one of the response; in every other
    case it fails, and the continuation of [processAudio] then only sets
    the error to the fixed message: server segments, genre and stage stay
    as they were and the finished request is not started again. *)
Theorem analyzeAudio_200_or_generic_error
        (validateStatus : Z -> bool)
        (H200 : validateStatus 200%Z = true) :
  (forall t body,
      analyzeAudio validateStatus t = inl body
      <-> exists response,
          t = Responded response /\ status response = 200%Z
          /\ body = data response)
  /\ (forall t s k blob,
        (forall response, t = Responded response -> status response <> 200%Z) ->
        nth_error (tasks s) k = Some (Analyzing blob) ->
        let s' := step validateStatus (AnalysisSettled k t) s in
        (exists e, analyzeAudio validateStatus t = inr e)
        /\ s' = setError
                  (Some "There was an error processing your audio. Please try again.")
                  (setTasks (removeAt k (tasks s)) s)
        /\ serverSegments s' = serverSegments s
        /\ predictedGenre s' = predictedGenre s
        /\ animatedSegments s' = animatedSegments s
        /\ stage s' = stage s
        /\ tasks s' = removeAt k (tasks s)).
Proof.
  split.
  - intros t body. now apply analyzeAudio_ok_iff.
  - intros t s k blob Hne Hk s'.
    destruct (analyzeAudio_fails validateStatus H200 t Hne) as [e He].
    split; [exists e; exact He|].
    assert (Hs' : s' = setError (Some processingErrorMessage)
                             (setTasks (removeAt k (tasks s)) s)).
    { subst s'. cbn [step]. rewrite Hk, He. reflexivity. }
    split; [exact Hs'|].
    rewrite Hs'. repeat split; reflexivity.
Qed.

Lemma analyzeAudio_200_or_generic_error_witness :
  analyzeAudio defaultValidateStatus
               (Responded (mkResponse 200 sample_analysis))
  = inl sample_analysis
  /\ error (step defaultValidateStatus
                 (AnalysisSettled 0 (Responded (mkResponse 204 sample_analysis)))
                 (processAudio (blobOf sample_audio) initialState))
     = Some "There was an error processing your audio. Please try again.".
Proof.
  assert (H200 : defaultValidateStatus 200%Z = true) by reflexivity.
  destruct (analyzeAudio_200_or_generic_error defaultValidateStatus H200)
    as [Hok Hfail].
  split.
  - apply Hok. exists (mkResponse 200 sample_analysis).
    repeat split; reflexivity.
  - destruct (Hfail (Responded (mkResponse 204 sample_analysis))
                    (processAudio (blobOf sample_audio) initialState)
                    0%nat (blobOf sample_audio)) as (_ & Hs' & _).
    + intros response E. injection E as <-. cbn. discriminate.
    + reflexivity.
    + rewrite Hs'. reflexivity.
Defined.

End AnalysisClaim.

(* ------------------------------------------------------------------ *)
(** ** Upload of a file *)

Section Upload.
Import Actions Page.
Local Open Scope string_scope.

(** C2.  [handleFileUpload] on an event that carries a file.  When the
    type of the file does not start with "audio/", the only change is the
    error, set to "Please upload a valid audio file.": the stage is the
    one before (idle stays idle) and no request is started.  When the type
    starts with "audio/", the error is cleared and [processAudio] is
    started on the file. *)
Theorem handleFileUpload_rejects_non_audio
        (s : State) (file : File) (rest : list File) :
  let s' := handleFileUpload (Some (file :: rest)) s in
  (String.prefix "audio/" (type file) = false ->
     s' = setError (Some "Please upload a valid audio file.") s
     /\ stage s' = stage s
     /\ (stage s = idle -> stage s' = idle)
     /\ tasks s' = tasks s
     /\ error s' = Some "Please upload a valid audio file.")
  /\ (String.prefix "audio/" (type file) = true ->
     error s' = None
     /\ tasks s' = (tasks s ++ [Analyzing (blobOf file)])%list
     /\ s' = processAudio (blobOf file)
               (setArtistName "Unknown" (setSongName (name file)
                                                     (setError None s)))).
Proof.
  intro s'. subst s'. cbn [handleFileUpload]. split; intro Hp; rewrite Hp;
    cbn [negb]; repeat split; try reflexivity.
  intro Hi. exact Hi.
Qed.

Lemma handleFileUpload_rejects_non_audio_witness :
  error (handleFileUpload (Some [sample_text]) initialState)
  = Some "Please upload a valid audio file."
  /\ tasks (handleFileUpload (Some [sample_audio]) initialState)
     = [Analyzing (blobOf sample_audio)].
Proof.
  split.
  - destruct (proj1 (handleFileUpload_rejects_non_audio
                       initialState sample_text []) eq_refl)
      as (_ & _ & _ & _ & He).
    exact He.
  - destruct (proj2 (handleFileUpload_rejects_non_audio
                       initialState sample_audio []) eq_refl)
      as (_ & Ht & _).
    exact Ht.
Defined.

End Upload.

(* ------------------------------------------------------------------ *)
(** ** Reset *)

Section Reset.
Import Actions Page.
Local Open Scope string_scope.

(** C3.  [resetApp] puts the stage back to idle, both audio URLs and the
    genre to null and both segment lists to empty, and it does not touch
    the error: after a rejected upload and a reset the message of the
    rejected upload is still there. *)
Theorem resetApp_leaves_error_in_place (s : State) :
  let s' := resetApp s in
  stage s' = idle
  /\ recordedAudioUrl s' = None
  /\ uploadedAudioUrl s' = None
  /\ predictedGenre s' = None
  /\ serverSegments s' = []
  /\ animatedSegments s' = []
  /\ error s' = error s
  /\ error (run defaultValidateStatus rejectedThenReset initialState)
     = Some "Please upload a valid audio file."
  /\ error initialState = None.
Proof. cbn. repeat split; reflexivity. Qed.

End Reset.

(* ------------------------------------------------------------------ *)
(** ** animateSegments *)

Section Interval.
Import React Actions Page.
Local Open Scope nat_scope.

Lemma setAnimatedSegments_same (s : State) :
  setAnimatedSegments (animatedSegments s) s = s.
Proof. destruct s; reflexivity. Qed.

Lemma runsOf_succ (runs : nat -> UpdaterRun) (from count : nat) :
  runsOf runs from (S count) = runs from :: runsOf runs (S from) count.
Proof. reflexivity. Qed.

Lemma appendedBy_succ (runs : nat -> UpdaterRun) (segs : list ServerSegment)
      (from count : nat) :
  appendedBy runs segs from (S count)
  = nth_error segs (seenIndex (runs from) from)
      :: appendedBy runs segs (S from) count.
Proof. reflexivity. Qed.

(** While the counter stays inside the list, [k] ticks from [idx] append
    one element each and leave the interval running at [idx + k]. *)
Lemma runInterval_inside (runs : nat -> UpdaterRun) (segs : list ServerSegment)
      (k : nat) :
  forall idx s,
    idx + k < List.length segs ->
    runInterval (runsOf runs idx k) segs idx s
    = (setAnimatedSegments
         (animatedSegments s ++ appendedBy runs segs idx k) s,
       Some (idx + k)).
Proof.
  induction k as [|k IH]; intros idx s Hk.
  - cbn [runsOf appendedBy seq map runInterval].
    rewrite app_nil_r, setAnimatedSegments_same, Nat.add_0_r. reflexivity.
  - rewrite runsOf_succ, appendedBy_succ. cbn [runInterval].
    unfold intervalTick.
    replace (Nat.leb (List.length segs) (S idx)) with false
      by (symmetry; apply Nat.leb_gt; lia).
    rewrite IH by lia. destruct s.
    cbn [animatedSegments setAnimatedSegments].
    rewrite <- app_assoc. cbn [List.app].
    f_equal. f_equal. lia.
Qed.

(** The tick that brings the counter to the length of the list appends
    its element, stops the interval and sets the stage. *)
Lemma intervalTick_last (u : UpdaterRun) (segs : list ServerSegment)
      (idx : nat) (s : State) :
  List.length segs <= S idx ->
  intervalTick u segs idx s
  = (setStage finished
       (setAnimatedSegments
          (animatedSegments s ++ [nth_error segs (seenIndex u idx)]) s),
     None).
Proof.
  intro H. unfold intervalTick.
  replace (Nat.leb (List.length segs) (S idx)) with true
    by (symmetry; apply Nat.leb_le; exact H).
  reflexivity.
Qed.

(** The ticks from [idx] up to the one that stops the interval. *)
Lemma runInterval_to_end (runs : nat -> UpdaterRun) (segs : list ServerSegment)
      (r : nat) :
  forall idx s,
    Nat.max 1 (List.length segs - idx) = S r ->
    runInterval (runsOf runs idx (S r)) segs idx s
    = (setStage finished
         (setAnimatedSegments
            (animatedSegments s ++ appendedBy runs segs idx (S r)) s),
       None).
Proof.
  induction r as [|r IH]; intros idx s Hr.
  - cbn [runsOf appendedBy seq map runInterval].
    rewrite intervalTick_last by lia. reflexivity.
  - rewrite runsOf_succ, appendedBy_succ. cbn [runInterval].
    unfold intervalTick.
    replace (Nat.leb (List.length segs) (S idx)) with false
      by (symmetry; apply Nat.leb_gt; lia).
    rewrite IH by lia. destruct s.
    cbn [animatedSegments setAnimatedSegments setStage].
    rewrite <- app_assoc. reflexivity.
Qed.

Lemma runInterval_all (runs : nat -> UpdaterRun) (segs : list ServerSegment)
      (s : State) :
  runInterval (runsOf runs 0 (ticksOf segs)) segs 0 s
  = (setStage finished
       (setAnimatedSegments
          (animatedSegments s ++ appendedBy runs segs 0 (ticksOf segs)) s),
     None).
Proof.
  unfold ticksOf.
  destruct (Nat.max 1 (List.length segs)) as [|r] eqn:E; [lia|].
  apply runInterval_to_end. lia.
Qed.

Lemma map_nth_error_seq {A} (l : list A) :
  map (nth_error l) (seq 0 (List.length l)) = map Some l.
Proof.
  induction l as [|a l IH]; [reflexivity|].
  cbn [List.length seq map nth_error].
  rewrite <- seq_shift, map_map. cbn [nth_error]. f_equal.
  rewrite <- IH. apply map_ext. reflexivity.
Qed.

(** With every function run at the call, the ticks append the list. *)
Lemma appendedBy_atCall (segs : list ServerSegment) :
  appendedBy allAtCall segs 0 (List.length segs) = map Some segs.
Proof. exact (map_nth_error_seq segs). Qed.

(** With every function run in the render after its tick, the ticks
    append the list without its first element, then undefined. *)
Lemma appendedBy_atRender (segs : list ServerSegment) :
  appendedBy allAtRender segs 0 (ticksOf segs) = map Some (tl segs) ++ [None].
Proof.
  unfold appendedBy, allAtRender, ticksOf. cbn [seenIndex].
  destruct segs as [|a l]; [reflexivity|].
  replace (Nat.max 1 (List.length (a :: l))) with (S (List.length l))
    by (cbn [List.length]; lia).
  rewrite seq_S, map_app. cbn [tl map nth_error Nat.add].
  rewrite <- (map_nth_error_seq l).
  f_equal. f_equal. apply nth_error_None. lia.
Qed.

Lemma map_nth_error_seq_from {A} (l : list A) (from count : nat) :
  from + count = List.length l ->
  map (nth_error l) (seq from count) = map Some (skipn from l).
Proof.
  intro H. rewrite <- (map_nth_error_seq (skipn from l)).
  rewrite length_skipn. replace (List.length l - from) with count by lia.
  clear H. revert from. induction count as [|count IH]; intro from;
    [reflexivity|].
  cbn [seq map]. rewrite nth_error_skipn, Nat.add_0_r. f_equal.
  rewrite IH. rewrite <- seq_shift, map_map.
  apply map_ext. intro i. rewrite !nth_error_skipn. f_equal. lia.
Qed.

Lemma appendedBy_atCall_from (segs : list ServerSegment) (from count : nat) :
  from + count = List.length segs ->
  appendedBy allAtCall segs from count = map Some (skipn from segs).
Proof. exact (map_nth_error_seq_from segs from count). Qed.

Lemma appendedBy_atRender_from (segs : list ServerSegment) (from count : nat) :
  from + S count = List.length segs ->
  appendedBy allAtRender segs from (S count)
  = map Some (skipn (S from) segs) ++ [None].
Proof.
  intro H. unfold appendedBy, allAtRender. cbn [seenIndex].
  rewrite seq_S, map_app. cbn [map].
  rewrite <- (map_nth_error_seq_from segs (S from) count) by lia.
  rewrite <- seq_shift, map_map. f_equal. f_equal.
  apply nth_error_None. lia.
Qed.

Lemma appendedBy_length (runs : nat -> UpdaterRun) (segs : list ServerSegment)
      (from count : nat) :
  List.length (appendedBy runs segs from count) = count.
Proof. unfold appendedBy. now rewrite length_map, length_seq. Qed.

(** The elements appended are defined except, perhaps, the last one. *)
Lemma In_None_appendedBy (runs : nat -> UpdaterRun) (segs : list ServerSegment) :
  In None (appendedBy runs segs 0 (ticksOf segs))
  <-> segs = [] \/ runs (ticksOf segs - 1) = AtRender.
Proof.
  unfold appendedBy, ticksOf. rewrite in_map_iff. split.
  - intros (i & Hi & Hin). apply in_seq in Hin.
    apply nth_error_None in Hi.
    destruct segs as [|a l]; [now left|]. right.
    cbn [List.length] in *.
    destruct (runs i) eqn:E; cbn [seenIndex] in Hi; [lia|].
    replace (Nat.max 1 (S (List.length l)) - 1) with i by lia. exact E.
  - intros [->|H].
    + exists 0. split; [|cbn; lia]. now destruct (runs 0).
    + exists (Nat.max 1 (List.length segs) - 1). split.
      * rewrite H. cbn [seenIndex]. apply nth_error_None. lia.
      * apply in_seq. lia.
Qed.

End Interval.

Section IntervalClaim.
Import React Actions Page.
Local Open Scope nat_scope.

(** C10.  [animateSegments] arms an interval at index 0, and each tick
    hands the setter its function before the bounds check, so that an
    element is appended on the empty list too: undefined, whichever way the
    function is run.  But the function reads [currentIdx] when React runs
    it.  Run at the call, tick i appends s[i], and the ticks append the
    list in order as the claim says.  Run in the render after the tick, it
    reads the counter already incremented: tick i appends s[i + 1], the
    ticks append s[1], ..., s[n-1] and then undefined, and s[0] is never
    appended.  In both cases the tick that brings the counter to the
    length sets the stage to finished and clears the interval.  On the two
    segments of the sample answer the page ends with [s1, undefined]. *)
Theorem animateSegments_appends_next_index_after_render
        (segs : list ServerSegment) (s : State) (runs : nat -> UpdaterRun) :
  tasks (animateSegments segs s) = tasks s ++ [SegmentInterval segs 0]
  /\ runInterval (runsOf runs 0 (ticksOf segs)) segs 0 s
     = (setStage finished
          (setAnimatedSegments
             (animatedSegments s ++ appendedBy runs segs 0 (ticksOf segs)) s),
        None)
  /\ (forall k, k < List.length segs ->
        runInterval (runsOf runs 0 k) segs 0 s
        = (setAnimatedSegments
             (animatedSegments s ++ appendedBy runs segs 0 k) s,
           Some k))
  /\ (forall i, appendedBy runs segs i 1
                = [nth_error segs (match runs i with
                                   | AtCall => i
                                   | AtRender => S i
                                   end)])
  /\ (segs = [] -> appendedBy runs segs 0 (ticksOf segs) = [None])
  /\ (segs <> [] -> appendedBy allAtCall segs 0 (ticksOf segs) = map Some segs)
  /\ appendedBy allAtRender segs 0 (ticksOf segs) = map Some (tl segs) ++ [None]
  /\ appendedBy allAtRender segs 0 (ticksOf segs) <> map Some segs
  /\ animatedSegments
       (fst (runInterval [AtRender; AtRender] (segments sample_analysis) 0
                         initialState))
     = [nth_error (segments sample_analysis) 1; None].
Proof.
  split; [reflexivity|].
  split.
  { apply runInterval_all. }
  split.
  { intros k Hk. exact (runInterval_inside runs segs k 0 s Hk). }
  split.
  { intro i. unfold appendedBy. cbn [seq map]. now destruct (runs i). }
  split.
  { intros ->. unfold appendedBy, ticksOf. cbn [List.length Nat.max seq map].
    now destruct (runs 0). }
  split.
  { intro Hne. unfold ticksOf.
    replace (Nat.max 1 (List.length segs)) with (List.length segs)
      by (destruct segs; [contradiction | cbn [List.length]; lia]).
    apply appendedBy_atCall. }
  split; [apply appendedBy_atRender|].
  split; [|reflexivity].
  intro H.
  assert (Hin : In None (map Some segs)).
  { rewrite <- H. apply In_None_appendedBy. now right. }
  apply in_map_iff in Hin. destruct Hin as (x & Hx & _). discriminate.
Qed.

Lemma animateSegments_appends_next_index_after_render_witness :
  animatedSegments
    (fst (runInterval [AtRender] (segments sample_analysis) 0 initialState))
  = [nth_error (segments sample_analysis) 1]
  /\ appendedBy allAtRender [] 0 (ticksOf []) = [None]
  /\ appendedBy allAtCall (segments sample_analysis) 0
                (ticksOf (segments sample_analysis))
     = map Some (segments sample_analysis).
Proof.
  destruct (animateSegments_appends_next_index_after_render
              (segments sample_analysis) initialState allAtRender)
    as (_ & _ & Hin & _ & _ & Hcall & _).
  destruct (animateSegments_appends_next_index_after_render
              [] initialState allAtRender)
    as (_ & _ & _ & _ & Hempty & _).
  split; [|split].
  - change [AtRender] with (runsOf allAtRender 0 1).
    rewrite (Hin 1). + reflexivity. + cbn. lia.
  - exact (Hempty eq_refl).
  - apply Hcall. discriminate.
Defined.

End IntervalClaim.

(* ------------------------------------------------------------------ *)
(** ** The order of the stages *)

Section StageOrder.
Import React Actions Page.
Local Open Scope nat_scope.

Variable validateStatus : Z -> bool.

(** Whatever the event, the stage is kept or becomes the stage the
    event writes. *)
Lemma step_stage (ev : Event) (s : State) :
  stage (step validateStatus ev s) = stage s
  \/ writtenStage ev = Some (stage (step validateStatus ev s)).
Proof.
  destruct ev as [files| | |url|k blob|url blob|k t|k|k u|];
    cbn [step writtenStage].
  - left. destruct (stage_eqb (stage s) idle); [|reflexivity].
    destruct files as [[|file rest]|]; cbn [handleFileUpload]; try reflexivity.
    destruct (negb _); reflexivity.
  - left. destruct (stage_eqb (stage s) idle); reflexivity.
  - left. destruct (showRecordModal s); reflexivity.
  - destruct (showRecordModal s); [right|left]; reflexivity.
  - left. destruct (nth_error (tasks s) k) as [[| | |]|]; try reflexivity.
    destruct blob; reflexivity.
  - right. reflexivity.
  - destruct (nth_error (tasks s) k) as [[| | |]|]; try (left; reflexivity).
    destruct (analyzeAudio validateStatus t); [right|left]; reflexivity.
  - destruct (nth_error (tasks s) k) as [[| | |]|]; try (left; reflexivity).
    right. reflexivity.
  - destruct (nth_error (tasks s) k) as [[|?|segs idx|?]|];
      try (left; reflexivity).
    unfold intervalTick.
    destruct (Nat.leb (List.length segs) (S idx)); [right|left]; reflexivity.
  - right. reflexivity.
Qed.

(** The ticks of the only pending interval, from index [idx] to the one
    that stops it: the stage stays processing and becomes finished with
    the last tick, however the functions are run. *)
Lemma stages_of_ticks (runs : nat -> UpdaterRun) (segs : list ServerSegment)
      (r : nat) :
  forall idx s,
    stage s = processing ->
    tasks s = [SegmentInterval segs idx] ->
    Nat.max 1 (List.length segs - idx) = S r ->
    stages validateStatus (intervalTicks runs idx (S r)) s
    = repeat processing r ++ [finished].
Proof.
  unfold intervalTicks.
  induction r as [|r IH]; intros idx s Hst Htk Hr.
  - cbn [runsOf seq map repeat stages step List.app]. rewrite Htk.
    cbn [nth_error]. rewrite intervalTick_last by lia. reflexivity.
  - rewrite runsOf_succ. cbn [map stages]. cbn [step]. rewrite Htk.
    cbn [nth_error]. unfold intervalTick.
    replace (Nat.leb (List.length segs) (S idx)) with false
      by (symmetry; apply Nat.leb_gt; lia).
    cbn [stage setTasks setAnimatedSegments tasks]. rewrite Hst, Htk.
    cbn [replaceAt repeat List.app]. f_equal.
    apply IH with (idx := S idx).
    + exact Hst.
    + reflexivity.
    + lia.
Qed.

End StageOrder.

Section StageOrderClaim.
Import React Actions Page SimulatedPage.
Local Open Scope nat_scope.

(** C1.  The stage does move backward without a reset.  [handleFileUpload]
    and [processAudio] leave the stage as it is while the request is on
    its way, so after an audio file is chosen the page is still idle and
    still offers the upload control; [processAudio] writes uploading only
    when the answer has come.  The other submissions do write uploading at
    once: [onRecordingComplete], [onstop] of the inline recorder, and
    [handleFileUpload] of the simulated page.  With two files chosen one
    after the other, the first answer and its timer bring the stage to
    processing, and the second answer, no reset being among the events,
    writes uploading: the stages after the five events are idle, idle,
    uploading, processing, uploading. *)
Theorem second_answer_moves_stage_backward :
  (forall files s, stage (handleFileUpload files s) = stage s)
  /\ (forall blob s, stage (processAudio blob s) = stage s)
  /\ (forall url s, stage (onRecordingComplete url s) = uploading)
  /\ (forall url blob s, stage (inlineRecorder_onstop url blob s) = uploading)
  /\ (forall fileUrl s,
        simStage (simHandleFileUpload (Some [sample_audio]) fileUrl s)
        = uploading)
  /\ (let s := run defaultValidateStatus overlappingUploads initialState in
      let ev := AnalysisSettled 0 (Responded (mkResponse 200 sample_analysis)) in
      stages defaultValidateStatus (overlappingUploads ++ [ev]) initialState
      = [idle; idle; uploading; processing; uploading]
      /\ forallb (fun e => negb (isReset e)) (overlappingUploads ++ [ev]) = true
      /\ stage s = processing
      /\ stage (step defaultValidateStatus ev s) = uploading
      /\ stageIndex (stage (step defaultValidateStatus ev s))
         < stageIndex (stage s)).
Proof.
  split.
  { intros files s. destruct files as [[|file rest]|]; cbn [handleFileUpload];
      try reflexivity.
    destruct (negb _); reflexivity. }
  split; [reflexivity|]. split; [reflexivity|]. split; [reflexivity|].
  split; [reflexivity|].
  cbn. repeat split; try reflexivity. lia.
Qed.

(** X23.  One submission carried to the end goes through the stages in
    order.  Every handler that writes the stage writes a fixed one,
    whatever the stage was: the answer of the analysis and the two
    recording handlers write uploading, the 2 s timer processing, the tick
    of [animateSegments] that stops the interval finished, [resetApp]
    idle.  For one audio file submitted from idle with nothing pending and
    carried to the end with no other event in between, the stage after the
    successive events is idle (request on its way), uploading, processing,
    processing for every tick but the last, finished, however the
    functions of the ticks are run.  One recording made in the modal goes
    the same way, the stage being uploading from the end of the recording
    on. *)
Theorem single_submission_advances_stage_in_order
        (validateStatus : Z -> bool) (H200 : validateStatus 200%Z = true)
        (s : State) (file : File) (body : Analysis) (runs : nat -> UpdaterRun)
        (Hidle : stage s = idle) (Hquiet : tasks s = [])
        (Haudio : String.prefix "audio/" (type file) = true) :
  stages validateStatus (singleSubmission file body runs) s
  = [idle; uploading; processing]
      ++ repeat processing (ticksOf (segments body) - 1)
      ++ [finished]
  /\ (forall ev s0,
        stage (step validateStatus ev s0) = stage s0
        \/ writtenStage ev = Some (stage (step validateStatus ev s0)))
  /\ (forall url blob,
        stages validateStatus (recordedSubmission url blob body runs) s
        = [idle; uploading; uploading; uploading; processing]
            ++ repeat processing (ticksOf (segments body) - 1)
            ++ [finished]).
Proof.
  assert (Hbody : analyzeAudio validateStatus
                    (Responded (mkResponse 200 body)) = inl body).
  { apply analyzeAudio_ok_iff; [exact H200|].
    exists (mkResponse 200 body). repeat split; reflexivity. }
  assert (Hticks : forall s1,
             stage s1 = processing ->
             tasks s1 = [SegmentInterval (segments body) 0] ->
             stages validateStatus
                    (intervalTicks runs 0 (ticksOf (segments body))) s1
             = repeat processing (ticksOf (segments body) - 1) ++ [finished]).
  { intros s1 Hs1 Ht1. unfold ticksOf.
    destruct (Nat.max 1 (List.length (segments body))) as [|r] eqn:Hm; [lia|].
    replace (S r - 1) with r by lia.
    apply stages_of_ticks with (idx := 0) (segs := segments body).
    - exact Hs1.
    - exact Ht1.
    - rewrite Nat.sub_0_r. exact Hm. }
  destruct s as [st rec upl modal song artist srv anim gen err tk].
  cbn [stage tasks] in Hidle, Hquiet. subst st tk.
  split; [|split; [intros ev s0; apply step_stage|]].
  2:{ intros url blob. unfold recordedSubmission.
      cbn [List.app stages].
      cbn [step stage stage_eqb stageIndex Nat.eqb showRecordModal
           setShowRecordModal].
      cbn [onRecordingComplete processAudio addTask tasks setTasks setStage
           setRecordedAudioUrl setShowRecordModal stage showRecordModal
           List.app nth_error removeAt].
      rewrite Hbody.
      cbn [processAudio_settled addTask tasks setTasks setStage
           setServerSegments setPredictedGenre stage List.app nth_error
           removeAt stageTimer_fired animateSegments].
      do 5 (apply (f_equal (cons _))).
      apply Hticks; reflexivity. }
  unfold singleSubmission.
  cbn [List.app stages].
  cbn [step stage stage_eqb stageIndex Nat.eqb handleFileUpload].
  rewrite Haudio.
  cbn [negb processAudio addTask tasks setTasks setError setSongName
       setArtistName stage List.app nth_error removeAt].
  rewrite Hbody.
  cbn [processAudio_settled addTask tasks setTasks setStage
       setServerSegments setPredictedGenre stage List.app nth_error
       removeAt stageTimer_fired animateSegments].
  do 3 (apply (f_equal (cons _))).
  apply Hticks; reflexivity.
Qed.

Lemma single_submission_advances_stage_in_order_witness :
  stages defaultValidateStatus
         (singleSubmission sample_audio sample_analysis allAtRender)
         initialState
  = [idle; uploading; processing; processing; finished].
Proof.
  exact (proj1 (single_submission_advances_stage_in_order
                  defaultValidateStatus eq_refl initialState
                  sample_audio sample_analysis allAtRender
                  eq_refl eq_refl eq_refl)).
Defined.

End StageOrderClaim.

(* ------------------------------------------------------------------ *)
(** ** Release of the microphone *)

Section Microphone.
Import Recorder.
Local Open Scope nat_scope.

Lemma nth_updateAt {A} (f : A -> A) (d : A) (l : list A) :
  forall k, k < List.length l -> nth k (updateAt k f l) d = f (nth k l d).
Proof.
  induction l as [|a l IH]; intros k Hk.
  - cbn in Hk. lia.
  - destruct k as [|k]; cbn [updateAt nth].
    + reflexivity.
    + apply IH. cbn in Hk. lia.
Qed.

Lemma updateAt_beyond {A} (f : A -> A) (l : list A) :
  forall k, List.length l <= k -> updateAt k f l = l.
Proof.
  induction l as [|a l IH]; intros k Hk.
  - destruct k; reflexivity.
  - destruct k as [|k]; cbn in Hk; [lia|].
    cbn [updateAt]. rewrite IH by lia. reflexivity.
Qed.

Lemma no_live_after_stop (tracks : MediaStream) :
  existsb (fun live => live) (map (fun _ => false) tracks) = false.
Proof. induction tracks as [|t tracks IH]; [reflexivity | exact IH]. Qed.

(** After [stop()] on all its tracks a stream has no live track. *)
Lemma hasLiveTrack_stopTracks (id : nat) (w : Streams) :
  hasLiveTrack id (stopTracks id w) = false.
Proof.
  unfold hasLiveTrack, stopTracks.
  destruct (Nat.lt_ge_cases id (List.length w)) as [Hlt|Hge].
  - rewrite nth_updateAt by exact Hlt. apply no_live_after_stop.
  - rewrite updateAt_beyond by exact Hge.
    rewrite nth_overflow by exact Hge. reflexivity.
Qed.

(** Manual stop in the modal releases the stream the modal holds. *)
Lemma stopRecording_releases (m : Modal) (w : Streams) (id : nat) :
  mediaStreamRef m = Some id ->
  hasLiveTrack id (snd (stopRecording (m, w))) = false.
Proof.
  intro H. cbn [stopRecording snd]. rewrite H.
  apply hasLiveTrack_stopTracks.
Qed.

(** Unmounting the modal releases the stream the modal holds. *)
Lemma modalUnmount_releases (m : Modal) (w : Streams) (id : nat) :
  mediaStreamRef m = Some id ->
  hasLiveTrack id (snd (modalUnmount (m, w))) = false.
Proof.
  intro H. cbn [modalUnmount snd]. rewrite H.
  apply hasLiveTrack_stopTracks.
Qed.

(** Manual stop of the inline recorder, while it records, releases the
    stream the page holds. *)
Lemma stopRecordingInline_releases (p : Inline) (w : Streams) (r id : nat) :
  mediaRecorderRefInline p = Some r -> recording p = true ->
  inlineMediaStreamRef p = Some id ->
  hasLiveTrack id (snd (stopRecordingInline (p, w))) = false.
Proof.
  intros Hr Hrec Hs. cbn [stopRecordingInline]. rewrite Hr, Hrec, Hs.
  cbn [snd]. apply hasLiveTrack_stopTracks.
Qed.

(** C7.  Teardown of the page stops no track: a stream acquired by the
    inline recorder and not stopped by hand is still live when the page is
    gone.  In the modal, a stream granted after the modal was unmounted
    (the request was still open when it closed) is never stopped
    either. *)
Theorem inline_stream_live_after_page_teardown :
  (forall pw, snd (pageTeardown pw) = snd pw)
  /\ (let pw := pageTeardown
                  (startRecordingInline_granted 1 (inlineInitial, [])) in
      pageMounted (fst pw) = false
      /\ inlineMediaStreamRef (fst pw) = Some 0
      /\ hasLiveTrack 0 (snd pw) = true)
  /\ (let mw := startRecording_granted 1
                  (modalUnmount (startRecording modalMounted, [])) in
      mounted (fst mw) = false
      /\ mediaStreamRef (fst mw) = Some 0
      /\ hasLiveTrack 0 (snd mw) = true).
Proof.
  split.
  - intros [p w]. reflexivity.
  - cbn. repeat split; reflexivity.
Qed.

End Microphone.

(* ================================================================== *)
(** * Further properties of the components *)

(* ------------------------------------------------------------------ *)
(** ** The music player *)

Section RandomIndex.
Import Random MusicPlayer.
Local Open Scope Q_scope.

Lemma Qfloor_nonneg (q : Q) : 0 <= q -> (0 <= Qfloor q)%Z.
Proof.
  intro H. change 0%Z with (Qfloor 0). now apply Qfloor_resp_le.
Qed.

Lemma Qfloor_lt_Z (q : Q) (z : Z) : q < inject_Z z -> (Qfloor q < z)%Z.
Proof.
  intro H. rewrite Zlt_Qlt.
  eapply Qle_lt_trans; [apply Qfloor_le | exact H].
Qed.


Variable src : Source.
Hypothesis Hsrc : unit_source src.

Lemma randomIndex_bound (n k : nat) :
  (0 < n)%nat ->
  (fst (randomIndex n src k) < n)%nat /\ snd (randomIndex n src k) = S k.
Proof.
  intro Hn. unfold randomIndex, bind, Math_random, ret. cbn [fst snd].
  split; [|reflexivity].
  destruct (Hsrc k) as [H0 H1].
  assert (HN : 0 < inject_Z (Z.of_nat n))
    by (change 0 with (inject_Z 0); rewrite <- Zlt_Qlt; lia).
  assert (Hlo : (0 <= Qfloor (src k * inject_Z (Z.of_nat n)))%Z).
  { apply Qfloor_nonneg. apply Qmult_le_0_compat; lra. }
  assert (Hhi : (Qfloor (src k * inject_Z (Z.of_nat n)) < Z.of_nat n)%Z).
  { apply Qfloor_lt_Z.
    setoid_replace (inject_Z (Z.of_nat n)) with (1 * inject_Z (Z.of_nat n))
      at 2 by ring.
    apply Qmult_lt_r; assumption. }
  lia.
Qed.

End RandomIndex.

Section Shuffle.
Import Random MusicPlayer.

Lemma replaceAt_head_perm {A} (l : list A) :
  forall j x a,
    nth_error l j = Some x ->
    Permutation (x :: Page.replaceAt j a l) (a :: l).
Proof.
  induction l as [|b l IH]; intros j x a Hj.
  - destruct j; discriminate.
  - destruct j as [|j]; cbn [nth_error Page.replaceAt] in *.
    + injection Hj as ->. apply perm_swap.
    + eapply perm_trans; [apply perm_swap|].
      eapply perm_trans; [apply perm_skip, IH; exact Hj|].
      apply perm_swap.
Qed.

Lemma replaceAt_swap_perm {A} (a : list A) :
  forall i j aj ai,
    nth_error a j = Some aj -> nth_error a i = Some ai ->
    Permutation (Page.replaceAt j ai (Page.replaceAt i aj a)) a.
Proof.
  induction a as [|h t IH]; intros i j aj ai Hj Hi.
  - destruct j; discriminate.
  - destruct i as [|i], j as [|j]; cbn [nth_error Page.replaceAt] in *.
    + injection Hi as ->. reflexivity.
    + injection Hi as ->. now apply replaceAt_head_perm.
    + injection Hj as ->. now apply replaceAt_head_perm.
    + apply perm_skip. now apply IH.
Qed.

Lemma swap_perm {A} (i j : nat) (a : list A) : Permutation (swap i j a) a.
Proof.
  unfold swap.
  destruct (nth_error a j) as [aj|] eqn:Hj; [|reflexivity].
  destruct (nth_error a i) as [ai|] eqn:Hi; [|reflexivity].
  now apply replaceAt_swap_perm.
Qed.

Lemma shuffleLoop_perm {A} (src : Source) (i : nat) :
  forall (l : list A) k, Permutation (fst (shuffleLoop i l src k)) l.
Proof.
  induction i as [|i IH]; intros l k.
  - reflexivity.
  - cbn [shuffleLoop]. unfold bind.
    destruct (randomIndex (S i + 1) src k) as [j k'].
    eapply perm_trans; [apply IH | apply swap_perm].
Qed.

Lemma NoDup_palette : NoDup palette.
Proof.
  unfold palette.
  repeat (apply NoDup_cons; [cbn; intuition discriminate|]).
  apply NoDup_nil.
Qed.

End Shuffle.

Section MusicPlayerProperties.
Import Random MusicPlayer.
Local Open Scope Q_scope.

(** X1.  With every draw in [0, 1), the index
    [Math.floor(Math.random() * designVariants.length)] is always one of
    0, 1, 2: a design variant is selected, never [undefined], and it has
    its five paths. *)
Theorem selectedVariant_is_defined
        (src : Source) (Hsrc : unit_source src) (k : nat) :
  exists variant,
    fst (selectedVariant src k) = Some variant
    /\ In variant designVariants
    /\ List.length variant = 5%nat.
Proof.
  unfold selectedVariant, bind, ret.
  destruct (randomIndex_bound src Hsrc (List.length designVariants) k)
    as [Hlt _]; [cbn; lia|].
  destruct (randomIndex (List.length designVariants) src k) as [index k'].
  cbn [fst] in *.
  destruct (nth_error designVariants index) as [variant|] eqn:Hv.
  - exists variant. split; [reflexivity|]. split.
    + eapply nth_error_In; exact Hv.
    + change (List.length designVariants) with 3%nat in Hlt.
      destruct index as [|[|[|index]]]; try lia;
        cbn in Hv; injection Hv as <-; reflexivity.
  - apply nth_error_None in Hv. lia.
Qed.

Lemma selectedVariant_is_defined_witness :
  exists variant,
    fst (selectedVariant sample_source 3%nat) = Some variant
    /\ In variant designVariants
    /\ List.length variant = 5%nat.
Proof.
  exact (selectedVariant_is_defined sample_source sample_source_unit 3%nat).
Defined.

(** X2.  The shuffle of the palette (the loop from the last index down to
    1, swapping with a random index not above the current one) only
    permutes the colours, every index it draws being in bounds; so the five
    colours kept for the disc are five different colours of the palette. *)
Theorem randomPathColors_are_distinct_palette_colours
        (src : Source) (Hsrc : unit_source src) (k : nat) :
  Permutation (fst (shuffled palette src k)) palette
  /\ (forall i k', (fst (randomIndex (i + 1) src k') <= i)%nat)
  /\ List.length (fst (randomPathColors src k)) = 5%nat
  /\ NoDup (fst (randomPathColors src k))
  /\ (forall c, In c (fst (randomPathColors src k)) -> In c palette).
Proof.
  pose proof (shuffleLoop_perm src (List.length palette - 1) palette k) as Hp.
  split; [exact Hp|].
  split.
  { intros i k'.
    destruct (randomIndex_bound src Hsrc (i + 1) k') as [H _]; lia. }
  unfold randomPathColors, bind, ret. fold (shuffled palette src k) in Hp.
  destruct (shuffled palette src k) as [available k1]. cbn [fst] in *.
  assert (Hnd : NoDup available).
  { eapply Permutation_NoDup; [apply Permutation_sym; exact Hp|].
    apply NoDup_palette. }
  split; [|split].
  - rewrite length_firstn. rewrite (Permutation_length Hp). reflexivity.
  - rewrite <- (firstn_skipn 5 available) in Hnd.
    eapply NoDup_app_remove_r; exact Hnd.
  - intros c Hc. eapply Permutation_in; [exact Hp|].
    rewrite <- (firstn_skipn 5 available). apply in_or_app. now left.
Qed.

Lemma randomPathColors_are_distinct_palette_colours_witness :
  NoDup (fst (randomPathColors sample_source 0%nat)).
Proof.
  exact (proj1 (proj2 (proj2 (proj2
           (randomPathColors_are_distinct_palette_colours
              sample_source sample_source_unit 0%nat))))).
Defined.

Lemma Math_max_spec (a b : Q) :
  (a <= b /\ Math_max a b = b) \/ (b < a /\ Math_max a b = a).
Proof.
  unfold Math_max. destruct (Qle_bool a b) eqn:E.
  - left. split; [now apply Qle_bool_iff | reflexivity].
  - right. split; [|reflexivity].
    apply Qnot_le_lt. intro H. apply Qle_bool_iff in H. congruence.
Qed.

Lemma Math_min_spec (a b : Q) :
  (a <= b /\ Math_min a b = a) \/ (b < a /\ Math_min a b = b).
Proof.
  unfold Math_min. destruct (Qle_bool a b) eqn:E.
  - left. split; [now apply Qle_bool_iff | reflexivity].
  - right. split; [|reflexivity].
    apply Qnot_le_lt. intro H. apply Qle_bool_iff in H. congruence.
Qed.

Lemma control_keeps_position (c : Control) (p : Player) :
  admissible (duration p) c -> positionInClip p ->
  positionInClip (control c p) /\ duration (control c p) = duration p.
Proof.
  intros Hc ((H0 & H1) & (H2 & H3)). unfold positionInClip.
  destruct c as [| | |value| |position]; cbn [control].
  - unfold togglePlayPause. destruct (isPlaying p);
      cbn [audio_currentTime duration currentTime]; auto.
  - unfold skipBack. cbn [audio_currentTime duration currentTime].
    destruct (Math_max_spec (audio_currentTime p - 10) 0) as [[Hle ->]|[Hlt ->]];
      repeat split; lra.
  - unfold skipForward. cbn [audio_currentTime duration currentTime].
    destruct (Math_min_spec (audio_currentTime p + 10) (duration p))
      as [[Hle ->]|[Hlt ->]]; repeat split; lra.
  - unfold seek. cbn [audio_currentTime duration currentTime].
    cbn [admissible] in Hc. destruct Hc as [Hv0 Hv1].
    assert (Hd : 0 <= duration p) by lra.
    assert (Hq0 : 0 <= value / 100) by (apply Qle_shift_div_l; lra).
    assert (Hq1 : value / 100 <= 1) by (apply Qle_shift_div_r; lra).
    assert (Hlo : 0 <= value / 100 * duration p)
      by (apply Qmult_le_0_compat; assumption).
    assert (Hhi : value / 100 * duration p <= duration p).
    { setoid_replace (duration p) with (1 * duration p) at 2 by ring.
      apply Qmult_le_compat_r; assumption. }
    auto.
  - unfold handleTimeUpdate. cbn [audio_currentTime duration currentTime].
    auto.
  - unfold playback. cbn [admissible] in Hc.
    destruct (audio_paused p);
      cbn [audio_currentTime duration currentTime]; auto.
Qed.

(** X3.  The clip has a known duration, and the position of the audio
    element and the displayed time both lie inside it.  Then whatever
    sequence of play/pause, skip back, skip forward, slider moves (the
    slider ranging over 0 .. 100), [timeupdate] events and playback (which
    keeps the position of the element inside the clip) follows, both stay
    inside the clip and the duration is untouched: skipping and seeking
    never leave [0, duration].  Right after a skip, a slider move or a
    [timeupdate] the displayed time is the position of the element;
    playback moves the element alone, the display following with the next
    [timeupdate]. *)
Theorem player_controls_keep_position_in_clip
        (cs : list Control) (p : Player)
        (Hrange : Forall (admissible (duration p)) cs)
        (Hpos : positionInClip p) :
  positionInClip (controls cs p)
  /\ duration (controls cs p) = duration p
  /\ (forall c, showsPosition c = true ->
        currentTime (control c (controls cs p))
        = audio_currentTime (control c (controls cs p)))
  /\ (forall position,
        audio_paused (controls cs p) = false ->
        let p' := control (Played position) (controls cs p) in
        audio_currentTime p' = position
        /\ currentTime p' = currentTime (controls cs p)
        /\ currentTime (control TimeUpdated p') = position).
Proof.
  split; [|split; [|split]].
  - revert p Hpos Hrange. induction cs as [|c cs IH]; intros p Hpos Hrange.
    + exact Hpos.
    + cbn [controls]. inversion Hrange as [|c' cs' Hc Hcs]; subst.
      destruct (control_keeps_position c p Hc Hpos) as [Hpos' Hd].
      apply IH; [exact Hpos'|]. now rewrite Hd.
  - revert p Hpos Hrange. induction cs as [|c cs IH]; intros p Hpos Hrange.
    + reflexivity.
    + cbn [controls]. inversion Hrange as [|c' cs' Hc Hcs]; subst.
      destruct (control_keeps_position c p Hc Hpos) as [Hpos' Hd].
      rewrite IH; [exact Hd | exact Hpos' | now rewrite Hd].
  - intros c Hc. destruct c; try discriminate; reflexivity.
  - intros position Hplaying p'. subst p'. cbn [control].
    unfold playback. rewrite Hplaying.
    repeat split; reflexivity.
Qed.

Lemma player_controls_keep_position_in_clip_witness :
  positionInClip
    (controls [SkipBackClicked; SliderMoved 50; SkipForwardClicked;
               PlayPauseClicked; Played 70; TimeUpdated; SkipForwardClicked]
              sample_player).
Proof.
  refine (proj1 (player_controls_keep_position_in_clip _ sample_player _ _)).
  - repeat constructor; cbn; lra.
  - unfold positionInClip, sample_player; cbn. lra.
Defined.

End MusicPlayerProperties.

Section FormatTime.
Import MusicPlayer.
Local Open Scope Q_scope.







End FormatTime.

(* ------------------------------------------------------------------ *)
(** ** The level meter and the mute button of the modal *)

Section LevelMeter.
Import ModalControls.
Local Open Scope Q_scope.

Lemma byteValue_range (d : byte) : 0 <= byteValue d /\ byteValue d <= 255.
Proof.
  unfold byteValue. pose proof (Byte.to_N_bounded d) as H.
  split.
  - change 0 with (inject_Z 0). rewrite <- Zle_Qle. lia.
  - change 255 with (inject_Z 255). rewrite <- Zle_Qle. lia.
Qed.

Lemma normalized_range (d : byte) :
  0 <= Qabs ((byteValue d - 128) / 128)
  /\ Qabs ((byteValue d - 128) / 128) <= 1.
Proof.
  destruct (byteValue_range d) as [H0 H1].
  split; [apply Qabs_nonneg|].
  apply Qabs_Qle_condition. split.
  - apply Qle_shift_div_l; lra.
  - apply Qle_shift_div_r; lra.
Qed.

Lemma level_sum_range (dataArray : list byte) :
  forall acc,
    let sum := fold_left (fun sum d => sum + Qabs ((byteValue d - 128) / 128))
                         dataArray acc in
    acc <= sum /\ sum <= acc + inject_Z (Z.of_nat (List.length dataArray)).
Proof.
  induction dataArray as [|d rest IH]; intro acc; cbn [fold_left List.length].
  - cbv zeta. change (inject_Z (Z.of_nat 0)) with 0. split; lra.
  - destruct (normalized_range d) as [H0 H1].
    destruct (IH (acc + Qabs ((byteValue d - 128) / 128))) as [Hlo Hhi].
    rewrite Nat2Z.inj_succ. unfold Z.succ. rewrite inject_Z_plus.
    change (inject_Z 1) with 1. cbv zeta in *. split; lra.
Qed.

(** X6.  For every non-empty buffer of bytes the level computed by
    [monitorAudioLevel] lies in [0, 1], and the width of the level bar,
    [Math.min(audioLevel * 150, 100)], lies in [0, 100] and is 100 from
    level 2/3 on. *)
Theorem audioLevel_in_unit_interval
        (dataArray : list byte) (Hdata : dataArray <> []) :
  0 <= audioLevel dataArray /\ audioLevel dataArray <= 1
  /\ 0 <= levelBarWidth (audioLevel dataArray)
  /\ levelBarWidth (audioLevel dataArray) <= 100
  /\ ((2 # 3) <= audioLevel dataArray ->
      levelBarWidth (audioLevel dataArray) == 100).
Proof.
  assert (Hn : 0 < inject_Z (Z.of_nat (List.length dataArray))).
  { change 0 with (inject_Z 0). rewrite <- Zlt_Qlt.
    destruct dataArray; [contradiction | cbn [List.length]; lia]. }
  destruct (level_sum_range dataArray 0) as [Hlo Hhi]. cbv zeta in *.
  assert (H0 : 0 <= audioLevel dataArray).
  { unfold audioLevel. apply Qle_shift_div_l; [exact Hn | lra]. }
  assert (H1 : audioLevel dataArray <= 1).
  { unfold audioLevel. apply Qle_shift_div_r; [exact Hn | lra]. }
  split; [exact H0|]. split; [exact H1|].
  unfold levelBarWidth.
  destruct (Math_min_spec (audioLevel dataArray * 150) 100)
    as [[Hle ->]|[Hlt ->]]; repeat split; intros; lra.
Qed.

Lemma audioLevel_in_unit_interval_witness :
  0 <= audioLevel sample_data /\ audioLevel sample_data <= 1.
Proof.
  assert (H : sample_data <> []) by discriminate.
  destruct (audioLevel_in_unit_interval sample_data H) as (H0 & H1 & _).
  split; assumption.
Defined.

Lemma iter_toggle_succ (n : nat) (m : Mute) :
  Nat.iter (S n) toggleMute m = toggleMute (Nat.iter n toggleMute m).
Proof. reflexivity. Qed.

Lemma toggleMute_stream (m : Mute) (tracks : list Track) :
  mediaStream m = Some tracks ->
  toggleMute m
  = mkMute (negb (isMuted m))
      (Some (map (fun t => if isAudio t
                           then mkTrack (kind t) (negb (negb (isMuted m)))
                           else t) tracks)).
Proof. intro H. unfold toggleMute. now rewrite H. Qed.

Lemma iter_toggle_stream (n : nat) (m : Mute) (tracks : list Track) :
  mediaStream m = Some tracks ->
  exists tracks',
    mediaStream (Nat.iter n toggleMute m) = Some tracks'
    /\ isMuted (Nat.iter n toggleMute m)
       = (if Nat.even n then isMuted m else negb (isMuted m))
    /\ map kind tracks' = map kind tracks
    /\ ((0 < n)%nat ->
        forall t, In t tracks' -> isAudio t = true ->
                  enabled t = negb (isMuted (Nat.iter n toggleMute m)))
    /\ (forall i t t', nth_error tracks i = Some t ->
                       nth_error tracks' i = Some t' ->
                       isAudio t = false -> t' = t).
Proof.
  intro Hs. induction n as [|n IH].
  - exists tracks. cbn [Nat.iter Nat.even]. repeat split; auto.
    + intro H. lia.
    + intros i t t' H1 H2 _. congruence.
  - destruct IH as (tr & Htr & Hm & Hk & _ & Hv).
    assert (Ht : toggleMute (Nat.iter n toggleMute m)
                 = mkMute (negb (isMuted (Nat.iter n toggleMute m)))
                     (Some (map (fun t =>
                                   if isAudio t
                                   then mkTrack (kind t)
                                          (negb (negb (isMuted
                                             (Nat.iter n toggleMute m))))
                                   else t) tr)))
      by (now apply toggleMute_stream).
    rewrite iter_toggle_succ, Ht.
    eexists. split; [reflexivity|]. cbn [isMuted mediaStream].
    split; [|split; [|split]].
    + rewrite Hm. rewrite Nat.even_succ, <- Nat.negb_even.
      destruct (Nat.even n), (isMuted m); reflexivity.
    + rewrite <- Hk, map_map. apply map_ext. intro t.
      destruct (isAudio t); reflexivity.
    + intros _ t Hin Ha. apply in_map_iff in Hin.
      destruct Hin as (t0 & <- & _).
      destruct (isAudio t0) eqn:E; [reflexivity|].
      rewrite E in Ha. discriminate.
    + intros i t t' H1 H2 Ha.
      rewrite nth_error_map in H2.
      destruct (nth_error tr i) as [t0|] eqn:E0; [|discriminate].
      cbn [option_map] in H2. injection H2 as <-.
      pose proof (Hv i t t0 H1 E0 Ha) as ->. now rewrite Ha.
Qed.

(** X7.  The mute button.  Without a stream it does nothing.  With a stream,
    after any number n >= 1 of clicks every audio track is enabled exactly
    when the mute flag is off, the flag has flipped n times, the tracks keep
    their kinds, and a track that is not an audio track is left alone. *)
Theorem toggleMute_keeps_tracks_and_flag_in_step (n : nat) (m : Mute) :
  (mediaStream m = None -> Nat.iter n toggleMute m = m)
  /\ (forall tracks,
        mediaStream m = Some tracks ->
        exists tracks',
          mediaStream (Nat.iter n toggleMute m) = Some tracks'
          /\ isMuted (Nat.iter n toggleMute m)
             = (if Nat.even n then isMuted m else negb (isMuted m))
          /\ map kind tracks' = map kind tracks
          /\ ((0 < n)%nat ->
              forall t, In t tracks' -> isAudio t = true ->
                        enabled t = negb (isMuted (Nat.iter n toggleMute m)))
          /\ (forall i t t', nth_error tracks i = Some t ->
                             nth_error tracks' i = Some t' ->
                             isAudio t = false -> t' = t)).
Proof.
  split.
  - intro Hs. induction n as [|n IH]; [reflexivity|].
    rewrite iter_toggle_succ, IH. unfold toggleMute. now rewrite Hs.
  - intros tracks Hs. now apply iter_toggle_stream.
Qed.

Lemma toggleMute_keeps_tracks_and_flag_in_step_witness :
  Nat.iter 3 toggleMute (mkMute false None) = mkMute false None
  /\ isMuted (Nat.iter 3 toggleMute
                       (mkMute false (Some [mkTrack audioTrack true])))
     = true.
Proof.
  split.
  - exact (proj1 (toggleMute_keeps_tracks_and_flag_in_step
                    3 (mkMute false None)) eq_refl).
  - destruct (proj2 (toggleMute_keeps_tracks_and_flag_in_step
                       3 (mkMute false (Some [mkTrack audioTrack true])))
                    _ eq_refl) as (tr & _ & Hm & _).
    exact Hm.
Defined.

End LevelMeter.

(* ------------------------------------------------------------------ *)
(** ** The timeline chart *)

Section Rounding.
Import TimelineChart.
Local Open Scope Q_scope.

(** Two decimals, on a number that is not negative: at most half a
    hundredth away, and still not negative. *)
Lemma toFixed2_near (x : Q) :
  0 <= x -> roundedFrom (toFixed2 x) x /\ 0 <= toFixed2 x.
Proof.
  intro Hx. unfold toFixed2, roundedFrom.
  apply Qle_bool_iff in Hx as E. rewrite E.
  pose proof (Qfloor_le (x * 100 + (1 # 2))) as Hlo.
  pose proof (Qlt_floor (x * 100 + (1 # 2))) as Hhi.
  rewrite inject_Z_plus in Hhi. change (inject_Z 1) with 1 in Hhi.
  assert (Hn : (0 <= Qfloor (x * 100 + (1 # 2)))%Z)
    by (apply Qfloor_nonneg; lra).
  rewrite Zle_Qle in Hn. change (inject_Z 0) with 0 in Hn.
  set (n := inject_Z (Qfloor (x * 100 + (1 # 2)))) in *.
  assert (Hd : n / 100 == n * (1 # 100)) by (field; discriminate).
  repeat split; lra.
Qed.

Lemma toFixed2_unit (x : Q) :
  0 <= x -> x <= 1 -> 0 <= toFixed2 x /\ toFixed2 x <= 1.
Proof.
  intros H0 H1. destruct (toFixed2_near x H0) as [_ Hn]. split; [exact Hn|].
  unfold toFixed2. apply Qle_bool_iff in H0 as E. rewrite E.
  assert (Hf : (Qfloor (x * 100 + (1 # 2)) < 101)%Z)
    by (apply Qfloor_lt_Z; change (inject_Z 101) with 101; lra).
  assert (Hf' : (Qfloor (x * 100 + (1 # 2)) <= 100)%Z) by lia.
  rewrite Zle_Qle in Hf'. change (inject_Z 100) with 100 in Hf'.
  apply Qle_shift_div_r; lra.
Qed.

End Rounding.

Section TimelineChartProperties.
Import Actions Page TimelineChart.
Local Open Scope Q_scope.

Variable num : Q -> string.

Lemma data_None_iff (l : list (option ServerSegment)) :
  data num l = None <-> In None l.
Proof.
  induction l as [|[seg|] rest IH]; cbn [data In].
  - split; [discriminate | contradiction].
  - destruct (data num rest) eqn:E; cbn [option_map].
    + split; [discriminate|]. intros [H|H]; [discriminate|].
      apply IH in H. discriminate.
    + split; [|reflexivity]. intros _. right. now apply IH.
  - split; [now left | reflexivity].
Qed.

Lemma data_defined (segs : list ServerSegment) :
  data num (map Some segs) = Some (map (row num) segs).
Proof.
  induction segs as [|seg segs IH]; cbn [map data]; [reflexivity|].
  now rewrite IH.
Qed.

Lemma sumFrom_None_iff (l : list (option ServerSegment)) :
  forall acc, sumFrom acc l = None <-> In None l.
Proof.
  induction l as [|[seg|] rest IH]; intro acc; cbn [sumFrom In].
  - split; [discriminate | contradiction].
  - rewrite IH. split; [now right|]. intros [H|H]; [discriminate | exact H].
  - split; [now left | reflexivity].
Qed.

(** The accumulated sums are the sums of the three columns, and lie between
    0 and the number of segments when every value lies in [0, 1]. *)
Lemma sumFrom_defined (segs : list ServerSegment) :
  forall acc,
    exists sum,
      sumFrom acc (map Some segs) = Some sum
      /\ avgValence sum == avgValence acc + fold_right Qplus 0 (map valence segs)
      /\ avgArousal sum == avgArousal acc + fold_right Qplus 0 (map arousal segs)
      /\ avgDominance sum
         == avgDominance acc + fold_right Qplus 0 (map dominance segs).
Proof.
  induction segs as [|seg segs IH]; intro acc; cbn [map sumFrom fold_right].
  - exists acc. repeat split; ring.
  - destruct (IH (mkAverages (avgValence acc + valence seg)
                             (avgArousal acc + arousal seg)
                             (avgDominance acc + dominance seg)))
      as (sum & Hs & Hv & Ha & Hd).
    cbn [avgValence avgArousal avgDominance] in *.
    exists sum. split; [exact Hs|]. repeat split; lra.
Qed.

Lemma column_sum_range (f : ServerSegment -> Q) (segs : list ServerSegment) :
  Forall (fun seg => 0 <= f seg /\ f seg <= 1) segs ->
  0 <= fold_right Qplus 0 (map f segs)
  /\ fold_right Qplus 0 (map f segs) <= inject_Z (Z.of_nat (List.length segs)).
Proof.
  induction 1 as [|seg segs [H0 H1] _ [IH0 IH1]]; cbn [map fold_right List.length].
  - change (inject_Z (Z.of_nat 0)) with 0. split; lra.
  - rewrite Nat2Z.inj_succ. unfold Z.succ. rewrite inject_Z_plus.
    change (inject_Z 1) with 1. split; lra.
Qed.

(** An average of values of [0, 1], rounded to two decimals. *)
Lemma rounded_mean_range (total sum colsum : Q) :
  0 < total -> sum == colsum -> 0 <= colsum -> colsum <= total ->
  (0 <= toFixed2 (sum / total) /\ toFixed2 (sum / total) <= 1)
  /\ roundedFrom (toFixed2 (sum / total)) (colsum / total).
Proof.
  intros Ht Hs H0 H1.
  assert (Hq0 : 0 <= sum / total) by (apply Qle_shift_div_l; lra).
  assert (Hq1 : sum / total <= 1) by (apply Qle_shift_div_r; lra).
  split; [now apply toFixed2_unit|].
  destruct (toFixed2_near (sum / total) Hq0) as [[Ha Hb] _].
  assert (He : sum / total == colsum / total) by (now rewrite Hs).
  unfold roundedFrom. split; lra.
Qed.

Lemma chart_None_iff (l : list (option ServerSegment)) :
  chart num l = None <-> In None l.
Proof.
  unfold chart.
  destruct (data num l) as [rows|] eqn:Ed.
  - destruct (sumFrom (mkAverages 0 0 0) l) as [sum|] eqn:Es.
    + split; [discriminate|]. intro H. apply data_None_iff in H. congruence.
    + split; [intros _|reflexivity]. now apply sumFrom_None_iff in Es.
  - split; [intros _|reflexivity]. now apply data_None_iff in Ed.
Qed.

(** X8.  The chart is computed exactly when no element of
    [animatedSegments] is undefined.  On defined segments there is one row
    per segment, in order; with every value in [0, 1] the three averages
    shown lie in [0, 1] and are within 0.005 of the true means; on the empty
    list the averages are 0 (the guard on [total]). *)
Theorem timeline_chart_rows_and_averages
        (segs : list ServerSegment) (Hunit : Forall unitSegment segs) :
  (forall l, chart num l = None <-> In None l)
  /\ exists averages,
      chart num (map Some segs) = Some (map (row num) segs, averages)
      /\ unitAverages averages
      /\ (segs = [] -> averages = mkAverages 0 0 0)
      /\ (segs <> [] ->
          roundedFrom (avgValence averages) (mean (map valence segs))
          /\ roundedFrom (avgArousal averages) (mean (map arousal segs))
          /\ roundedFrom (avgDominance averages) (mean (map dominance segs))).
Proof.
  split; [apply chart_None_iff|].
  unfold chart. rewrite data_defined.
  destruct (sumFrom_defined segs (mkAverages 0 0 0)) as (sum & Hs & Hv & Ha & Hd).
  rewrite Hs. rewrite length_map. cbn [avgValence avgArousal avgDominance] in *.
  eexists. split; [reflexivity|].
  destruct segs as [|seg0 rest].
  - cbn. split; [|split; [reflexivity | intro H; contradiction]].
    unfold unitAverages; cbn [avgValence avgArousal avgDominance].
    repeat split; lra.
  - assert (Hlen : Nat.ltb 0 (List.length (seg0 :: rest)) = true)
      by reflexivity.
    set (segs := seg0 :: rest) in *.
    assert (Ht : 0 < inject_Z (Z.of_nat (List.length segs))).
    { change 0 with (inject_Z 0). rewrite <- Zlt_Qlt.
      apply Nat.ltb_lt in Hlen. lia. }
    unfold averagesOf. rewrite Hlen.
    assert (Huv : Forall (fun seg => 0 <= valence seg /\ valence seg <= 1) segs)
      by (eapply Forall_impl; [|exact Hunit]; intros s (H & _ & _); exact H).
    assert (Hua : Forall (fun seg => 0 <= arousal seg /\ arousal seg <= 1) segs)
      by (eapply Forall_impl; [|exact Hunit]; intros s (_ & H & _); exact H).
    assert (Hud : Forall (fun seg => 0 <= dominance seg /\ dominance seg <= 1) segs)
      by (eapply Forall_impl; [|exact Hunit]; intros s (_ & _ & H); exact H).
    destruct (column_sum_range valence segs Huv) as [Hv0 Hv1].
    destruct (column_sum_range arousal segs Hua) as [Ha0 Ha1].
    destruct (column_sum_range dominance segs Hud) as [Hd0 Hd1].
    destruct (rounded_mean_range _ (avgValence sum) _ Ht
                ltac:(rewrite Hv; ring) Hv0 Hv1) as [Rv Nv].
    destruct (rounded_mean_range _ (avgArousal sum) _ Ht
                ltac:(rewrite Ha; ring) Ha0 Ha1) as [Ra Na].
    destruct (rounded_mean_range _ (avgDominance sum) _ Ht
                ltac:(rewrite Hd; ring) Hd0 Hd1) as [Rd Nd].
    split; [|split].
    + unfold unitAverages; cbn [avgValence avgArousal avgDominance]. auto.
    + intro H. discriminate.
    + intros _. cbn [avgValence avgArousal avgDominance].
      unfold mean. rewrite !length_map. auto.
Qed.

End TimelineChartProperties.

Section TimelineChartRuns.
Import Actions Page TimelineChart.
Local Open Scope Q_scope.

Lemma sample_segments_unit : Forall unitSegment (segments sample_analysis).
Proof.
  repeat constructor; cbn; lra.
Defined.

Lemma timeline_chart_rows_and_averages_witness :
  exists averages,
    chart Helpers.sample_num (map Some (segments sample_analysis))
    = Some (map (row Helpers.sample_num) (segments sample_analysis), averages)
    /\ unitAverages averages.
Proof.
  destruct (proj2 (timeline_chart_rows_and_averages
                     Helpers.sample_num (segments sample_analysis)
                     sample_segments_unit))
    as (averages & Hc & Hu & _).
  exists averages. split; assumption.
Defined.

(** X9.  The chart after [animateSegments], the list of the page having
    no undefined element before.  Computing the chart of the finished view
    throws exactly when the analysis returned no segment or the function
    of the last tick was run in the render after the tick, where it reads
    one past the end of the list and appends undefined.  When the analysis
    returned segments, the list was empty before and every function was
    run at the call, the chart has exactly one row per returned segment, in
    the order of the answer. *)
Theorem chart_after_animateSegments
        (num : Q -> string) (s : State) (segs : list ServerSegment)
        (runs : nat -> React.UpdaterRun) :
  let final :=
    fst (runInterval (runsOf runs 0 (ticksOf segs)) segs 0 s) in
  stage final = finished
  /\ (~ In None (animatedSegments s) ->
      (chart num (animatedSegments final) = None
       <-> segs = [] \/ runs (ticksOf segs - 1)%nat = React.AtRender))
  /\ (animatedSegments s = [] -> segs <> [] ->
      exists averages,
        chart num
              (animatedSegments
                 (fst (runInterval (runsOf React.allAtCall 0 (ticksOf segs))
                                   segs 0 s)))
        = Some (map (row num) segs, averages)).
Proof.
  intro final. subst final. rewrite !runInterval_all. cbn [fst].
  split; [reflexivity|]. split.
  - intro Hdef. rewrite chart_None_iff.
    cbn [setStage setAnimatedSegments animatedSegments].
    rewrite in_app_iff, In_None_appendedBy. tauto.
  - intros Hempty Hne.
    cbn [setStage setAnimatedSegments animatedSegments]. rewrite Hempty.
    cbn [List.app]. unfold ticksOf.
    replace (Nat.max 1 (List.length segs)) with (List.length segs)
      by (destruct segs; [contradiction | cbn [List.length]; lia]).
    rewrite appendedBy_atCall.
    unfold chart. rewrite data_defined.
    destruct (sumFrom_defined segs (mkAverages 0 0 0)) as (sum & Hs & _).
    rewrite Hs. eexists. reflexivity.
Qed.

Lemma chart_after_animateSegments_witness :
  chart Helpers.sample_num
        (animatedSegments
           (fst (runInterval (runsOf React.allAtRender 0
                                     (ticksOf (segments sample_analysis)))
                             (segments sample_analysis) 0 initialState)))
  = None.
Proof.
  apply (proj1 (proj2 (chart_after_animateSegments
                         Helpers.sample_num initialState
                         (segments sample_analysis) React.allAtRender))).
  - cbn. tauto.
  - right. reflexivity.
Defined.

End TimelineChartRuns.

(* ------------------------------------------------------------------ *)
(** ** The floating notes *)

Section Notes.
Import SpeakerWithWaves.

Lemma removeNote_absent (noteId : string) (notes : list MusicNoteData) :
  (forall note, In note notes -> id note <> noteId) ->
  removeNote noteId notes = notes.
Proof.
  intro H. unfold removeNote. apply forallb_filter_id.
  apply forallb_forall. intros note Hin.
  apply negb_true_iff, String.eqb_neq. now apply H.
Qed.

(** X10.  A note added with an id no other note carries and removed again
    leaves the list as it was; after a removal no note has the removed id,
    the other notes are all still there in their order, and removing the
    same id a second time (the timer and the end of the transition both do
    it) changes nothing. *)
Theorem note_added_then_removed
        (newNote : MusicNoteData) (prev : list MusicNoteData)
        (Hfresh : forall note, In note prev -> id note <> id newNote) :
  removeNote (id newNote) (addNote newNote prev) = prev
  /\ (forall noteId notes,
        (forall note, In note (removeNote noteId notes) -> id note <> noteId)
        /\ (forall note, In note notes -> id note <> noteId ->
                         In note (removeNote noteId notes))
        /\ removeNote noteId (removeNote noteId notes) = removeNote noteId notes
        /\ (forall other,
              removeNote noteId (removeNote other notes)
              = removeNote other (removeNote noteId notes))).
Proof.
  split.
  - unfold addNote, removeNote. rewrite filter_app. cbn [filter].
    rewrite String.eqb_refl. cbn [negb]. rewrite app_nil_r.
    now apply removeNote_absent.
  - intros noteId notes. split; [|split; [|split]].
    + intros note Hin. unfold removeNote in Hin.
      apply filter_In in Hin. destruct Hin as [_ Hb].
      now apply negb_true_iff, String.eqb_neq in Hb.
    + intros note Hin Hne. unfold removeNote. apply filter_In.
      split; [exact Hin|]. now apply negb_true_iff, String.eqb_neq.
    + apply removeNote_absent. intros note Hin.
      unfold removeNote in Hin. apply filter_In in Hin.
      destruct Hin as [_ Hb]. now apply negb_true_iff, String.eqb_neq in Hb.
    + intro other. unfold removeNote.
      induction notes as [|n notes IH]; [reflexivity|]. cbn [filter].
      destruct (negb (String.eqb (id n) other)) eqn:E1,
               (negb (String.eqb (id n) noteId)) eqn:E2;
        cbn [filter]; rewrite ?E1, ?E2, IH; reflexivity.
Qed.

Lemma note_added_then_removed_witness :
  removeNote (id sample_note2) (addNote sample_note2 [sample_note])
  = [sample_note].
Proof.
  refine (proj1 (note_added_then_removed sample_note2 [sample_note] _)).
  intros note [<-|[]]. cbn. discriminate.
Defined.

End Notes.

(* ------------------------------------------------------------------ *)
(** ** The predicted genre of the simulation *)

Section TopGenre.
Import Simulation SimulationView.
Local Open Scope Q_scope.

Lemma fold_top (l : list GenrePrediction) :
  forall m,
    let top := fold_left (fun max g => if Qltb (score max) (score g) then g else max)
                         l m in
    (top = m /\ forall g, In g l -> score g <= score m)
    \/ (exists before after,
           l = before ++ top :: after
           /\ score m < score top
           /\ (forall g, In g before -> score g < score top)
           /\ (forall g, In g after -> score g <= score top)).
Proof.
  induction l as [|g l IH]; intro m; cbn [fold_left]; cbv zeta.
  - left. split; [reflexivity | intros g []].
  - destruct (Qltb (score m) (score g)) eqn:E.
    + apply Qltb_lt in E. right.
      destruct (IH g) as [[Ht Hall]|(b & a & Hl & Hlt & Hb & Ha)]; cbv zeta in *.
      * exists [], l. rewrite Ht. cbn [List.app].
        repeat split; auto. intros x [].
      * exists (g :: b), a. rewrite Hl at 1. cbn [List.app].
        repeat split; auto; try lra.
        intros x [<-|Hx]; [exact Hlt | now apply Hb].
    + apply Qltb_ge in E.
      destruct (IH m) as [[Ht Hall]|(b & a & Hl & Hlt & Hb & Ha)]; cbv zeta in *.
      * left. split; [exact Ht|]. intros x [<-|Hx]; [exact E | now apply Hall].
      * right. exists (g :: b), a. rewrite Hl at 1. cbn [List.app].
        repeat split; auto.
        intros x [<-|Hx]; [lra | now apply Hb].
Qed.

(** X11.  [topGenre] is [null] exactly on the empty list.  Otherwise it is
    the first genre of the list with the highest score: every genre before
    it has a strictly lower score and no genre after it has a higher one. *)
Theorem topGenre_is_first_maximum (genres : list GenrePrediction) :
  (topGenre genres = None <-> genres = [])
  /\ (genres <> [] ->
      exists top before after,
        topGenre genres = Some top
        /\ genres = before ++ top :: after
        /\ (forall g, In g before -> score g < score top)
        /\ (forall g, In g after -> score g <= score top)).
Proof.
  split.
  - destruct genres; cbn [topGenre]; split; intro H;
      try reflexivity; discriminate.
  - intro Hne. destruct genres as [|g0 rest]; [contradiction|].
    cbn [topGenre].
    destruct (fold_top (g0 :: rest) g0) as [[Ht Hall]|(b & a & Hl & Hlt & Hb & Ha)];
      cbv zeta in *.
    + eexists. exists [], rest. split; [reflexivity|]. rewrite Ht.
      cbn [List.app]. repeat split; auto.
      * intros g [].
      * intros g Hg. apply Hall. now right.
    + eexists. exists b, a. split; [reflexivity|]. auto.
Qed.

Lemma topGenre_is_first_maximum_witness :
  exists top before after,
    topGenre sample_genres = Some top
    /\ sample_genres = before ++ top :: after
    /\ (forall g, In g before -> score g < score top)
    /\ (forall g, In g after -> score g <= score top).
Proof.
  apply (proj2 (topGenre_is_first_maximum sample_genres)). discriminate.
Defined.

End TopGenre.

(* ------------------------------------------------------------------ *)
(** ** Runs of the page *)

Section PageRuns.
Import React Actions Page.
Local Open Scope nat_scope.

Variable validateStatus : Z -> bool.

Lemma run_app (evs1 evs2 : list Event) :
  forall s, run validateStatus (evs1 ++ evs2) s
            = run validateStatus evs2 (run validateStatus evs1 s).
Proof.
  induction evs1 as [|ev evs1 IH]; intro s; cbn [List.app run];
    [reflexivity | apply IH].
Qed.

(** The ticks of the only pending interval from [idx] to the one that
    stops it. *)
Lemma run_ticks_to_end (runs : nat -> UpdaterRun) (segs : list ServerSegment)
      (r : nat) :
  forall idx s,
    tasks s = [SegmentInterval segs idx] ->
    Nat.max 1 (List.length segs - idx) = S r ->
    run validateStatus (intervalTicks runs idx (S r)) s
    = setTasks []
        (setStage finished
           (setAnimatedSegments
              (animatedSegments s ++ appendedBy runs segs idx (S r)) s)).
Proof.
  unfold intervalTicks.
  induction r as [|r IH]; intros idx s Htk Hr;
    destruct s as [st rec upl modal song artist srv anim gen err tk];
    cbn [tasks] in Htk; subst tk.
  - cbn [runsOf appendedBy seq map run step tasks nth_error].
    rewrite intervalTick_last by lia. reflexivity.
  - rewrite runsOf_succ, appendedBy_succ. cbn [map run].
    cbn [step tasks nth_error]. unfold intervalTick.
    replace (Nat.leb (List.length segs) (S idx)) with false
      by (symmetry; apply Nat.leb_gt; lia).
    cbn [tasks setAnimatedSegments animatedSegments setTasks replaceAt
         stage recordedAudioUrl uploadedAudioUrl showRecordModal songName
         artistName serverSegments predictedGenre error].
    rewrite (IH (S idx)); [|reflexivity|lia].
    cbn [animatedSegments setTasks setAnimatedSegments setStage
         stage recordedAudioUrl uploadedAudioUrl showRecordModal songName
         artistName serverSegments predictedGenre error tasks].
    rewrite <- app_assoc. reflexivity.
Qed.

(** All the ticks of an interval armed on [segs]. *)
Lemma run_all_ticks (runs : nat -> UpdaterRun) (segs : list ServerSegment)
      (s : State) :
  tasks s = [SegmentInterval segs 0] ->
  run validateStatus (intervalTicks runs 0 (ticksOf segs)) s
  = setTasks []
      (setStage finished
         (setAnimatedSegments
            (animatedSegments s ++ appendedBy runs segs 0 (ticksOf segs)) s)).
Proof.
  intro Htk. unfold ticksOf.
  destruct (Nat.max 1 (List.length segs)) as [|r] eqn:E; [lia|].
  apply run_ticks_to_end; [exact Htk | lia].
Qed.

Hypothesis H200 : validateStatus 200%Z = true.

(** The page when the 2 s timer of a chosen audio file has fired. *)
Lemma run_to_processing (s : State) (file : File) (body : Analysis) :
  stage s = idle -> tasks s = [] ->
  String.prefix "audio/" (type file) = true ->
  run validateStatus
      [ FileChosen (Some [file]);
        AnalysisSettled 0 (Responded (mkResponse 200 body));
        TimerFired 0 ] s
  = setTasks [SegmentInterval (segments body) 0]
      (setStage processing
         (setPredictedGenre (Some (genre body))
            (setServerSegments (segments body)
               (setArtistName "Unknown"
                  (setSongName (name file) (setError None s)))))).
Proof.
  intros Hidle Hquiet Haudio.
  assert (Hbody : analyzeAudio validateStatus
                    (Responded (mkResponse 200 body)) = inl body).
  { apply analyzeAudio_ok_iff; [exact H200|].
    exists (mkResponse 200 body). repeat split; reflexivity. }
  destruct s as [st rec upl modal song artist srv anim gen err tk].
  cbn [stage tasks] in Hidle, Hquiet. subst st tk.
  cbn [run step stage stage_eqb stageIndex Nat.eqb handleFileUpload].
  rewrite Haudio. cbn -[analyzeAudio]. rewrite Hbody. reflexivity.
Qed.

End PageRuns.

Section PageRunProperties.
Import React Actions Page PageView.
Local Open Scope nat_scope.

(** X12.  One audio file chosen in idle with nothing pending and carried to
    the end: the page is in stage finished with nothing pending, holds the
    segments and the genre of the answer, shows no error and is named after
    the file.  [animatedSegments] has gained one element per tick, as many
    as the answer has segments (one for an empty answer): the element of
    tick i is segment i of the answer when the function of the tick was
    run at the call and segment i + 1 when it was run in the render after
    the tick, undefined past the end.  So with every function run at the
    call the page shows the segments of the answer, and with every
    function run in the render it shows them without the first one,
    followed by undefined.  The two audio URLs are what they were: the
    upload sets none. *)
Theorem complete_submission_final_state
        (validateStatus : Z -> bool) (H200 : validateStatus 200%Z = true)
        (s : State) (file : File) (body : Analysis) (runs : nat -> UpdaterRun)
        (Hidle : stage s = idle) (Hquiet : tasks s = [])
        (Haudio : String.prefix "audio/" (type file) = true) :
  let final := run validateStatus (singleSubmission file body runs) s in
  let gained := appendedBy runs (segments body) 0 (ticksOf (segments body)) in
  stage final = finished
  /\ tasks final = []
  /\ serverSegments final = segments body
  /\ predictedGenre final = Some (genre body)
  /\ error final = None
  /\ songName final = name file
  /\ artistName final = "Unknown"%string
  /\ animatedSegments final = animatedSegments s ++ gained
  /\ List.length gained = ticksOf (segments body)
  /\ (forall i, i < ticksOf (segments body) ->
        nth_error gained i
        = Some (nth_error (segments body)
                          (match runs i with AtCall => i | AtRender => S i end)))
  /\ (segments body <> [] ->
      appendedBy allAtCall (segments body) 0 (ticksOf (segments body))
      = map Some (segments body))
  /\ appendedBy allAtRender (segments body) 0 (ticksOf (segments body))
     = map Some (tl (segments body)) ++ [None]
  /\ recordedAudioUrl final = recordedAudioUrl s
  /\ uploadedAudioUrl final = uploadedAudioUrl s.
Proof.
  intros final gained. subst final gained. unfold singleSubmission.
  rewrite run_app.
  rewrite (run_to_processing validateStatus H200 s file body Hidle Hquiet Haudio).
  rewrite run_all_ticks by reflexivity.
  do 8 (split; [reflexivity|]).
  split; [apply appendedBy_length|].
  split.
  { intros i Hi. unfold appendedBy.
    rewrite nth_error_map, nth_error_seq.
    replace (Nat.ltb i (ticksOf (segments body))) with true
      by (symmetry; now apply Nat.ltb_lt).
    cbn [option_map Nat.add]. now destruct (runs i). }
  split.
  { intro Hne. unfold ticksOf.
    replace (Nat.max 1 (List.length (segments body)))
      with (List.length (segments body))
      by (destruct (segments body); [contradiction | cbn [List.length]; lia]).
    apply appendedBy_atCall. }
  split; [apply appendedBy_atRender|].
  split; reflexivity.
Qed.

Lemma complete_submission_final_state_witness :
  animatedSegments
    (run defaultValidateStatus
         (singleSubmission sample_audio sample_analysis allAtRender)
         initialState)
  = [nth_error (segments sample_analysis) 1; None].
Proof.
  destruct (complete_submission_final_state
              defaultValidateStatus eq_refl initialState sample_audio
              sample_analysis allAtRender eq_refl eq_refl eq_refl)
    as (_ & _ & _ & _ & _ & _ & _ & Ha & _).
  exact Ha.
Defined.

Lemma step_uploadedAudioUrl
      (validateStatus : Z -> bool) (ev : Event) (s : State) :
  uploadedAudioUrl s = None ->
  uploadedAudioUrl (step validateStatus ev s) = None.
Proof.
  intro H.
  destruct ev as [files| | |url|k blob|url blob|k t|k|k u|]; cbn [step].
  - destruct (stage_eqb (stage s) idle); [|exact H].
    destruct files as [[|file rest]|]; cbn [handleFileUpload]; try exact H.
    destruct (negb _); exact H.
  - destruct (stage_eqb (stage s) idle); exact H.
  - destruct (showRecordModal s); exact H.
  - destruct (showRecordModal s); exact H.
  - destruct (nth_error (tasks s) k) as [[| | |]|]; try exact H.
    destruct blob; exact H.
  - exact H.
  - destruct (nth_error (tasks s) k) as [[| | |]|]; try exact H.
    destruct (analyzeAudio validateStatus t); exact H.
  - destruct (nth_error (tasks s) k) as [[| | |]|]; exact H.
  - destruct (nth_error (tasks s) k) as [[|?|segs idx|?]|]; try exact H.
    unfold intervalTick.
    destruct (Nat.leb (List.length segs) (S idx)); exact H.
  - reflexivity.
Qed.

Lemma step_recordedAudioUrl
      (validateStatus : Z -> bool) (ev : Event) (s : State) :
  noRecording ev = true ->
  recordedAudioUrl s = None ->
  recordedAudioUrl (step validateStatus ev s) = None.
Proof.
  intros Hev H.
  destruct ev as [files| | |url|k blob|url blob|k t|k|k u|]; cbn [step];
    try discriminate.
  - destruct (stage_eqb (stage s) idle); [|exact H].
    destruct files as [[|file rest]|]; cbn [handleFileUpload]; try exact H.
    destruct (negb _); exact H.
  - destruct (stage_eqb (stage s) idle); exact H.
  - destruct (showRecordModal s); exact H.
  - destruct (nth_error (tasks s) k) as [[| | |]|]; try exact H.
    destruct blob; exact H.
  - destruct (nth_error (tasks s) k) as [[| | |]|]; try exact H.
    destruct (analyzeAudio validateStatus t); exact H.
  - destruct (nth_error (tasks s) k) as [[| | |]|]; exact H.
  - destruct (nth_error (tasks s) k) as [[|?|segs idx|?]|]; try exact H.
    unfold intervalTick.
    destruct (Nat.leb (List.length segs) (S idx)); exact H.
  - reflexivity.
Qed.

Lemma run_urls (validateStatus : Z -> bool) (evs : list Event) :
  forall s,
    uploadedAudioUrl s = None ->
    uploadedAudioUrl (run validateStatus evs s) = None
    /\ (forallb noRecording evs = true -> recordedAudioUrl s = None ->
        recordedAudioUrl (run validateStatus evs s) = None).
Proof.
  induction evs as [|ev evs IH]; intros s Hu; cbn [run forallb].
  - auto.
  - destruct (IH (step validateStatus ev s)
                 (step_uploadedAudioUrl validateStatus ev s Hu)) as [H1 H2].
    split; [exact H1|].
    intros Hall Hr. apply andb_true_iff in Hall. destruct Hall as [Hev Hall].
    apply H2; [exact Hall|]. now apply step_recordedAudioUrl.
Qed.

(** X13.  No handler of the page ever gives [uploadedAudioUrl] a value: in
    every state reached from the initial one it is null, so the music player
    is rendered exactly when a recording left a non-empty URL; in a session
    without a recording (files only) [renderMusicPlayer] always returns
    null. *)
Theorem uploaded_file_never_gets_a_player
        (validateStatus : Z -> bool) (evs : list Event) :
  let s := run validateStatus evs initialState in
  uploadedAudioUrl s = None
  /\ (renderMusicPlayer s = None <-> truthy (recordedAudioUrl s) = false)
  /\ (forallb noRecording evs = true -> renderMusicPlayer s = None).
Proof.
  intro s.
  destruct (run_urls validateStatus evs initialState eq_refl) as [Hu Hr].
  fold s in Hu, Hr.
  assert (Hiff : renderMusicPlayer s = None <-> truthy (recordedAudioUrl s) = false).
  { unfold renderMusicPlayer. rewrite Hu.
    destruct (truthy (recordedAudioUrl s)) eqn:E.
    - rewrite E. cbn. split; discriminate.
    - cbn. split; reflexivity. }
  split; [exact Hu|]. split; [exact Hiff|].
  intro Hall. apply Hiff. rewrite (Hr Hall eq_refl). reflexivity.
Qed.

Lemma uploaded_file_never_gets_a_player_witness :
  renderMusicPlayer
    (run defaultValidateStatus
         (singleSubmission sample_audio sample_analysis allAtRender)
         initialState)
  = None.
Proof.
  exact (proj2 (proj2 (uploaded_file_never_gets_a_player
                         defaultValidateStatus
                         (singleSubmission sample_audio sample_analysis
                                           allAtRender)))
               eq_refl).
Defined.

End PageRunProperties.

Section PageResetAndFailure.
Import React Actions Page PageView.
Local Open Scope nat_scope.

(** X14.  [resetApp] stops no timer.  When the reset button is pressed while
    the interval of [animateSegments] is the only pending work, the interval
    goes on: after its remaining ticks the page is in stage finished again,
    with no server segments and no genre, and [animatedSegments] holds
    exactly what the ticks made after the reset have appended, one element
    per tick.  With every function run at the call these are the segments
    from the current index on; with every function run in the render after
    its tick they are the segments after the current index, followed by
    undefined. *)
Theorem reset_does_not_stop_the_animation
        (validateStatus : Z -> bool)
        (segs : list ServerSegment) (idx r : nat) (s : State)
        (runs : nat -> UpdaterRun)
        (Hpending : tasks s = [SegmentInterval segs idx])
        (Hinside : List.length segs = idx + S r) :
  tasks (resetApp s) = tasks s
  /\ stage (resetApp s) = idle
  /\ (let final := run validateStatus
                       (ResetClicked :: intervalTicks runs idx (S r)) s in
      stage final = finished
      /\ animatedSegments final = appendedBy runs segs idx (S r)
      /\ List.length (animatedSegments final) = S r
      /\ serverSegments final = []
      /\ predictedGenre final = None
      /\ tasks final = [])
  /\ appendedBy allAtCall segs idx (S r) = map Some (skipn idx segs)
  /\ appendedBy allAtRender segs idx (S r)
     = map Some (skipn (S idx) segs) ++ [None].
Proof.
  split; [reflexivity|]. split; [reflexivity|]. split.
  - intro final. subst final.
    change (run validateStatus
                (ResetClicked :: intervalTicks runs idx (S r)) s)
      with (run validateStatus (intervalTicks runs idx (S r)) (resetApp s)).
    rewrite (run_ticks_to_end validateStatus runs segs r idx (resetApp s)
                              Hpending) by lia.
    split; [reflexivity|]. split; [reflexivity|].
    split; [|repeat split; reflexivity].
    cbn [animatedSegments setTasks setStage setAnimatedSegments resetApp
         List.app].
    apply appendedBy_length.
  - split.
    + rewrite appendedBy_atCall_from by lia. reflexivity.
    + rewrite appendedBy_atRender_from by lia. reflexivity.
Qed.

Lemma reset_does_not_stop_the_animation_witness :
  let s := run defaultValidateStatus
               [ FileChosen (Some [sample_audio]);
                 AnalysisSettled 0 (Responded (mkResponse 200 sample_analysis));
                 TimerFired 0; IntervalTicked 0 AtRender ] initialState in
  stage (run defaultValidateStatus [ResetClicked; IntervalTicked 0 AtRender] s)
  = finished
  /\ animatedSegments
       (run defaultValidateStatus [ResetClicked; IntervalTicked 0 AtRender] s)
     = [None].
Proof.
  intro s.
  destruct (reset_does_not_stop_the_animation
              defaultValidateStatus (segments sample_analysis) 1 0 s
              allAtRender eq_refl eq_refl) as (_ & _ & (Hst & Ha & _) & _).
  split; [exact Hst | exact Ha].
Defined.

(** X15.  A recording made in the modal whose analysis fails (from idle,
    nothing pending): the page is left in stage uploading with nothing
    pending; the error message is stored but not shown, the error being
    displayed in stage idle only; and no event but the reset button (or the
    inline recorder) changes the page any more. *)
Theorem failed_recording_leaves_page_uploading
        (validateStatus : Z -> bool)
        (s : State) (url : string) (blob : Blob) (t : Transport)
        (Hidle : stage s = idle) (Hquiet : tasks s = [])
        (Hfail : forall body, analyzeAudio validateStatus t <> inl body) :
  let final := run validateStatus (failedRecording url blob t) s in
  stage final = uploading
  /\ tasks final = []
  /\ showRecordModal final = false
  /\ error final
     = Some "There was an error processing your audio. Please try again."%string
  /\ errorShown final = None
  /\ (forall ev, wakes ev = false -> step validateStatus ev final = final).
Proof.
  intro final.
  destruct s as [st rec upl modal song artist srv anim gen err tk].
  cbn [stage tasks] in Hidle, Hquiet. subst st tk.
  assert (Hfinal : final
                   = mkState uploading (Some url) upl false song artist srv
                       anim gen (Some processingErrorMessage) []).
  { subst final. unfold failedRecording.
    change [RecordClicked; RecordingComplete url; FetchSettled 0 (Some blob);
            AnalysisSettled 0 t]
      with ([RecordClicked; RecordingComplete url; FetchSettled 0 (Some blob)]
              ++ [AnalysisSettled 0 t]).
    rewrite run_app.
    assert (Hrec : run validateStatus
                       [RecordClicked; RecordingComplete url;
                        FetchSettled 0 (Some blob)]
                       (mkState idle rec upl modal song artist srv anim gen err [])
                   = mkState uploading (Some url) upl false song artist srv
                       anim gen err [Analyzing blob]) by reflexivity.
    rewrite Hrec. cbn [run step tasks nth_error].
    destruct (analyzeAudio validateStatus t) as [body|e] eqn:E.
    - exfalso. exact (Hfail body eq_refl).
    - reflexivity. }
  rewrite Hfinal. clear Hfinal final.
  split; [reflexivity|]. split; [reflexivity|]. split; [reflexivity|].
  split; [reflexivity|]. split; [reflexivity|].
  intros ev Hev.
  destruct ev as [files| | |u|k b|u b|k t'|k|k u0|]; try discriminate;
    try reflexivity; destruct k; reflexivity.
Qed.

Lemma failed_recording_leaves_page_uploading_witness :
  stage (run defaultValidateStatus
             (failedRecording "blob:rec" (mkBlob "audio/webm") NoResponse)
             initialState)
  = uploading.
Proof.
  refine (proj1 (failed_recording_leaves_page_uploading
                   defaultValidateStatus initialState "blob:rec"
                   (mkBlob "audio/webm") NoResponse eq_refl eq_refl _)).
  intros body H. discriminate.
Defined.

End PageResetAndFailure.

(* ------------------------------------------------------------------ *)
(** ** The random-walk page: segments, locks and the progress counter *)


Section LockCounting.
Import Random React Simulation SimulationView.
Local Open Scope nat_scope.

Lemma lockedCount_cons (a : SegmentSentiment) (l : list SegmentSentiment) :
  lockedCount (a :: l) = (if locked a then 1 else 0) + lockedCount l.
Proof. unfold lockedCount. cbn [filter]. destruct (locked a); reflexivity. Qed.

Lemma lockedCount_none (l : list SegmentSentiment) :
  (forall i seg, nth_error l i = Some seg -> locked seg = false) ->
  lockedCount l = 0.
Proof.
  induction l as [|a l IH]; intro H; [reflexivity|].
  rewrite lockedCount_cons, (H 0 a eq_refl), IH; [reflexivity|].
  intros i seg Hi. exact (H (S i) seg Hi).
Qed.

(** A frame locks nothing and unlocks nothing. *)
Lemma lockedCount_animate (src : Source) (l : list SegmentSentiment) :
  forall n, lockedCount (fst (animate l src n)) = lockedCount l.
Proof.
  unfold animate. induction l as [|a l IH]; intro n; [reflexivity|].
  cbn [mapM]. unfold bind, ret.
  pose proof (animateSegment_shape src a n) as [_ Hk].
  destruct (animateSegment a src n) as [b n1].
  specialize (IH n1). destruct (mapM animateSegment l src n1) as [bs n2].
  cbn [fst] in *. rewrite !lockedCount_cons, IH, Hk. reflexivity.
Qed.

Lemma mapi_from_lock_after (idx : nat) (l : list SegmentSentiment) :
  forall i, idx < i ->
    mapi_from i (fun seg j => if Nat.eqb j idx then lockSegment seg else seg) l
    = l.
Proof.
  induction l as [|a l IH]; intros i Hi; cbn [mapi_from]; [reflexivity|].
  replace (Nat.eqb i idx) with false by (symmetry; apply Nat.eqb_neq; lia).
  rewrite IH by lia. reflexivity.
Qed.

(** A tick locks at most one segment more. *)
Lemma lockedCount_lockAt (idx : nat) (l : list SegmentSentiment) :
  lockedCount (lockAt idx l) <= S (lockedCount l).
Proof.
  unfold lockAt. generalize 0 as i.
  induction l as [|a l IH]; intro i; cbn [mapi_from].
  - unfold lockedCount. cbn. lia.
  - destruct (Nat.eqb_spec i idx) as [->|Hne].
    + rewrite mapi_from_lock_after by lia.
      rewrite !lockedCount_cons. cbn [lockSegment locked].
      destruct (locked a); lia.
    + specialize (IH (S i)). rewrite !lockedCount_cons. lia.
Qed.

Lemma lockedCount_simRun (src : Source) (evs : list SimEvent) :
  forall st,
    lockedCount (segments (simRun src evs st))
    <= lockedCount (segments st) + ticksIn evs.
Proof.
  induction evs as [|ev evs IH]; intro st; cbn [simRun ticksIn].
  - lia.
  - specialize (IH (simStep src ev st)).
    assert (H : lockedCount (segments (simStep src ev st))
                <= lockedCount (segments st) + (if isLockTick ev then 1 else 0)).
    { destruct ev as [|idx]; cbn [simStep isLockTick].
      - pose proof (lockedCount_animate src (segments st) (draws st)) as Ha.
        destruct (animate (segments st) src (draws st)) as [segs n].
        cbn [fst segments] in *. lia.
      - cbn [segments]. pose proof (lockedCount_lockAt idx (segments st)). lia. }
    destruct (isLockTick ev); lia.
Qed.

Lemma ticksIn_app (evs1 evs2 : list SimEvent) :
  ticksIn (evs1 ++ evs2) = ticksIn evs1 + ticksIn evs2.
Proof.
  induction evs1 as [|ev evs1 IH]; cbn [List.app ticksIn]; [reflexivity|].
  rewrite IH. destruct (isLockTick ev); lia.
Qed.

Lemma ticksIn_frames (n : nat) : ticksIn (repeat Frame n) = 0.
Proof. induction n as [|n IH]; cbn [repeat ticksIn isLockTick]; auto. Qed.

Lemma ticksIn_processingTrace (framesBefore : nat -> nat)
      (runs : nat -> UpdaterRun) (k : nat) :
  ticksIn (processingTrace framesBefore runs k) = k.
Proof.
  induction k as [|k IH]; cbn [processingTrace]; [reflexivity|].
  rewrite !ticksIn_app, IH, ticksIn_frames. unfold lockTick.
  cbn [ticksIn isLockTick]. lia.
Qed.

End LockCounting.

Section SimulationShapeProperties.
Import Random React Simulation SimulationView.
Local Open Scope nat_scope.

(** X16.  Whatever frames and locking ticks have happened since the page
    was created, there are twelve segments, segment i still carries the time
    5 * i, and it is locked exactly when a tick with index i has happened:
    frames neither lock nor unlock, and nothing unlocks. *)
Theorem segments_keep_count_time_and_locks
        (src : Source) (evs : list SimEvent) :
  let segs := segments (simRun src evs (simInit src)) in
  List.length segs = totalSegments
  /\ forall i seg,
      nth_error segs i = Some seg ->
      timeSec seg = (inject_Z (Z.of_nat i) * 5)%Q
      /\ (locked seg = true <-> In (LockTick i) evs).
Proof.
  intro segs. subst segs.
  destruct (simInit_shape src) as [Hl0 Hs0].
  destruct (simRun_shape src evs (simInit src)) as [Hl Hs].
  split; [congruence|].
  intros i seg Hi.
  assert (Hlt : i < List.length (segments (simInit src))).
  { rewrite <- Hl. apply nth_error_Some. congruence. }
  destruct (nth_error (segments (simInit src)) i) as [seg0|] eqn:E0.
  2:{ apply nth_error_None in E0. lia. }
  destruct (Hs0 i seg0 E0) as [Ht0 Hk0].
  destruct (Hs i seg0 E0) as (seg' & H' & Ht & Hk).
  rewrite H' in Hi. injection Hi as <-.
  split; [congruence|]. rewrite Hk, Hk0. split.
  - intros [H|H]; [discriminate | exact H].
  - intro H. now right.
Qed.

Lemma segments_keep_count_time_and_locks_witness :
  List.length
    (segments (simRun sample_source [Frame; LockTick 0; Frame]
                      (simInit sample_source)))
  = totalSegments.
Proof.
  exact (proj1 (segments_keep_count_time_and_locks
                  sample_source [Frame; LockTick 0; Frame])).
Defined.

(** X17.  Progress of the processing.  After the first k ticks of
    [startProcessing] (k at most twelve), with any number of animation
    frames before each of them, at most k segments are locked, however the
    functions of the ticks are run.  With every function run at the call
    they are exactly k; with every function run in the render after its
    tick they are k up to eleven and never twelve: the twelfth tick locks
    nothing. *)
Theorem locked_count_after_ticks
        (src : Source) (framesBefore : nat -> nat) (runs : nat -> UpdaterRun)
        (k : nat) (Hk : k <= totalSegments) :
  let count := fun r =>
    lockedCount
      (segments (simRun src (processingTrace framesBefore r k) (simInit src))) in
  count runs <= k
  /\ count allAtCall = k
  /\ count allAtRender = Nat.min k 11.
Proof.
  intro count. subst count. cbv beta.
  split; [|split].
  - pose proof (lockedCount_simRun src (processingTrace framesBefore runs k)
                                   (simInit src)) as H.
    rewrite ticksIn_processingTrace in H.
    rewrite (lockedCount_none (segments (simInit src))) in H; [lia|].
    intros i seg Hi. exact (proj2 (proj2 (simInit_shape src) i seg Hi)).
  - destruct (locks_after_run src (processingTrace framesBefore allAtCall k))
      as [Hl Hlk].
    apply locked_prefix_count; [rewrite Hl; exact Hk|].
    intros i seg Hi. rewrite (Hlk i seg Hi). apply In_processingTrace_atCall.
  - destruct (locks_after_run src (processingTrace framesBefore allAtRender k))
      as [Hl Hlk].
    apply locked_from_1_count.
    + rewrite Hl. unfold totalSegments. lia.
    + intros i seg Hi. rewrite (Hlk i seg Hi), In_processingTrace_atRender.
      assert (Hlt : i < totalSegments).
      { rewrite <- Hl. apply nth_error_Some. congruence. }
      unfold totalSegments in *. lia.
Qed.

Lemma locked_count_after_ticks_witness :
  lockedCount
    (segments (simRun sample_source
                      (processingTrace (fun i => i) allAtRender 12)
                      (simInit sample_source)))
  = 11.
Proof.
  refine (proj2 (proj2 (locked_count_after_ticks
                          sample_source (fun i => i) allAtRender 12 _))).
  unfold totalSegments. lia.
Defined.

End SimulationShapeProperties.

(* ------------------------------------------------------------------ *)
(** ** The walk reaches its target *)

Section Arrival.
Import Random Simulation SimulationView.
Local Open Scope Q_scope.

Lemma frames_succ (k : nat) (s : Sentiment) (src : Source) (n : nat) :
  updateSentiment_frames (S k) s src n
  = updateSentiment_frames k (fst (updateSentiment s src n)) src
                           (snd (updateSentiment s src n)).
Proof.
  cbn [updateSentiment_frames]. unfold bind.
  destruct (updateSentiment s src n); reflexivity.
Qed.

Lemma arrival (src : Source) (m : nat) :
  forall (s : Sentiment) (n : nat),
    0 < speed s ->
    Qabs (target s - value s) <= inject_Z (Z.of_nat m) * speed s ->
    exists k,
      (1 <= k <= S m)%nat
      /\ (forall j, (j < k)%nat ->
            snd (updateSentiment_frames j s src n) = n
            /\ target (fst (updateSentiment_frames j s src n)) = target s
            /\ speed (fst (updateSentiment_frames j s src n)) = speed s)
      /\ snd (updateSentiment_frames k s src n) = S (S n)
      /\ value (fst (updateSentiment_frames k s src n)) == target s.
Proof.
  induction m as [|m IH]; intros s n Hsp Hd;
    apply Qabs_Qle_condition in Hd; destruct Hd as [Hd1 Hd2];
    pose proof (updateSentiment_cases src n s) as Hc.
  - change (inject_Z (Z.of_nat 0)) with 0 in *.
    exists 1%nat. split; [lia|]. split.
    { intros j Hj. assert (j = 0)%nat as -> by lia. cbn. auto. }
    rewrite frames_succ. cbn [updateSentiment_frames].
    inversion Hc as [Hlt Hs Hne Heq|Hgt Hs Hne Heq|Harr Heq|Hrest Heq];
      try lra; cbn [fst snd ret redrawn value]; split; try reflexivity; lra.
  - rewrite Nat2Z.inj_succ in Hd1, Hd2. unfold Z.succ in Hd1, Hd2.
    rewrite inject_Z_plus in Hd1, Hd2. change (inject_Z 1) with 1 in Hd1, Hd2.
    inversion Hc as [Hlt Hs Hne Heq|Hgt Hs Hne Heq|Harr Heq|Hrest Heq].
    + (* one step up, then the rest *)
      destruct (IH (mkSentiment (value s + speed s) (target s) (speed s)) n)
        as (k & Hk & Hbefore & Hn & Hv); cbn [value target speed]; [exact Hsp| |].
      { apply Qabs_Qle_condition. split; lra. }
      exists (S k). split; [lia|]. split; [|split].
      * intros j Hj. destruct j as [|j]; [cbn; auto|].
        rewrite frames_succ, <- Heq. cbn [fst snd]. apply Hbefore. lia.
      * rewrite frames_succ, <- Heq. exact Hn.
      * rewrite frames_succ, <- Heq. exact Hv.
    + (* one step down, then the rest *)
      destruct (IH (mkSentiment (value s - speed s) (target s) (speed s)) n)
        as (k & Hk & Hbefore & Hn & Hv); cbn [value target speed]; [exact Hsp| |].
      { apply Qabs_Qle_condition. split; lra. }
      exists (S k). split; [lia|]. split; [|split].
      * intros j Hj. destruct j as [|j]; [cbn; auto|].
        rewrite frames_succ, <- Heq. cbn [fst snd]. apply Hbefore. lia.
      * rewrite frames_succ, <- Heq. exact Hn.
      * rewrite frames_succ, <- Heq. exact Hv.
    + exists 1%nat. split; [lia|]. split.
      { intros j Hj. assert (j = 0)%nat as -> by lia. cbn. auto. }
      rewrite frames_succ, <- Heq. cbn. split; reflexivity.
    + exists 1%nat. split; [lia|]. split.
      { intros j Hj. assert (j = 0)%nat as -> by lia. cbn. auto. }
      rewrite frames_succ, <- Heq. cbn [fst snd updateSentiment_frames ret redrawn value].
      split; [reflexivity | exact Hrest].
Qed.

(** X18.  An unlocked sentiment with a positive speed arrives: if the
    distance to the target is at most m times the speed, then after some
    number k of frames, 1 <= k <= m + 1, the value is the target and a new
    target and speed have been drawn on that frame; on the frames before,
    nothing was drawn and target and speed were kept. *)
Theorem value_reaches_target_within_bound
        (src : Source) (m : nat) (s : Sentiment) (n : nat)
        (Hspeed : 0 < speed s)
        (Hdist : Qabs (target s - value s) <= inject_Z (Z.of_nat m) * speed s) :
  exists k,
    (1 <= k <= S m)%nat
    /\ (forall j, (j < k)%nat ->
          snd (updateSentiment_frames j s src n) = n
          /\ target (fst (updateSentiment_frames j s src n)) = target s
          /\ speed (fst (updateSentiment_frames j s src n)) = speed s)
    /\ snd (updateSentiment_frames k s src n) = S (S n)
    /\ value (fst (updateSentiment_frames k s src n)) == target s.
Proof. now apply arrival. Qed.

Lemma value_reaches_target_within_bound_witness :
  exists k,
    (1 <= k <= 64)%nat
    /\ value (fst (updateSentiment_frames k sample_sentiment sample_source 0%nat))
       == 0.75.
Proof.
  assert (Hspeed : 0 < speed sample_sentiment) by (vm_compute; reflexivity).
  assert (Hdist : Qabs (target sample_sentiment - value sample_sentiment)
                  <= inject_Z (Z.of_nat 63) * speed sample_sentiment)
    by (vm_compute; discriminate).
  destruct (value_reaches_target_within_bound
              sample_source 63%nat sample_sentiment 0%nat Hspeed Hdist)
    as (k & Hk & _ & _ & Hv).
  exists k. split; [exact Hk | exact Hv].
Defined.

End Arrival.

(* ------------------------------------------------------------------ *)
(** ** The simulated processing carried to the end *)

Section SimulatedRunsLemmas.
Import Random React Page Simulation SimulationView SimulatedPage.
Local Open Scope nat_scope.

Variable src : Source.

Lemma simRun_app (evs1 evs2 : list SimEvent) :
  forall st, simRun src (evs1 ++ evs2) st = simRun src evs2 (simRun src evs1 st).
Proof.
  induction evs1 as [|ev evs1 IH]; intro st; cbn [List.app simRun];
    [reflexivity | apply IH].
Qed.

Lemma simPageRun_app (evs1 evs2 : list SimPageEvent) :
  forall s, simPageRun src (evs1 ++ evs2) s
            = simPageRun src evs2 (simPageRun src evs1 s).
Proof.
  induction evs1 as [|ev evs1 IH]; intro s; cbn [List.app simPageRun];
    [reflexivity | apply IH].
Qed.

(** While the stage is processing, the frames of the page are the frames
    of the walk. *)
Lemma simPageRun_frames (n : nat) :
  forall rec upl err walk tk,
    simPageRun src (repeat SimFrame n)
               (mkSimState processing rec upl err walk tk)
    = mkSimState processing rec upl err
                 (simRun src (repeat Frame n) walk) tk.
Proof.
  induction n as [|n IH]; intros rec upl err walk tk;
    cbn [repeat simPageRun simRun]; [reflexivity|].
  cbn [simPageStep]. unfold animationFrame.
  cbn [simStage stage_eqb stageIndex Nat.eqb setSimWalk simWalk
       simRecordedAudioUrl simUploadedAudioUrl simError simTasks].
  apply IH.
Qed.

(** A tick of the only pending interval. *)
Lemma simPageStep_tick (u : UpdaterRun) (k : nat) :
  forall rec upl err walk,
    simPageStep src (SimIntervalTicked 0 u)
                (mkSimState processing rec upl err walk [LockInterval k])
    = mkSimState processing rec upl err (simStep src (lockTick u k) walk)
                 (if Nat.eqb (S k) totalSegments
                  then [GenreTimer] else [LockInterval (S k)]).
Proof.
  intros rec upl err walk. cbn [simPageStep simTasks nth_error].
  unfold lockInterval_ticked.
  destruct (Nat.eqb (S k) totalSegments); reflexivity.
Qed.

(** The first [k] ticks of the only pending interval, [k] below twelve,
    with the frames before each of them. *)
Lemma simPageRun_processing (framesBefore : nat -> nat)
      (runs : nat -> UpdaterRun) (k : nat) :
  k < totalSegments ->
  forall rec upl err walk,
    simPageRun src (processingEvents framesBefore runs k)
               (mkSimState processing rec upl err walk [LockInterval 0])
    = mkSimState processing rec upl err
                 (simRun src (processingTrace framesBefore runs k) walk)
                 [LockInterval k].
Proof.
  induction k as [|k IH]; intros Hk rec upl err walk;
    cbn [processingEvents processingTrace]; [reflexivity|].
  rewrite !simPageRun_app, !simRun_app, IH by lia.
  rewrite simPageRun_frames.
  cbn [simPageRun simRun]. rewrite simPageStep_tick.
  replace (Nat.eqb (S k) totalSegments) with false
    by (symmetry; apply Nat.eqb_neq; lia).
  reflexivity.
Qed.

Lemma simPageRun_to_processing (s : SimState) (file : File) (fileUrl : string) :
  simStage s = idle -> simTasks s = [] ->
  String.prefix "audio/" (type file) = true ->
  simPageRun src [SimFileChosen (Some [file]) fileUrl; SimTimerFired 0] s
  = mkSimState processing (simRecordedAudioUrl s) (Some fileUrl) None
               (simWalk s) [LockInterval 0].
Proof.
  intros Hidle Hquiet Haudio.
  destruct s as [st rec upl err walk tk].
  cbn [simStage simTasks] in Hidle, Hquiet. subst st tk.
  cbn [simPageRun simPageStep simStage stage_eqb stageIndex Nat.eqb
       simHandleFileUpload].
  rewrite Haudio. reflexivity.
Qed.

(** One upload carried to the end. *)
Lemma simPageRun_submission (s : SimState) (file : File) (fileUrl : string)
      (framesBefore : nat -> nat) (runs : nat -> UpdaterRun) :
  simStage s = idle -> simTasks s = [] ->
  String.prefix "audio/" (type file) = true ->
  simPageRun src (simulatedSubmission file fileUrl framesBefore runs) s
  = mkSimState finished (simRecordedAudioUrl s) (Some fileUrl) None
               (simRun src
                       (processingTrace framesBefore runs totalSegments
                          ++ repeat Frame (framesBefore totalSegments))
                       (simWalk s))
               [].
Proof.
  intros Hidle Hquiet Haudio. unfold simulatedSubmission.
  rewrite simPageRun_app.
  rewrite (simPageRun_to_processing s file fileUrl Hidle Hquiet Haudio).
  change totalSegments with (S 11).
  change (processingEvents framesBefore runs (S 11))
    with (processingEvents framesBefore runs 11
            ++ repeat SimFrame (framesBefore 11)
            ++ [SimIntervalTicked 0 (runs 11)]).
  change (processingTrace framesBefore runs (S 11))
    with (processingTrace framesBefore runs 11
            ++ repeat Frame (framesBefore 11) ++ [lockTick (runs 11) 11]).
  rewrite !simPageRun_app, !simRun_app.
  rewrite simPageRun_processing by (unfold totalSegments; lia).
  rewrite simPageRun_frames.
  change (simPageRun src [SimIntervalTicked 0 (runs 11)] ?st)
    with (simPageStep src (SimIntervalTicked 0 (runs 11)) st).
  rewrite simPageStep_tick.
  change (Nat.eqb 12 totalSegments) with true. cbv iota.
  rewrite simPageRun_frames.
  reflexivity.
Qed.

Lemma In_tick_frames (i n : nat) (evs : list SimEvent) :
  In (LockTick i) (evs ++ repeat Frame n) <-> In (LockTick i) evs.
Proof.
  rewrite in_app_iff. split; [|now left].
  intros [H|H]; [exact H|]. apply repeat_spec in H. discriminate.
Qed.

End SimulatedRunsLemmas.

Section SimulatedRunsProperties.
Import Random React Page Simulation SimulationView SimulatedPage.
Local Open Scope nat_scope.

(** X19.  One audio file uploaded in the simulated page (from idle, no
    timer pending) and carried to the end, with any number of animation
    frames before each tick and in the last second: the stage is finished
    with no timer left, the uploaded URL is the one made for the file, the
    error is cleared, and the segments are those of the walk under the
    frames and the twelve ticks.  On the page as created, with every
    function of a tick run in the render after the tick, segment 0 is
    never locked and segments 1 to 11 are: eleven locked segments when the
    result is shown, the first one having drifted through the whole
    processing.  Only with every function run at the call are all twelve
    locked. *)
Theorem simulated_upload_leaves_segment_0_unlocked
        (src : Source) (file : File) (fileUrl : string)
        (framesBefore : nat -> nat)
        (Haudio : String.prefix "audio/" (type file) = true) :
  (forall (runs : nat -> UpdaterRun) (s : SimState),
      simStage s = idle -> simTasks s = [] ->
      let final :=
        simPageRun src (simulatedSubmission file fileUrl framesBefore runs) s in
      simStage final = finished
      /\ simTasks final = []
      /\ simUploadedAudioUrl final = Some fileUrl
      /\ simError final = None
      /\ simWalk final
         = simRun src
                  (processingTrace framesBefore runs totalSegments
                     ++ repeat Frame (framesBefore totalSegments))
                  (simWalk s))
  /\ (let final :=
        simPageRun src
                   (simulatedSubmission file fileUrl framesBefore allAtRender)
                   (simInitialState (simInit src)) in
      List.length (simSegments final) = totalSegments
      /\ (forall i seg, nth_error (simSegments final) i = Some seg ->
                        (locked seg = true <-> 1 <= i))
      /\ lockedCount (simSegments final) = 11)
  /\ (let final :=
        simPageRun src
                   (simulatedSubmission file fileUrl framesBefore allAtCall)
                   (simInitialState (simInit src)) in
      lockedCount (simSegments final) = totalSegments).
Proof.
  split; [|split].
  - intros runs s Hidle Hquiet final. subst final.
    rewrite (simPageRun_submission src s file fileUrl framesBefore runs
                                   Hidle Hquiet Haudio).
    repeat split; reflexivity.
  - intro final. subst final.
    rewrite (simPageRun_submission src (simInitialState (simInit src)) file
                                   fileUrl framesBefore allAtRender
                                   eq_refl eq_refl Haudio).
    unfold simSegments. cbn [simWalk simInitialState].
    destruct (locks_after_run src
                (processingTrace framesBefore allAtRender totalSegments
                   ++ repeat Frame (framesBefore totalSegments)))
      as [Hl Hlk].
    assert (Hall : forall i seg,
               nth_error
                 (segments
                    (simRun src
                       (processingTrace framesBefore allAtRender totalSegments
                          ++ repeat Frame (framesBefore totalSegments))
                       (simInit src))) i = Some seg ->
               (locked seg = true <-> 1 <= i <= 11)).
    { intros i seg Hi.
      rewrite (Hlk i seg Hi), In_tick_frames, In_processingTrace_atRender.
      assert (Hlt : i < totalSegments).
      { rewrite <- Hl. apply nth_error_Some. congruence. }
      unfold totalSegments in *. lia. }
    split; [exact Hl|]. split.
    + intros i seg Hi. rewrite (Hall i seg Hi).
      assert (Hlt : i < totalSegments).
      { rewrite <- Hl. apply nth_error_Some. congruence. }
      unfold totalSegments in *. lia.
    + apply locked_from_1_count; [|exact Hall].
      rewrite Hl. unfold totalSegments. lia.
  - intro final. subst final.
    rewrite (simPageRun_submission src (simInitialState (simInit src)) file
                                   fileUrl framesBefore allAtCall
                                   eq_refl eq_refl Haudio).
    unfold simSegments. cbn [simWalk simInitialState].
    destruct (locks_after_run src
                (processingTrace framesBefore allAtCall totalSegments
                   ++ repeat Frame (framesBefore totalSegments)))
      as [Hl Hlk].
    apply locked_prefix_count; [rewrite Hl; lia|].
    intros i seg Hi.
    rewrite (Hlk i seg Hi), In_tick_frames. apply In_processingTrace_atCall.
Qed.

Lemma simulated_upload_leaves_segment_0_unlocked_witness :
  lockedCount
    (simSegments
       (simPageRun sample_source
                   (simulatedSubmission sample_audio "blob:a" (fun _ => 1)
                                        allAtRender)
                   (simInitialState (simInit sample_source))))
  = 11.
Proof.
  exact (proj2 (proj2 (proj1 (proj2
           (simulated_upload_leaves_segment_0_unlocked
              sample_source sample_audio "blob:a" (fun _ => 1) eq_refl))))).
Defined.

End SimulatedRunsProperties.

(* ------------------------------------------------------------------ *)
(** ** Which stream a stop releases *)

Section ReleaseFrame.
Import Recorder.
Local Open Scope nat_scope.

Lemma nth_updateAt_other {A} (f : A -> A) (d : A) (l : list A) :
  forall k j, j <> k -> nth j (updateAt k f l) d = nth j l d.
Proof.
  induction l as [|a l IH]; intros k j Hne.
  - destruct k; reflexivity.
  - destruct k as [|k], j as [|j]; cbn [updateAt nth]; try reflexivity.
    + contradiction.
    + apply IH. lia.
Qed.

Lemma stopTracks_other (id j : nat) (w : Streams) :
  j <> id -> nth j (stopTracks id w) [] = nth j w [].
Proof. intro H. unfold stopTracks. now apply nth_updateAt_other. Qed.

Lemma granted_stream_live (n : nat) (w : Streams) :
  0 < n -> hasLiveTrack (List.length w) (snd (getUserMedia n w)) = true.
Proof.
  intro Hn. unfold getUserMedia, hasLiveTrack. cbn [snd].
  rewrite app_nth2 by lia. rewrite Nat.sub_diag. cbn [nth].
  destruct n; [lia | reflexivity].
Qed.

(** X20.  In the modal, a granted stream is the one the ref holds, and it is
    live while recording.  Stopping the recording and unmounting the modal
    each end all tracks of the stream the ref holds and touch no other
    stream: a stream granted earlier and replaced in the ref by a second
    grant keeps its tracks as they were. *)
Theorem stop_releases_the_held_stream_only
        (n : nat) (m : Modal) (w : Streams) (Hn : 0 < n) :
  let started := startRecording_granted n (m, w) in
  mediaStreamRef (fst started) = Some (List.length w)
  /\ isRecording (fst started) = true
  /\ hasLiveTrack (List.length w) (snd started) = true
  /\ hasLiveTrack (List.length w) (snd (stopRecording started)) = false
  /\ isRecording (fst (stopRecording started)) = false
  /\ hasLiveTrack (List.length w) (snd (modalUnmount started)) = false
  /\ (forall j, j <> List.length w ->
        nth j (snd (stopRecording started)) [] = nth j (snd started) []
        /\ nth j (snd (modalUnmount started)) [] = nth j (snd started) []).
Proof.
  intro started. subst started.
  unfold startRecording_granted. cbn [getUserMedia].
  cbn [fst snd mediaStreamRef isRecording stopRecording modalUnmount].
  split; [reflexivity|]. split; [reflexivity|].
  split; [exact (granted_stream_live n w Hn)|].
  split; [apply hasLiveTrack_stopTracks|]. split; [reflexivity|].
  split; [apply hasLiveTrack_stopTracks|].
  intros j Hj. split; now apply stopTracks_other.
Qed.

Lemma stop_releases_the_held_stream_only_witness :
  let first := startRecording_granted 1 (modalMounted, []) in
  let second := startRecording_granted 1 first in
  hasLiveTrack 1 (snd (stopRecording second)) = false
  /\ hasLiveTrack 0 (snd (stopRecording second)) = true.
Proof.
  intros first second.
  destruct (stop_releases_the_held_stream_only
              1 (fst first) (snd first) (Nat.lt_0_1))
    as (_ & _ & _ & Hstop & _).
  split.
  - exact Hstop.
  - reflexivity.
Defined.

End ReleaseFrame.

(* ------------------------------------------------------------------ *)
(** ** The averages of the random-walk page *)

Section SimulationAverages.
Import Random Simulation SimulationView TimelineChart.
Local Open Scope Q_scope.

Lemma sum_range {A} (f : A -> Q) (l : list A) :
  Forall (fun a => 0 <= f a /\ f a <= 1) l ->
  0 <= fold_right Qplus 0 (map f l)
  /\ fold_right Qplus 0 (map f l) <= inject_Z (Z.of_nat (List.length l)).
Proof.
  induction 1 as [|a l [H0 H1] _ [IH0 IH1]]; cbn [map fold_right List.length].
  - change (inject_Z (Z.of_nat 0)) with 0. split; lra.
  - rewrite Nat2Z.inj_succ. unfold Z.succ. rewrite inject_Z_plus.
    change (inject_Z 1) with 1. split; lra.
Qed.

Lemma simulation_sums (segs : list SegmentSentiment) :
  forall acc,
    let sum :=
      fold_left (fun acc seg =>
                   mkAverages (avgValence acc + value (valence seg))
                              (avgArousal acc + value (arousal seg))
                              (avgDominance acc + value (dominance seg)))
                segs acc in
    avgValence sum
    == avgValence acc
       + fold_right Qplus 0 (map (fun seg => value (valence seg)) segs)
    /\ avgArousal sum
       == avgArousal acc
          + fold_right Qplus 0 (map (fun seg => value (arousal seg)) segs)
    /\ avgDominance sum
       == avgDominance acc
          + fold_right Qplus 0 (map (fun seg => value (dominance seg)) segs).
Proof.
  induction segs as [|seg segs IH]; intro acc; cbn [fold_left map fold_right];
    cbv zeta.
  - repeat split; ring.
  - destruct (IH (mkAverages (avgValence acc + value (valence seg))
                             (avgArousal acc + value (arousal seg))
                             (avgDominance acc + value (dominance seg))))
      as (Hv & Ha & Hd).
    cbv zeta in *. cbn [avgValence avgArousal avgDominance] in *.
    repeat split; lra.
Qed.

(** X21.  With every draw in [0, 1): in every state the simulation reaches,
    the three averages [calculateAverages] shows lie in [0, 1] and are within
    0.005 of the true means of the twelve current values (the division is by
    twelve, never by zero). *)
Theorem simulation_averages_in_unit_interval
        (src : Source) (Hsrc : unit_source src) (evs : list SimEvent) :
  let segs := segments (simRun src evs (simInit src)) in
  List.length segs = totalSegments
  /\ unitAverages (calculateAverages segs)
  /\ roundedFrom (avgValence (calculateAverages segs))
                 (mean (map (fun seg => value (valence seg)) segs))
  /\ roundedFrom (avgArousal (calculateAverages segs))
                 (mean (map (fun seg => value (arousal seg)) segs))
  /\ roundedFrom (avgDominance (calculateAverages segs))
                 (mean (map (fun seg => value (dominance seg)) segs)).
Proof.
  intro segs.
  assert (Hlen : List.length segs = totalSegments).
  { subst segs.
    rewrite (proj1 (simRun_shape src evs (simInit src))).
    apply (proj1 (simInit_shape src)). }
  pose proof (simRun_ok src Hsrc evs (simInit src) (initSegments_ok src Hsrc))
    as Hok. fold segs in Hok.
  assert (Ht : 0 < inject_Z (Z.of_nat (List.length segs))).
  { rewrite Hlen. vm_compute. reflexivity. }
  assert (Hv : Forall (fun seg => 0 <= value (valence seg)
                                  /\ value (valence seg) <= 1) segs)
    by (eapply Forall_impl; [|exact Hok]; intros s ((H & _) & _ & _); exact H).
  assert (Ha : Forall (fun seg => 0 <= value (arousal seg)
                                  /\ value (arousal seg) <= 1) segs)
    by (eapply Forall_impl; [|exact Hok]; intros s (_ & (H & _) & _); exact H).
  assert (Hd : Forall (fun seg => 0 <= value (dominance seg)
                                  /\ value (dominance seg) <= 1) segs)
    by (eapply Forall_impl; [|exact Hok]; intros s (_ & _ & (H & _)); exact H).
  destruct (sum_range _ segs Hv) as [Hv0 Hv1].
  destruct (sum_range _ segs Ha) as [Ha0 Ha1].
  destruct (sum_range _ segs Hd) as [Hd0 Hd1].
  destruct (simulation_sums segs (mkAverages 0 0 0)) as (Sv & Sa & Sd).
  cbv zeta in Sv, Sa, Sd.
  set (sum := fold_left
                (fun acc seg =>
                   mkAverages (avgValence acc + value (valence seg))
                              (avgArousal acc + value (arousal seg))
                              (avgDominance acc + value (dominance seg)))
                segs (mkAverages 0 0 0)) in *.
  cbn [avgValence avgArousal avgDominance] in Sv, Sa, Sd.
  assert (Sv' : avgValence sum
                == fold_right Qplus 0 (map (fun seg => value (valence seg)) segs))
    by (rewrite Sv; ring).
  assert (Sa' : avgArousal sum
                == fold_right Qplus 0 (map (fun seg => value (arousal seg)) segs))
    by (rewrite Sa; ring).
  assert (Sd' : avgDominance sum
                == fold_right Qplus 0 (map (fun seg => value (dominance seg)) segs))
    by (rewrite Sd; ring).
  destruct (rounded_mean_range _ _ _ Ht Sv' Hv0 Hv1) as [Rv Nv].
  destruct (rounded_mean_range _ _ _ Ht Sa' Ha0 Ha1) as [Ra Na].
  destruct (rounded_mean_range _ _ _ Ht Sd' Hd0 Hd1) as [Rd Nd].
  split; [exact Hlen|].
  unfold calculateAverages, unitAverages, mean.
  cbn [avgValence avgArousal avgDominance]. rewrite !length_map.
  repeat split; first [apply Rv | apply Ra | apply Rd
                       | apply Nv | apply Na | apply Nd].
Qed.

Lemma simulation_averages_in_unit_interval_witness :
  unitAverages
    (calculateAverages
       (segments (simRun sample_source [Frame; LockTick 0; Frame]
                         (simInit sample_source)))).
Proof.
  exact (proj1 (proj2 (simulation_averages_in_unit_interval
                         sample_source sample_source_unit
                         [Frame; LockTick 0%nat; Frame]))).
Defined.

End SimulationAverages.

(* ------------------------------------------------------------------ *)
(** ** Colours of the sentiments *)

Section ColourProperties.
Import Colours.
Local Open Scope string_scope.

(** X22.  For each sentiment, [getRGB] and [getStrokeColor] name the same
    colour: there are channels r, g, b below 256 of which [getRGB] gives the
    decimal list and [getStrokeColor] the hexadecimal notation; the line of
    the sentiment in the timeline chart has that stroke too; and different
    sentiments have different colours. *)
Theorem fill_and_stroke_are_the_same_colour (sentiment : SentimentName) :
  (exists r g b,
      (r < 256 /\ g < 256 /\ b < 256)%nat
      /\ getRGB sentiment = rgbChannels r g b
      /\ getStrokeColor sentiment = hexColour r g b)
  /\ lineStroke sentiment = getStrokeColor sentiment
  /\ (forall other, getStrokeColor other = getStrokeColor sentiment ->
                    other = sentiment)
  /\ (forall other, getRGB other = getRGB sentiment -> other = sentiment).
Proof.
  split; [|split; [|split]].
  - destruct sentiment.
    + exists 136%nat, 132%nat, 216%nat. repeat split; try lia; reflexivity.
    + exists 130%nat, 202%nat, 157%nat. repeat split; try lia; reflexivity.
    + exists 255%nat, 198%nat, 88%nat. repeat split; try lia; reflexivity.
  - destruct sentiment; reflexivity.
  - intros other H. destruct sentiment, other; try reflexivity; discriminate.
  - intros other H. destruct sentiment, other; try reflexivity; discriminate.
Qed.

Lemma fill_and_stroke_are_the_same_colour_witness :
  getStrokeColor arousal = hexColour 130 202 157
  /\ lineStroke arousal = getStrokeColor arousal.
Proof.
  destruct (fill_and_stroke_are_the_same_colour arousal) as (_ & Hl & _).
  split; [reflexivity | exact Hl].
Defined.

End ColourProperties.
